(** * Kudu scan-filter core: block Bloom filter, column predicates, block cache

    A shallow embedding of
    - [src/kudu/util/block_bloom_filter.cc]   (module [BlockBloom]),
    - [src/kudu/common/column_predicate.h]    (module [Predicate]),
    - the cache exercised by [src/kudu/util/cache-test.cc] (module [Cache]),
    - [src/kudu/sentry/sentry_action.cc]      (module [Sentry]),
    - the [DataTable] of [src/kudu/tools/tool_action_common.cc]
      (module [Tools]),
    together with the properties stated about them. *)

From Stdlib Require Import ZArith Lia Bool Sorted String.
From stdpp Require Import base option list sorting.
From Equations Require Import Equations.

Local Open Scope Z_scope.

(** ** Unsigned 32-bit arithmetic *)

Definition u32 (z : Z) : Z := z mod 2 ^ 32.

Lemma u32_range z : 0 <= u32 z < 2 ^ 32.
Proof. unfold u32. apply Z.mod_pos_bound. lia. Qed.

Lemma land_one_shiftl w k :
  0 <= k -> (Z.land w (Z.shiftl 1 k) =? 0) = negb (Z.testbit w k).
Proof.
  intros Hk. rewrite Z.shiftl_1_l.
  assert (Hbits : forall n, 0 <= n ->
            Z.testbit (Z.land w (2 ^ k)) n = Z.testbit w n && (k =? n)).
  { intros n Hn. now rewrite Z.land_spec, Z.pow2_bits_eqb. }
  destruct (Z.testbit w k) eqn:Hw; simpl.
  - apply Z.eqb_neq. intros Hz.
    specialize (Hbits k Hk).
    rewrite Hz, Z.testbit_0_l, Hw, Z.eqb_refl in Hbits. discriminate.
  - apply Z.eqb_eq, Z.bits_inj'. intros n Hn.
    rewrite Hbits, Z.testbit_0_l by lia.
    destruct (Z.eqb_spec k n) as [->|]; [now rewrite Hw | apply andb_false_r].
Qed.

(** ** Status codes ([kudu/util/status.h]); the message strings are not
    modelled. *)
Inductive Status := OK | InvalidArgument | RuntimeError.

(** * BlockBloomFilter ([src/kudu/util/block_bloom_filter.cc])

    The embedding follows the build without [USE_AVX2]: the constructor
    installs [BucketInsert] and [BucketFind] as the bucket functions. *)
Module BlockBloom.

(** A bucket is [kBucketWords] 32-bit words; the directory is an array of
    buckets living at some address. *)
Abbreviation Bucket := (list Z).

Record Directory := {
  dir_addr : Z;               (* address returned by the allocator *)
  dir_bytes : Z;              (* number of bytes allocated *)
  dir_buckets : list Bucket   (* the memory, viewed as [Bucket*] *)
}.

Record BlockBloomFilter := {
  always_false_ : bool;
  log_num_buckets_ : Z;
  directory_mask_ : Z;
  directory_ : option Directory   (* [None] is [nullptr] *)
}.

(** Modelled from the spec: the constants of [block_bloom_filter.h], which
    is not among the sources.  Buckets are 32 bytes (log2 = 5) of eight
    32-bit words, and a lane uses the top 5 bits of its rehash. *)
Definition kLogBucketWordBits : Z := 5.
Definition kBucketWords : nat := 8.
Definition kLogBucketByteSize : Z := 5.

(** Modelled from the spec: [directory_size()] of [block_bloom_filter.h],
    "2^log_num_buckets x 32 bytes". *)
Definition directory_size (f : BlockBloomFilter) : Z :=
  Z.shiftl 1 (log_num_buckets_ f + kLogBucketByteSize).

(** The buffer allocator interface [BlockBloomFilterBufferAllocatorIf]:
    [AllocateBuffer bytes] gives a status and the pointer stored through
    its out-parameter. *)
Class BlockBloomFilterBufferAllocatorIf := {
  AllocateBuffer : Z -> Status * option Z
}.

Section Filter.

(** [kRehash] and [Rehash32to32] are declared in headers that are not among
    the sources; every result below holds whatever their values are. *)
Variable kRehash : nat -> Z.
Variable Rehash32to32 : Z -> Z.

(** [posix_memalign alignment bytes] gives the return code and the pointer;
    [CACHELINE_SIZE] is a macro of [gutil/port.h]. *)
Variable CACHELINE_SIZE : Z.
Variable posix_memalign : Z -> Z -> Z * Z.

(** DefaultBlockBloomFilterBufferAllocator::AllocateBuffer *)
Definition DefaultAllocateBuffer (bytes : Z) : Status * option Z :=
  let '(ret_code, ptr) := posix_memalign CACHELINE_SIZE bytes in
  if ret_code =? 0 then (OK, Some ptr) else (RuntimeError, None).

#[local] Instance DefaultBlockBloomFilterBufferAllocator :
  BlockBloomFilterBufferAllocatorIf :=
  {| AllocateBuffer := DefaultAllocateBuffer |}.

Context (buffer_allocator_ : BlockBloomFilterBufferAllocatorIf).

(** BlockBloomFilter::BlockBloomFilter *)
Definition new_BlockBloomFilter : BlockBloomFilter :=
  {| always_false_ := true; log_num_buckets_ := 0;
     directory_mask_ := 0; directory_ := None |}.

(** BlockBloomFilter::Close *)
Definition Close (f : BlockBloomFilter) : BlockBloomFilter :=
  match directory_ f with
  | Some _ =>
      {| always_false_ := always_false_ f;
         log_num_buckets_ := log_num_buckets_ f;
         directory_mask_ := directory_mask_ f;
         directory_ := None |}
  | None => f
  end.

(** [memset(directory_, 0, alloc_size)] seen through [Bucket*]. *)
Definition zeroed (alloc_size : Z) : list Bucket :=
  replicate (Z.to_nat (alloc_size / 32)) (replicate kBucketWords 0).

(** BlockBloomFilter::Init.  [log_space_bytes] is an [int]; the difference
    [log_space_bytes - kLogBucketByteSize] is computed exactly, which is
    what the source computes for [-2^31 + 5 <= log_space_bytes < 2^31]
    (below [INT_MIN + 5] the [int] subtraction overflows, which is
    undefined in the source; [Init_spec] is stated on the range above).
    When the allocator fails, [directory_] stays null as [Close] left
    it. *)
Definition Init (f : BlockBloomFilter) (log_space_bytes : Z)
  : Status * BlockBloomFilter :=
  let f1 := {| always_false_ := always_false_ f;
               log_num_buckets_ := Z.max 1 (log_space_bytes - kLogBucketByteSize);
               directory_mask_ := directory_mask_ f;
               directory_ := directory_ f |} in
  if 32 <? log_num_buckets_ f1 then (InvalidArgument, f1)
  else
    let f2 := {| always_false_ := always_false_ f1;
                 log_num_buckets_ := log_num_buckets_ f1;
                 directory_mask_ := u32 (Z.shiftl 1 (log_num_buckets_ f1) - 1);
                 directory_ := directory_ f1 |} in
    let alloc_size := directory_size f2 in
    let f3 := Close f2 in
    match AllocateBuffer alloc_size with
    | (OK, Some ptr) =>
        (OK, {| always_false_ := always_false_ f3;
                log_num_buckets_ := log_num_buckets_ f3;
                directory_mask_ := directory_mask_ f3;
                directory_ := Some {| dir_addr := ptr;
                                      dir_bytes := alloc_size;
                                      dir_buckets := zeroed alloc_size |} |})
    | (st, _) => (st, f3)
    end.

(** The word with the single bit that lane [i] uses for [hash]:
    [1U << ((kRehash[i] * hash) >> ((1 << kLogBucketWordBits) - kLogBucketWordBits))]. *)
Definition lane_bit (i : nat) (hash : Z) : Z :=
  Z.shiftr (u32 (kRehash i * hash))
           (Z.shiftl 1 kLogBucketWordBits - kLogBucketWordBits).

Definition lane_word (i : nat) (hash : Z) : Z :=
  u32 (Z.shiftl 1 (lane_bit i hash)).

(** One [_mm_or_si128] step of [BucketInsert]: the four words of
    [existing] from offset [off] are or-ed with those of [new_bucket]. *)
Definition or_word (new_bucket : Bucket) (acc : option Bucket) (j : nat)
  : option Bucket :=
  b ← acc; w ← b !! j; n ← new_bucket !! j; Some (<[j := Z.lor w n]> b).

Definition mm_or_si128 (existing new_bucket : Bucket) (off : nat)
  : option Bucket :=
  foldl (or_word new_bucket) (Some existing) (seq off 4).

(** BlockBloomFilter::BucketInsert; [None] is an access outside the
    directory (undefined behaviour in the source). *)
Definition BucketInsert (bucket_idx hash : Z) (d : list Bucket)
  : option (list Bucket) :=
  let new_bucket := map (fun i => lane_word i hash) (seq 0 kBucketWords) in
  let idx := Z.to_nat bucket_idx in
  b ← d !! idx;
  b0 ← mm_or_si128 b new_bucket 0;
  b1 ← mm_or_si128 b0 new_bucket 4;
  Some (<[idx := b1]> d).

(** BlockBloomFilter::BucketFind over the lanes still to be checked. *)
Fixpoint BucketFind_from (b : Bucket) (hash : Z) (lanes : list nat)
  : option bool :=
  match lanes with
  | [] => Some true
  | i :: rest =>
      w ← b !! i;
      if Z.land w (lane_word i hash) =? 0 then Some false
      else BucketFind_from b hash rest
  end.

Definition BucketFind (bucket_idx hash : Z) (d : list Bucket) : option bool :=
  b ← d !! Z.to_nat bucket_idx;
  BucketFind_from b hash (seq 0 kBucketWords).

Definition bucket_index (f : BlockBloomFilter) (hash : Z) : Z :=
  Z.land (Rehash32to32 hash) (directory_mask_ f).

(** BlockBloomFilter::Insert (and InsertNoAvx2, which is the same code). *)
Definition Insert (f : BlockBloomFilter) (hash : Z) : option BlockBloomFilter :=
  d ← directory_ f;
  bs ← BucketInsert (bucket_index f hash) hash (dir_buckets d);
  Some {| always_false_ := false;
          log_num_buckets_ := log_num_buckets_ f;
          directory_mask_ := directory_mask_ f;
          directory_ := Some {| dir_addr := dir_addr d;
                                dir_bytes := dir_bytes d;
                                dir_buckets := bs |} |}.

(** BlockBloomFilter::Find *)
Definition Find (f : BlockBloomFilter) (hash : Z) : option bool :=
  if always_false_ f then Some false
  else d ← directory_ f; BucketFind (bucket_index f hash) hash (dir_buckets d).

(** A sequence of Insert calls. *)
Fixpoint Inserts (f : BlockBloomFilter) (hashes : list Z)
  : option BlockBloomFilter :=
  match hashes with
  | [] => Some f
  | h :: rest => f' ← Insert f h; Inserts f' rest
  end.

(** Calls that do not insert. *)
Inductive Call := CallInit (log_space_bytes : Z) | CallClose.

Definition call (f : BlockBloomFilter) (c : Call) : BlockBloomFilter :=
  match c with
  | CallInit n => snd (Init f n)
  | CallClose => Close f
  end.

(** The state of a filter whose [Init] succeeded: a directory of
    [2^log_num_buckets_] buckets of [kBucketWords] words and the matching
    mask. *)
Definition initialized (f : BlockBloomFilter) : bool :=
  match directory_ f with
  | None => false
  | Some d =>
      (1 <=? log_num_buckets_ f) && (log_num_buckets_ f <=? 32)
      && (directory_mask_ f =? 2 ^ log_num_buckets_ f - 1)
      && (Z.of_nat (length (dir_buckets d)) =? 2 ^ log_num_buckets_ f)
      && forallb (fun b => Nat.eqb (length b) kBucketWords) (dir_buckets d)
  end.

(** The bit of lane [i] for [hash] is set in the bucket of [hash]. *)
Definition lane_set (f : BlockBloomFilter) (hash : Z) (i : nat) : bool :=
  match directory_ f with
  | None => false
  | Some d =>
      match dir_buckets d !! Z.to_nat (bucket_index f hash) with
      | None => false
      | Some b =>
          match b !! i with
          | None => false
          | Some w => Z.testbit w (lane_bit i hash)
          end
      end
  end.


(** Bit-wise inclusion of directory contents: every bit set on the left is
    set on the right. *)
Definition word_le (w w' : Z) : Prop :=
  forall n, Z.testbit w n = true -> Z.testbit w' n = true.

Definition buckets_le (d d' : list Bucket) : Prop :=
  Forall2 (Forall2 word_le) d d'.

(** *** Arithmetic of lanes and bucket indices *)

Lemma lane_bit_range i hash : 0 <= lane_bit i hash < 32.
Proof.
  unfold lane_bit. change (Z.shiftl 1 kLogBucketWordBits - kLogBucketWordBits) with 27.
  rewrite Z.shiftr_div_pow2 by lia.
  pose proof (u32_range (kRehash i * hash)) as Hr.
  split.
  - apply Z.div_pos; lia.
  - apply Z.div_lt_upper_bound; [lia|]. change (2 ^ 27 * 32) with (2 ^ 32). lia.
Qed.

Lemma lane_word_test w i hash :
  (Z.land w (lane_word i hash) =? 0) = negb (Z.testbit w (lane_bit i hash)).
Proof.
  pose proof (lane_bit_range i hash) as Hr. unfold lane_word, u32.
  rewrite Z.mod_small.
  - apply land_one_shiftl. lia.
  - rewrite Z.shiftl_1_l. split; [apply Z.pow_nonneg; lia|].
    apply Z.pow_lt_mono_r; lia.
Qed.

Lemma lane_word_bit i hash :
  Z.testbit (lane_word i hash) (lane_bit i hash) = true.
Proof.
  pose proof (lane_bit_range i hash) as Hr.
  pose proof (lane_word_test (lane_word i hash) i hash) as Ht.
  rewrite Z.land_diag in Ht.
  destruct (Z.testbit (lane_word i hash) (lane_bit i hash)); [done|].
  unfold negb in Ht. apply Z.eqb_eq in Ht.
  unfold lane_word, u32 in Ht. rewrite Z.mod_small in Ht.
  - rewrite Z.shiftl_1_l in Ht.
    assert (0 < 2 ^ lane_bit i hash) by (apply Z.pow_pos_nonneg; lia). lia.
  - rewrite Z.shiftl_1_l. split; [apply Z.pow_nonneg; lia|].
    apply Z.pow_lt_mono_r; lia.
Qed.

Lemma initialized_inv f :
  initialized f = true ->
  exists d, directory_ f = Some d
    /\ 1 <= log_num_buckets_ f <= 32
    /\ directory_mask_ f = 2 ^ log_num_buckets_ f - 1
    /\ Z.of_nat (length (dir_buckets d)) = 2 ^ log_num_buckets_ f
    /\ Forall (fun b => length b = kBucketWords) (dir_buckets d).
Proof.
  unfold initialized. destruct (directory_ f) as [d|]; [|done].
  rewrite !andb_true_iff, forallb_forall.
  intros [[[[H1 H2] H3] H4] H5]. exists d. repeat split; try lia.
  apply Forall_forall. intros b Hb.
  apply Nat.eqb_eq, H5. by apply list_elem_of_In.
Qed.

Lemma bucket_index_lt f hash d :
  initialized f = true -> directory_ f = Some d ->
  (Z.to_nat (bucket_index f hash) < length (dir_buckets d))%nat.
Proof.
  intros Hi Hd. destruct (initialized_inv f Hi) as (d' & Hd' & Hlog & Hmask & Hlen & _).
  assert (d' = d) as -> by congruence.
  unfold bucket_index. rewrite Hmask.
  change (2 ^ log_num_buckets_ f - 1) with (Z.pred (2 ^ log_num_buckets_ f)).
  rewrite <- Z.ones_equiv, Z.land_ones by lia.
  pose proof (Z.mod_pos_bound (Rehash32to32 hash) (2 ^ log_num_buckets_ f)) as Hb.
  assert (0 < 2 ^ log_num_buckets_ f) by (apply Z.pow_pos_nonneg; lia).
  lia.
Qed.

(** *** The bucket operations *)

Definition new_bucket_of (hash : Z) : Bucket :=
  map (fun i => lane_word i hash) (seq 0 kBucketWords).

Lemma BucketInsert_some bucket_idx hash d b :
  d !! Z.to_nat bucket_idx = Some b -> length b = kBucketWords ->
  BucketInsert bucket_idx hash d
  = Some (<[Z.to_nat bucket_idx := zip_with Z.lor b (new_bucket_of hash)]> d).
Proof.
  intros Hb Hlen. unfold BucketInsert. cbv zeta. rewrite Hb.
  fold (new_bucket_of hash).
  do 8 (destruct b as [|? b]; [discriminate Hlen|]).
  destruct b; [|discriminate Hlen].
  reflexivity.
Qed.

Lemma word_le_lor w n : word_le w (Z.lor w n).
Proof. intros k Hk. rewrite Z.lor_spec, Hk. reflexivity. Qed.

Lemma word_le_refl w : word_le w w.
Proof. intros k Hk. exact Hk. Qed.

Lemma bucket_le_zip b new_bucket :
  length b = length new_bucket ->
  Forall2 word_le b (zip_with Z.lor b new_bucket).
Proof.
  revert new_bucket. induction b as [|w b IH]; intros [|n nb] Hlen;
    try discriminate Hlen; simpl; constructor.
  - apply word_le_lor.
  - apply IH. simpl in Hlen. lia.
Qed.

Lemma buckets_le_refl d : buckets_le d d.
Proof.
  apply Forall2_same_length_lookup_2; [done|].
  intros i b b' Hb Hb'. assert (b' = b) as -> by congruence.
  apply Forall2_same_length_lookup_2; [done|].
  intros j w w' Hw Hw'. assert (w' = w) as -> by congruence.
  apply word_le_refl.
Qed.

Lemma buckets_le_trans d1 d2 d3 :
  buckets_le d1 d2 -> buckets_le d2 d3 -> buckets_le d1 d3.
Proof.
  unfold buckets_le. intros H12 H23.
  eapply Forall2_trans; [| exact H12 | exact H23].
  intros b1 b2 b3 Hb12 Hb23.
  eapply Forall2_trans; [| exact Hb12 | exact Hb23].
  intros w1 w2 w3 Hw12 Hw23 k Hk. apply Hw23, Hw12, Hk.
Qed.

Lemma BucketInsert_le bucket_idx hash d b :
  d !! Z.to_nat bucket_idx = Some b -> length b = kBucketWords ->
  buckets_le d (<[Z.to_nat bucket_idx := zip_with Z.lor b (new_bucket_of hash)]> d).
Proof.
  intros Hb Hlen. unfold buckets_le.
  rewrite <- (list_insert_id d (Z.to_nat bucket_idx) b Hb) at 1.
  apply Forall2_insert; [apply buckets_le_refl|].
  apply bucket_le_zip. rewrite Hlen. reflexivity.
Qed.

Lemma BucketFind_from_spec b hash lanes :
  Forall (fun i => (i < length b)%nat) lanes ->
  BucketFind_from b hash lanes
  = Some (forallb (fun i => match b !! i with
                            | Some w => Z.testbit w (lane_bit i hash)
                            | None => false
                            end) lanes).
Proof.
  induction 1 as [|i lanes Hi _ IH]; [reflexivity|].
  destruct (lookup_lt_is_Some_2 b i Hi) as [w Hw].
  cbn [BucketFind_from forallb]. rewrite Hw. cbn [mbind option_bind].
  rewrite lane_word_test.
  destruct (Z.testbit w (lane_bit i hash)); [exact IH | reflexivity].
Qed.

Lemma lanes_lt (b : Bucket) :
  length b = kBucketWords ->
  Forall (fun i => (i < length b)%nat) (seq 0 kBucketWords).
Proof.
  intros ->. apply Forall_forall. intros i Hi.
  apply list_elem_of_In, in_seq in Hi. lia.
Qed.

(** *** Insert and Find on an initialized filter *)

Lemma Find_initialized f hash :
  initialized f = true -> always_false_ f = false ->
  Find f hash = Some (forallb (lane_set f hash) (seq 0 kBucketWords)).
Proof.
  intros Hi Haf.
  destruct (initialized_inv f Hi) as (d & Hd & _ & _ & _ & Hall).
  pose proof (bucket_index_lt f hash d Hi Hd) as Hlt.
  destruct (lookup_lt_is_Some_2 _ _ Hlt) as [b Hb].
  assert (Hlen : length b = kBucketWords).
  { eapply Forall_lookup_1 in Hall; [exact Hall | exact Hb]. }
  unfold Find, BucketFind. rewrite Haf, Hd. cbn [mbind option_bind].
  rewrite Hb. cbn [mbind option_bind].
  rewrite BucketFind_from_spec by (by apply lanes_lt).
  f_equal. induction (seq 0 kBucketWords) as [|i lanes IH]; [reflexivity|].
  cbn [forallb]. rewrite IH. f_equal.
  unfold lane_set. rewrite Hd, Hb. reflexivity.
Qed.

Lemma lane_set_le f f' hash i :
  directory_mask_ f' = directory_mask_ f ->
  (forall d d', directory_ f = Some d -> directory_ f' = Some d' ->
                buckets_le (dir_buckets d) (dir_buckets d')) ->
  is_Some (directory_ f') ->
  lane_set f hash i = true -> lane_set f' hash i = true.
Proof.
  intros Hmask Hle [d' Hd']. unfold lane_set, bucket_index.
  rewrite Hmask, Hd'.
  destruct (directory_ f) as [d|]; [|discriminate].
  specialize (Hle d d' eq_refl Hd').
  destruct (dir_buckets d !! _) as [b|] eqn:Hb; [|discriminate].
  destruct (Forall2_lookup_l _ _ _ _ _ Hle Hb) as (b' & -> & Hbb).
  destruct (b !! i) as [w|] eqn:Hw; [|discriminate].
  destruct (Forall2_lookup_l _ _ _ _ _ Hbb Hw) as (w' & -> & Hww).
  apply Hww.
Qed.

Lemma Insert_initialized f hash :
  initialized f = true ->
  exists f', Insert f hash = Some f'
    /\ initialized f' = true
    /\ always_false_ f' = false
    /\ directory_mask_ f' = directory_mask_ f
    /\ log_num_buckets_ f' = log_num_buckets_ f
    /\ (forall d d', directory_ f = Some d -> directory_ f' = Some d' ->
                     buckets_le (dir_buckets d) (dir_buckets d'))
    /\ forallb (lane_set f' hash) (seq 0 kBucketWords) = true.
Proof.
  intros Hi.
  destruct (initialized_inv f Hi) as (d & Hd & Hlog & Hmask & Hlen & Hall).
  pose proof (bucket_index_lt f hash d Hi Hd) as Hlt.
  destruct (lookup_lt_is_Some_2 _ _ Hlt) as [b Hb].
  assert (Hblen : length b = kBucketWords).
  { eapply Forall_lookup_1 in Hall; [exact Hall | exact Hb]. }
  unfold Insert. rewrite Hd. cbn [mbind option_bind].
  rewrite (BucketInsert_some _ _ _ b Hb Hblen). cbn [mbind option_bind].
  eexists. split; [reflexivity|].
  set (b' := zip_with Z.lor b (new_bucket_of hash)).
  assert (Hb'len : length b' = kBucketWords).
  { unfold b'. rewrite length_zip_with, Hblen. reflexivity. }
  repeat split; cbn [always_false_ directory_mask_ log_num_buckets_ directory_].
  - unfold initialized. cbn [directory_ log_num_buckets_ directory_mask_ dir_buckets].
    rewrite length_insert.
    rewrite !andb_true_iff. repeat split; try lia.
    apply forallb_forall. intros x Hx. apply Nat.eqb_eq.
    apply list_elem_of_In, list_elem_of_lookup in Hx. destruct Hx as [j Hj].
    destruct (decide (j = Z.to_nat (bucket_index f hash))) as [->|Hne].
    + rewrite list_lookup_insert_eq in Hj by exact Hlt. congruence.
    + rewrite list_lookup_insert_ne in Hj by congruence.
      eapply Forall_lookup_1 in Hall; [exact Hall | exact Hj].
  - intros d0 d0' Hd0 Hd0'. assert (d0 = d) as -> by congruence.
    injection Hd0' as <-. cbn [dir_buckets].
    by apply BucketInsert_le.
  - apply forallb_forall. intros i Hi'. apply in_seq in Hi'.
    unfold lane_set, bucket_index.
    cbn [directory_ directory_mask_ dir_buckets].
    fold (bucket_index f hash).
    rewrite list_lookup_insert_eq by exact Hlt.
    assert (Hil : (i < length b)%nat) by (rewrite Hblen; unfold kBucketWords in *; lia).
    destruct (lookup_lt_is_Some_2 b i Hil) as [w Hw].
    unfold b'. rewrite lookup_zip_with, Hw. cbn [mbind option_bind].
    unfold new_bucket_of. rewrite list_lookup_fmap.
    rewrite lookup_seq_lt by (unfold kBucketWords in *; lia).
    cbn [fmap option_fmap option_map mbind option_bind].
    rewrite Z.lor_spec, lane_word_bit. apply orb_true_r.
Qed.

Lemma Inserts_initialized f hashes :
  initialized f = true ->
  exists f', Inserts f hashes = Some f'
    /\ initialized f' = true
    /\ (always_false_ f = false -> always_false_ f' = false)
    /\ (hashes <> [] -> always_false_ f' = false)
    /\ directory_mask_ f' = directory_mask_ f
    /\ (forall d d', directory_ f = Some d -> directory_ f' = Some d' ->
                     buckets_le (dir_buckets d) (dir_buckets d')).
Proof.
  revert f. induction hashes as [|h rest IH]; intros f Hi.
  - exists f. repeat split; try done.
    intros d d' Hd Hd'. assert (d' = d) as -> by congruence. apply buckets_le_refl.
  - destruct (Insert_initialized f h Hi)
      as (f1 & Hins & Hi1 & Haf1 & Hmask1 & _ & Hle1 & _).
    destruct (IH f1 Hi1) as (f' & Hrest & Hi' & Haf' & _ & Hmask' & Hle').
    exists f'. cbn [Inserts]. rewrite Hins. cbn [mbind option_bind].
    repeat split; try done; try (intros; by apply Haf').
    + congruence.
    + intros d d' Hd Hd'.
      destruct (initialized_inv f1 Hi1) as (d1 & Hd1 & _).
      eapply buckets_le_trans; [by apply Hle1 | by apply Hle'].
Qed.

(** *** Init *)

Lemma Init_always_false f log_space_bytes :
  always_false_ (snd (Init f log_space_bytes)) = always_false_ f.
Proof.
  unfold Init, Close. cbn [log_num_buckets_ always_false_ directory_].
  destruct (32 <? _); [reflexivity|].
  destruct (directory_ f); cbn [directory_mask_ log_num_buckets_ always_false_];
    destruct (AllocateBuffer _) as [[] []]; reflexivity.
Qed.

Lemma Close_always_false f : always_false_ (Close f) = always_false_ f.
Proof. unfold Close. destruct (directory_ f); reflexivity. Qed.

Lemma calls_always_false (calls : list Call) f :
  always_false_ (foldl call f calls) = always_false_ f.
Proof.
  revert f. induction calls as [|c calls IH]; intros f; [reflexivity|].
  cbn [foldl]. rewrite IH. destruct c; cbn [call].
  - apply Init_always_false.
  - apply Close_always_false.
Qed.

Lemma Close_directory f : directory_ (Close f) = None.
Proof. unfold Close. destruct (directory_ f) eqn:E; [reflexivity | exact E]. Qed.

Lemma mask_u32 n : 1 <= n <= 32 -> u32 (Z.shiftl 1 n - 1) = 2 ^ n - 1.
Proof.
  intros Hn. rewrite Z.shiftl_1_l. unfold u32. apply Z.mod_small.
  assert (0 < 2 ^ n) by (apply Z.pow_pos_nonneg; lia).
  assert (2 ^ n <= 2 ^ 32) by (apply Z.pow_le_mono_r; lia).
  lia.
Qed.

Lemma directory_size_eq f :
  0 <= log_num_buckets_ f ->
  directory_size f = 2 ^ log_num_buckets_ f * 32.
Proof.
  intros Hn. unfold directory_size, kLogBucketByteSize.
  rewrite Z.shiftl_1_l, Z.pow_add_r by lia. reflexivity.
Qed.

Lemma zeroed_buckets n :
  0 <= n -> zeroed (2 ^ n * 32) = replicate (Z.to_nat (2 ^ n)) (replicate kBucketWords 0).
Proof. intros Hn. unfold zeroed. rewrite Z.div_mul by lia. reflexivity. Qed.

End Filter.

(** An instance of the missing declarations, used to run the model: eight
    odd 32-bit multipliers, a multiply-add rehash, 64-byte cache lines and an
    allocation that succeeds at a 64-byte boundary. *)
Definition example_kRehash (i : nat) : Z :=
  nth i [0x47b6137b; 0x44974d91; 0x8824ad5b; 0xa2b7289d;
         0x705495c7; 0x2df1424b; 0x9efc4947; 0x5c6bfb31] 1.

Definition example_Rehash32to32 (hash : Z) : Z :=
  Z.shiftr ((hash * 0x7850f11ec6d14889 + 0x6773610597ca4c63) mod 2 ^ 64) 32.

Definition example_posix_memalign (alignment bytes : Z) : Z * Z :=
  (0, 4096 * alignment).

Definition example_allocator : BlockBloomFilterBufferAllocatorIf :=
  DefaultBlockBloomFilterBufferAllocator 64 example_posix_memalign.

(** A filter of two buckets: [Init(6)] on a new filter. *)
Definition example_filter : BlockBloomFilter :=
  snd (Init example_allocator new_BlockBloomFilter 6).

Section Claims.

Variable kRehash : nat -> Z.
Variable Rehash32to32 : Z -> Z.

(** C2. No false negatives: once [h] has been inserted into an initialized
    filter, [Find h] answers true, also after any further sequence of
    Insert calls (all of which are defined on an initialized filter). *)
Theorem no_false_negatives (f : BlockBloomFilter) (h : Z) (further : list Z) :
  initialized f = true ->
  exists f', Inserts kRehash Rehash32to32 f (h :: further) = Some f'
    /\ Find kRehash Rehash32to32 f' h = Some true.
Proof.
  intros Hi.
  destruct (Insert_initialized kRehash Rehash32to32 f h Hi)
    as (f1 & Hins & Hi1 & Haf1 & _ & _ & _ & Hset).
  destruct (Inserts_initialized kRehash Rehash32to32 f1 further Hi1)
    as (f' & Hrest & Hi' & Haf' & _ & Hmask & Hle).
  exists f'. split.
  - cbn [Inserts]. rewrite Hins. exact Hrest.
  - rewrite Find_initialized by auto.
    f_equal. apply forallb_forall. intros i Hin.
    rewrite forallb_forall in Hset.
    apply (lane_set_le kRehash Rehash32to32 f1 f'); auto.
    destruct (initialized_inv f' Hi') as (d' & -> & _). by eexists.
Qed.

(** C4. [Find] answers false whenever [always_false_] is set; this is the
    case for a new filter after any calls of [Init] and [Close], and only
    [Insert] clears the flag.  Otherwise, on an initialized filter, [Find h]
    is true exactly when each of the eight lanes has its bit set in bucket
    [Rehash32to32 h & (2^log_num_buckets_ - 1)]. *)
Theorem Find_spec (alloc : BlockBloomFilterBufferAllocatorIf)
    (f : BlockBloomFilter) (h : Z) :
  (always_false_ f = true -> Find kRehash Rehash32to32 f h = Some false)
  /\ (forall calls : list Call,
        let f0 := foldl (call alloc) new_BlockBloomFilter calls in
        always_false_ f0 = true /\ Find kRehash Rehash32to32 f0 h = Some false)
  /\ (forall f', Insert kRehash Rehash32to32 f h = Some f' ->
                 always_false_ f' = false)
  /\ (always_false_ f = false -> initialized f = true ->
      bucket_index Rehash32to32 f h
        = Z.land (Rehash32to32 h) (2 ^ log_num_buckets_ f - 1)
      /\ exists b,
          Find kRehash Rehash32to32 f h = Some b
          /\ (b = true <->
              forall i, (i < kBucketWords)%nat ->
                        lane_set kRehash Rehash32to32 f h i = true)).
Proof.
  split; [|split; [|split]].
  - intros Haf. unfold Find. rewrite Haf. reflexivity.
  - intros calls f0. subst f0. split.
    + apply calls_always_false.
    + unfold Find. rewrite calls_always_false. reflexivity.
  - intros f' Hins. unfold Insert in Hins.
    destruct (directory_ f); [|discriminate]. cbn [mbind option_bind] in Hins.
    destruct (BucketInsert _ _ _ _); [|discriminate].
    injection Hins as <-. reflexivity.
  - intros Haf Hi. split.
    + destruct (initialized_inv f Hi) as (d & _ & _ & Hmask & _).
      unfold bucket_index. rewrite Hmask. reflexivity.
    + exists (forallb (lane_set kRehash Rehash32to32 f h) (seq 0 kBucketWords)).
      split; [by apply Find_initialized|].
      rewrite forallb_forall. split.
      * intros Hall i Hlt. apply Hall, in_seq. lia.
      * intros Hall i Hin. apply Hall. apply in_seq in Hin. lia.
Qed.

(** C9. [Find] is monotone under insertion: a hash found in an initialized
    filter is still found after any sequence of Insert calls, which only
    add bits to the directory and never set [always_false_] again. *)
Theorem Find_monotone (f : BlockBloomFilter) (g : Z) (hashes : list Z) :
  initialized f = true ->
  Find kRehash Rehash32to32 f g = Some true ->
  exists f', Inserts kRehash Rehash32to32 f hashes = Some f'
    /\ Find kRehash Rehash32to32 f' g = Some true
    /\ always_false_ f' = false
    /\ (forall d d', directory_ f = Some d -> directory_ f' = Some d' ->
                     buckets_le (dir_buckets d) (dir_buckets d')).
Proof.
  intros Hi Hfind.
  assert (Haf : always_false_ f = false).
  { unfold Find in Hfind. destruct (always_false_ f); [discriminate | reflexivity]. }
  destruct (Inserts_initialized kRehash Rehash32to32 f hashes Hi)
    as (f' & Hrest & Hi' & Haf' & _ & Hmask & Hle).
  exists f'. repeat split; auto.
  rewrite Find_initialized in Hfind by auto.
  assert (Hset : forallb (lane_set kRehash Rehash32to32 f g) (seq 0 kBucketWords) = true)
    by congruence.
  rewrite Find_initialized by auto.
  f_equal. apply forallb_forall. intros i Hin.
  rewrite forallb_forall in Hset.
  apply (lane_set_le kRehash Rehash32to32 f f'); auto.
  destruct (initialized_inv f' Hi') as (d' & -> & _). by eexists.
Qed.

End Claims.

Lemma no_false_negatives_witness :
  initialized example_filter = true
  /\ exists f', Inserts example_kRehash example_Rehash32to32
                        example_filter [42; 7; 1000] = Some f'
      /\ Find example_kRehash example_Rehash32to32 f' 42 = Some true.
Proof.
  split; [reflexivity|].
  apply (no_false_negatives example_kRehash example_Rehash32to32
           example_filter 42 [7; 1000]).
  reflexivity.
Defined.

Lemma Find_spec_witness :
  Find example_kRehash example_Rehash32to32 new_BlockBloomFilter 42 = Some false
  /\ Find example_kRehash example_Rehash32to32 example_filter 42 = Some false
  /\ (exists f' b,
        Insert example_kRehash example_Rehash32to32 example_filter 42 = Some f'
        /\ always_false_ f' = false /\ initialized f' = true
        /\ Find example_kRehash example_Rehash32to32 f' 7 = Some b
        /\ (b = true <->
            forall i, (i < kBucketWords)%nat ->
                      lane_set example_kRehash example_Rehash32to32 f' 7 i = true)).
Proof.
  split; [|split].
  - apply (Find_spec example_kRehash example_Rehash32to32 example_allocator
             new_BlockBloomFilter 42). reflexivity.
  - apply (Find_spec example_kRehash example_Rehash32to32 example_allocator
             new_BlockBloomFilter 42 : _ /\ _ /\ _) with (calls := [CallInit 6]).
  - destruct (Insert example_kRehash example_Rehash32to32 example_filter 42)
      as [f'|] eqn:Hins; [|discriminate Hins].
    assert (Hi : initialized f' = true) by (vm_compute in Hins; by injection Hins as <-).
    pose proof (Find_spec example_kRehash example_Rehash32to32 example_allocator
                  example_filter 42) as (_ & _ & Haf & _).
    pose proof (Find_spec example_kRehash example_Rehash32to32 example_allocator
                  f' 7) as (_ & _ & _ & Hfind).
    destruct (Hfind (Haf f' Hins) Hi) as (_ & b & Hb & Hiff).
    exists f', b. auto using Haf.
Defined.

Lemma Find_monotone_witness :
  exists f0,
    Inserts example_kRehash example_Rehash32to32 example_filter [42] = Some f0
    /\ initialized f0 = true
    /\ Find example_kRehash example_Rehash32to32 f0 42 = Some true
    /\ exists f', Inserts example_kRehash example_Rehash32to32 f0 [7; 8; 9] = Some f'
        /\ Find example_kRehash example_Rehash32to32 f' 42 = Some true.
Proof.
  destruct (Inserts example_kRehash example_Rehash32to32 example_filter [42])
    as [f0|] eqn:Hins; [|discriminate Hins].
  assert (Hi : initialized f0 = true) by (vm_compute in Hins; by injection Hins as <-).
  assert (Hf : Find example_kRehash example_Rehash32to32 f0 42 = Some true)
    by (vm_compute in Hins; by injection Hins as <-).
  exists f0. repeat split; auto.
  destruct (Find_monotone example_kRehash example_Rehash32to32 f0 42 [7; 8; 9] Hi Hf)
    as (f' & H1 & H2 & _).
  exists f'. auto.
Defined.

Section InitClaim.

Variable CACHELINE_SIZE : Z.
Variable posix_memalign : Z -> Z -> Z * Z.

Let default_allocator : BlockBloomFilterBufferAllocatorIf :=
  DefaultBlockBloomFilterBufferAllocator CACHELINE_SIZE posix_memalign.

(** C5 (as amended). With the default allocator, for every filter state and
    every [int] [log_space_bytes] from [INT_MIN + 5] on (so that the [int]
    subtraction [log_space_bytes - 5] does not overflow:
    [-2^31 + 5 <= log_space_bytes < 2^31]), [Init] sets
    [log_num_buckets_ = max(1, log_space_bytes - 5)]; it returns
    InvalidArgument exactly when that exceeds 32, and then allocates and
    frees nothing: [directory_] is what it was before the call.  Otherwise
    the previous directory is released; if [posix_memalign] fails the
    result is RuntimeError, and if it succeeds the result is OK with a
    zeroed directory of [2^log_num_buckets_ * 32] bytes
    ([2^log_num_buckets_] buckets of eight words) at an address that is a
    multiple of 32, and the filter is [initialized]. *)
Theorem Init_spec (f : BlockBloomFilter) (log_space_bytes : Z) :
  - 2 ^ 31 + 5 <= log_space_bytes < 2 ^ 31 ->
  (32 | CACHELINE_SIZE) ->
  (forall bytes, fst (posix_memalign CACHELINE_SIZE bytes) = 0 ->
                 (CACHELINE_SIZE | snd (posix_memalign CACHELINE_SIZE bytes))) ->
  let n := Z.max 1 (log_space_bytes - 5) in
  let st := fst (Init default_allocator f log_space_bytes) in
  let f' := snd (Init default_allocator f log_space_bytes) in
  log_num_buckets_ f' = n
  /\ (st = InvalidArgument <-> 32 < n)
  /\ (32 < n -> directory_ f' = directory_ f)
  /\ (n <= 32 -> fst (posix_memalign CACHELINE_SIZE (2 ^ n * 32)) <> 0 ->
      st = RuntimeError)
  /\ (n <= 32 -> fst (posix_memalign CACHELINE_SIZE (2 ^ n * 32)) = 0 ->
      st = OK
      /\ initialized f' = true
      /\ exists d, directory_ f' = Some d
           /\ dir_bytes d = 2 ^ n * 32
           /\ (32 | dir_addr d)
           /\ dir_buckets d
              = replicate (Z.to_nat (2 ^ n)) (replicate kBucketWords 0)).
Proof.
  intros _ Hline Hmem n st f'. subst st f'.
  assert (Hn1 : 1 <= n) by (subst n; lia).
  unfold Init. cbn [log_num_buckets_ always_false_ directory_ directory_mask_].
  change kLogBucketByteSize with 5. fold n.
  destruct (Z.ltb_spec 32 n) as [Hbig|Hok].
  - cbn [fst snd log_num_buckets_ directory_].
    repeat split; try done; intros; lia.
  - match goal with |- context [directory_size ?x] => set (f2 := x) end.
    assert (Hsz : directory_size f2 = 2 ^ n * 32)
      by (rewrite directory_size_eq; subst f2; cbn [log_num_buckets_]; [done | lia]).
    rewrite Hsz.
    assert (Hlog3 : log_num_buckets_ (Close f2) = n)
      by (unfold Close; destruct (directory_ f2); reflexivity).
    assert (Hmask3 : directory_mask_ (Close f2) = 2 ^ n - 1).
    { unfold Close. destruct (directory_ f2); subst f2;
        cbn [directory_mask_]; apply mask_u32; lia. }
    cbn [AllocateBuffer default_allocator DefaultBlockBloomFilterBufferAllocator].
    unfold default_allocator, DefaultBlockBloomFilterBufferAllocator.
    cbn [AllocateBuffer]. unfold DefaultAllocateBuffer.
    specialize (Hmem (2 ^ n * 32)).
    destruct (posix_memalign CACHELINE_SIZE (2 ^ n * 32)) as [ret_code ptr].
    cbn [fst snd] in *.
    destruct (Z.eqb_spec ret_code 0) as [->|Hret];
      cbn [fst snd log_num_buckets_ directory_].
    + split; [exact Hlog3|]. split; [split; [discriminate | lia]|].
      split; [lia|]. split; [intros _ Hne; by destruct Hne|].
      intros _ _. split; [reflexivity|].
      rewrite zeroed_buckets by lia.
      split.
      * unfold initialized.
        cbn [directory_ log_num_buckets_ directory_mask_ dir_buckets].
        rewrite Hlog3, Hmask3, length_replicate.
        assert (0 < 2 ^ n) by (apply Z.pow_pos_nonneg; lia).
        rewrite !andb_true_iff, !Z.leb_le, !Z.eqb_eq.
        split; [lia|].
        apply forallb_forall. intros b Hb.
        apply list_elem_of_In, elem_of_replicate in Hb. destruct Hb as [-> _].
        reflexivity.
      * eexists. split; [reflexivity|]. cbn [dir_bytes dir_addr dir_buckets].
        repeat split. etransitivity; [exact Hline | by apply Hmem].
    + split; [exact Hlog3|]. split; [split; [discriminate | lia]|].
      split; [lia|]. split; [|intros _ Heq; by destruct Hret].
      intros _ _. reflexivity.
Qed.

End InitClaim.

Lemma Init_spec_witness :
  fst (Init example_allocator new_BlockBloomFilter 6) = OK
  /\ initialized example_filter = true
  /\ log_num_buckets_ example_filter = 1
  /\ fst (Init example_allocator example_filter 38) = InvalidArgument
  /\ directory_ (snd (Init example_allocator example_filter 38))
     = directory_ example_filter.
Proof.
  assert (Hline : (32 | 64)) by (exists 2; reflexivity).
  assert (Hmem : forall bytes, fst (example_posix_memalign 64 bytes) = 0 ->
                               (64 | snd (example_posix_memalign 64 bytes)))
    by (intros bytes _; exists 4096; reflexivity).
  assert (Hint6 : - 2 ^ 31 + 5 <= 6 < 2 ^ 31) by lia.
  assert (Hint38 : - 2 ^ 31 + 5 <= 38 < 2 ^ 31) by lia.
  pose proof (Init_spec 64 example_posix_memalign new_BlockBloomFilter 6
                Hint6 Hline Hmem)
    as (_ & _ & _ & _ & Hok).
  pose proof (Init_spec 64 example_posix_memalign example_filter 38
                Hint38 Hline Hmem)
    as (_ & Hinv & Hkeep & _).
  destruct Hok as (Hst & Hinit & _); [vm_compute; discriminate | reflexivity |].
  split; [|split; [|split; [|split]]].
  - exact Hst.
  - exact Hinit.
  - reflexivity.
  - apply Hinv. reflexivity.
  - apply Hkeep. reflexivity.
Defined.

(** C5 as first stated fails on a filter that is initialized again: the
    second [Init] returns InvalidArgument and the directory of the first
    one is still allocated. *)
Lemma Init_invalid_keeps_directory :
  fst (Init example_allocator example_filter 38) = InvalidArgument
  /\ exists d, directory_ (snd (Init example_allocator example_filter 38)) = Some d
       /\ dir_bytes d = 64.
Proof. split; [reflexivity|]. eexists. split; reflexivity. Qed.

(** ** More about Init, Insert and Find *)

Section More.

Variable kRehash : nat -> Z.
Variable Rehash32to32 : Z -> Z.
Variable CACHELINE_SIZE : Z.
Variable posix_memalign : Z -> Z -> Z * Z.

(** The directory after [BucketInsert(idx, hash)]: the bucket at [idx] is
    or-ed with the eight lane words of [hash]. *)
Definition or_into (d : list Bucket) (hash : Z) (idx : nat) : list Bucket :=
  match d !! idx with
  | Some b => <[idx := zip_with Z.lor b (new_bucket_of kRehash hash)]> d
  | None => d
  end.

(** The filter after an insert that leaves [bs] in the directory [d]. *)
Definition with_buckets (f : BlockBloomFilter) (d : Directory)
    (bs : list Bucket) : BlockBloomFilter :=
  {| always_false_ := false;
     log_num_buckets_ := log_num_buckets_ f;
     directory_mask_ := directory_mask_ f;
     directory_ := Some {| dir_addr := dir_addr d; dir_bytes := dir_bytes d;
                           dir_buckets := bs |} |}.

(** Bit [k] of word [i] of bucket [bk]. *)
Definition bit_at (d : list Bucket) (bk i : nat) (k : Z) : bool :=
  match d !! bk with
  | Some b => match b !! i with Some w => Z.testbit w k | None => false end
  | None => false
  end.

Lemma Insert_unfold f h :
  initialized f = true ->
  exists d, directory_ f = Some d
    /\ Insert kRehash Rehash32to32 f h
       = Some (with_buckets f d
                 (or_into (dir_buckets d) h
                          (Z.to_nat (bucket_index Rehash32to32 f h)))).
Proof.
  intros Hi.
  destruct (initialized_inv f Hi) as (d & Hd & _ & _ & _ & Hall).
  pose proof (bucket_index_lt Rehash32to32 f h d Hi Hd) as Hlt.
  destruct (lookup_lt_is_Some_2 _ _ Hlt) as [b Hb].
  assert (Hlen : length b = kBucketWords).
  { eapply Forall_lookup_1 in Hall; [exact Hall | exact Hb]. }
  exists d. split; [exact Hd|].
  unfold Insert. rewrite Hd. cbn [mbind option_bind].
  rewrite (BucketInsert_some kRehash _ _ _ b Hb Hlen). cbn [mbind option_bind].
  unfold with_buckets, or_into. by rewrite Hb.
Qed.

Lemma zip_lor_swap (b x y : Bucket) :
  zip_with Z.lor (zip_with Z.lor b x) y = zip_with Z.lor (zip_with Z.lor b y) x.
Proof.
  revert x y. induction b as [|w b IH]; intros [|n x] [|m y]; cbn; try done.
  rewrite IH. f_equal.
  rewrite <- !Z.lor_assoc. f_equal. apply Z.lor_comm.
Qed.

Lemma zip_lor_twice (b x : Bucket) :
  zip_with Z.lor (zip_with Z.lor b x) x = zip_with Z.lor b x.
Proof.
  revert x. induction b as [|w b IH]; intros [|n x]; cbn; try done.
  rewrite IH. f_equal. by rewrite <- Z.lor_assoc, Z.lor_diag.
Qed.

Lemma or_into_length d h idx : length (or_into d h idx) = length d.
Proof. unfold or_into. destruct (d !! idx); [apply length_insert | done]. Qed.

Lemma or_into_swap d a b ia ib :
  or_into (or_into d a ia) b ib = or_into (or_into d b ib) a ia.
Proof.
  unfold or_into.
  destruct (decide (ia = ib)) as [->|Hne].
  - destruct (d !! ib) as [bk|] eqn:Hbk; [|by rewrite Hbk].
    assert (Hlt : (ib < length d)%nat) by (by apply lookup_lt_Some in Hbk).
    rewrite !list_lookup_insert_eq by exact Hlt.
    rewrite !list_insert_insert_eq. by rewrite zip_lor_swap.
  - destruct (d !! ia) as [x|] eqn:Hx, (d !! ib) as [y|] eqn:Hy;
      rewrite ?list_lookup_insert_ne by congruence;
      rewrite ?Hx, ?Hy; try done.
    symmetry; by apply list_insert_insert_ne.
Qed.

Lemma or_into_twice d h idx : or_into (or_into d h idx) h idx = or_into d h idx.
Proof.
  unfold or_into. destruct (d !! idx) as [bk|] eqn:Hbk; [|by rewrite Hbk].
  assert (Hlt : (idx < length d)%nat) by (by apply lookup_lt_Some in Hbk).
  rewrite list_lookup_insert_eq by exact Hlt.
  by rewrite list_insert_insert_eq, zip_lor_twice.
Qed.

Lemma with_buckets_initialized f d bs :
  initialized f = true -> directory_ f = Some d ->
  length bs = length (dir_buckets d) ->
  Forall (fun b => length b = kBucketWords) bs ->
  initialized (with_buckets f d bs) = true.
Proof.
  intros Hi Hd Hlen Hall.
  destruct (initialized_inv f Hi) as (d' & Hd' & Hlog & Hmask & Hl & _).
  assert (d' = d) as -> by congruence.
  unfold initialized, with_buckets.
  cbn [directory_ log_num_buckets_ directory_mask_ dir_buckets].
  rewrite Hlen, !andb_true_iff, !Z.leb_le, !Z.eqb_eq.
  split; [lia|]. apply forallb_forall. intros b Hb.
  apply Nat.eqb_eq. rewrite Forall_forall in Hall. by apply Hall, list_elem_of_In.
Qed.

Lemma or_into_words d h idx :
  Forall (fun b => length b = kBucketWords) d ->
  Forall (fun b => length b = kBucketWords) (or_into d h idx).
Proof.
  intros Hall. unfold or_into. destruct (d !! idx) as [bk|] eqn:Hbk; [|done].
  apply Forall_insert; [done|].
  rewrite length_zip_with.
  eapply Forall_lookup_1 in Hall; [|exact Hbk]. rewrite Hall. reflexivity.
Qed.

(** The directory after a sequence of inserts into the filter [f]. *)
Definition or_all (f : BlockBloomFilter) (d : list Bucket) (hashes : list Z)
  : list Bucket :=
  foldl (fun d h => or_into d h (Z.to_nat (bucket_index Rehash32to32 f h)))
        d hashes.

Lemma or_all_cons f d h hs :
  or_all f d (h :: hs)
  = or_all f (or_into d h (Z.to_nat (bucket_index Rehash32to32 f h))) hs.
Proof. reflexivity. Qed.

Lemma or_all_length f d hs : length (or_all f d hs) = length d.
Proof.
  revert d. induction hs as [|h hs IH]; intros d; [done|].
  by rewrite or_all_cons, IH, or_into_length.
Qed.

Lemma or_all_words f d hs :
  Forall (fun b => length b = kBucketWords) d ->
  Forall (fun b => length b = kBucketWords) (or_all f d hs).
Proof.
  revert d. induction hs as [|h hs IH]; intros d Hall; [done|].
  rewrite or_all_cons. by apply IH, or_into_words.
Qed.

Lemma or_all_permutation f d hs hs' :
  Permutation hs hs' -> or_all f d hs = or_all f d hs'.
Proof.
  intros Hp. revert d.
  induction Hp as [|x l l' _ IH|x y l|l l' l'' _ IH1 _ IH2]; intros d.
  - reflexivity.
  - rewrite !or_all_cons. apply IH.
  - rewrite !or_all_cons. by rewrite or_into_swap.
  - by rewrite IH1.
Qed.

Lemma or_all_snoc f d hs h :
  or_all f d (hs ++ [h])
  = or_into (or_all f d hs) h (Z.to_nat (bucket_index Rehash32to32 f h)).
Proof. unfold or_all. by rewrite foldl_app. Qed.

(** A non-empty sequence of inserts, written out. *)
Lemma Inserts_unfold f h hs :
  initialized f = true ->
  exists d, directory_ f = Some d
    /\ Inserts kRehash Rehash32to32 f (h :: hs)
       = Some (with_buckets f d (or_all f (dir_buckets d) (h :: hs))).
Proof.
  revert f h. induction hs as [|h2 hs IH]; intros f h Hi.
  - destruct (Insert_unfold f h Hi) as (d & Hd & Hins).
    exists d. split; [exact Hd|].
    cbn [Inserts]. rewrite Hins. reflexivity.
  - destruct (Insert_unfold f h Hi) as (d & Hd & Hins).
    destruct (initialized_inv f Hi) as (d' & Hd' & _ & _ & _ & Hall).
    assert (d' = d) as -> by congruence.
    exists d. split; [exact Hd|].
    change (Inserts kRehash Rehash32to32 f (h :: h2 :: hs))
      with (Insert kRehash Rehash32to32 f h
              ≫= fun f1 => Inserts kRehash Rehash32to32 f1 (h2 :: hs)).
    rewrite Hins. cbn [mbind option_bind].
    set (f1 := with_buckets f d _).
    assert (Hi1 : initialized f1 = true).
    { apply with_buckets_initialized; auto using or_into_length, or_into_words. }
    destruct (IH f1 h2 Hi1) as (d1 & Hd1 & Hrest).
    rewrite Hrest. f_equal.
    subst f1. cbn [with_buckets directory_] in Hd1. injection Hd1 as <-.
    reflexivity.
Qed.

(** *** Bits of the directory *)

Lemma lane_word_testbit i hash k :
  Z.testbit (lane_word kRehash i hash) k = (lane_bit kRehash i hash =? k).
Proof.
  pose proof (lane_bit_range kRehash i hash) as Hr.
  unfold lane_word, u32. rewrite Z.mod_small.
  - rewrite Z.shiftl_1_l. apply Z.pow2_bits_eqb. lia.
  - rewrite Z.shiftl_1_l. split; [apply Z.pow_nonneg; lia|].
    apply Z.pow_lt_mono_r; lia.
Qed.

Lemma new_bucket_lookup h i :
  (i < kBucketWords)%nat ->
  new_bucket_of kRehash h !! i = Some (lane_word kRehash i h).
Proof.
  intros Hi. unfold new_bucket_of. rewrite list_lookup_fmap.
  by rewrite lookup_seq_lt.
Qed.

Lemma or_into_bit_at d h idx bk i k :
  (bk < length d)%nat ->
  Forall (fun b => length b = kBucketWords) d ->
  (i < kBucketWords)%nat ->
  bit_at (or_into d h idx) bk i k
  = bit_at d bk i k || (Nat.eqb idx bk && (lane_bit kRehash i h =? k)).
Proof.
  intros Hbk Hall Hi. unfold or_into, bit_at.
  destruct (lookup_lt_is_Some_2 _ _ Hbk) as [b Hb].
  assert (Hlen : length b = kBucketWords).
  { eapply Forall_lookup_1 in Hall; [exact Hall | exact Hb]. }
  assert (Hil : (i < length b)%nat) by (by rewrite Hlen).
  destruct (lookup_lt_is_Some_2 b i Hil) as [w Hw].
  destruct (Nat.eqb_spec idx bk) as [->|Hne].
  - rewrite Hb, list_lookup_insert_eq by exact Hbk.
    rewrite lookup_zip_with, Hw. cbn [mbind option_bind].
    rewrite new_bucket_lookup by exact Hi. cbn [mbind option_bind].
    by rewrite Z.lor_spec, lane_word_testbit.
  - destruct (d !! idx); rewrite ?list_lookup_insert_ne by exact Hne;
      rewrite Hb, Hw; by rewrite orb_false_r.
Qed.

Lemma or_all_bit_at f d hs bk i k :
  (bk < length d)%nat ->
  Forall (fun b => length b = kBucketWords) d ->
  (i < kBucketWords)%nat ->
  bit_at (or_all f d hs) bk i k
  = bit_at d bk i k
    || existsb (fun h => Nat.eqb (Z.to_nat (bucket_index Rehash32to32 f h)) bk
                         && (lane_bit kRehash i h =? k)) hs.
Proof.
  intros Hbk Hall Hi. revert d Hbk Hall.
  induction hs as [|h hs IH]; intros d Hbk Hall.
  - cbn. by rewrite orb_false_r.
  - rewrite or_all_cons. cbn [existsb].
    rewrite IH by (rewrite ?or_into_length; auto using or_into_words).
    rewrite or_into_bit_at by done. by rewrite orb_assoc.
Qed.

Lemma bucket_index_nonneg f hash :
  initialized f = true -> 0 <= bucket_index Rehash32to32 f hash.
Proof.
  intros Hi. destruct (initialized_inv f Hi) as (d & _ & Hlog & Hmask & _).
  unfold bucket_index. rewrite Hmask.
  change (2 ^ log_num_buckets_ f - 1) with (Z.pred (2 ^ log_num_buckets_ f)).
  rewrite <- Z.ones_equiv, Z.land_ones by lia.
  apply Z.mod_pos_bound, Z.pow_pos_nonneg; lia.
Qed.

Lemma lane_set_bit_at f d g i :
  directory_ f = Some d ->
  lane_set kRehash Rehash32to32 f g i
  = bit_at (dir_buckets d) (Z.to_nat (bucket_index Rehash32to32 f g)) i
           (lane_bit kRehash i g).
Proof. intros Hd. unfold lane_set, bit_at. by rewrite Hd. Qed.

Lemma forallb_eq_on {A} (p q : A -> bool) (l : list A) :
  (forall x, In x l -> p x = q x) -> forallb p l = forallb q l.
Proof.
  induction l as [|x l IH]; intros Hpq; [reflexivity|].
  cbn [forallb]. rewrite (Hpq x) by (by left).
  rewrite IH; [reflexivity|]. intros y Hy. apply Hpq. by right.
Qed.

(** [Find] after a non-empty sequence of inserts: lane by lane, the bit was
    there before or one of the inserted hashes set it. *)
Lemma Find_Inserts f h hs g :
  initialized f = true ->
  exists f', Inserts kRehash Rehash32to32 f (h :: hs) = Some f'
    /\ Find kRehash Rehash32to32 f' g
       = Some (forallb (fun i =>
                 lane_set kRehash Rehash32to32 f g i
                 || existsb (fun x =>
                      Nat.eqb (Z.to_nat (bucket_index Rehash32to32 f x))
                              (Z.to_nat (bucket_index Rehash32to32 f g))
                      && (lane_bit kRehash i x =? lane_bit kRehash i g))
                    (h :: hs))
               (seq 0 kBucketWords)).
Proof.
  intros Hi.
  destruct (Inserts_unfold f h hs Hi) as (d & Hd & Hins).
  destruct (initialized_inv f Hi) as (d' & Hd' & _ & _ & _ & Hall).
  assert (d' = d) as -> by congruence.
  eexists. split; [exact Hins|].
  set (f' := with_buckets f d _).
  assert (Hi' : initialized f' = true).
  { apply with_buckets_initialized; auto using or_all_length, or_all_words. }
  rewrite Find_initialized by done. f_equal.
  pose proof (bucket_index_lt Rehash32to32 f g d Hi Hd) as Hlt.
  apply forallb_eq_on. intros j Hj. apply in_seq in Hj.
  rewrite (lane_set_bit_at f' _ g j eq_refl).
  rewrite (lane_set_bit_at f d g j Hd).
  subst f'. cbn [dir_buckets].
  change (bucket_index Rehash32to32 (with_buckets f d _) g)
    with (bucket_index Rehash32to32 f g).
  apply or_all_bit_at; [done | done | lia].
Qed.

Lemma zip_lor_absorb (b : Bucket) h :
  length b = kBucketWords ->
  (forall i w, b !! i = Some w ->
               Z.testbit w (lane_bit kRehash i h) = true) ->
  zip_with Z.lor b (new_bucket_of kRehash h) = b.
Proof.
  intros Hlen Hbits. apply list_eq. intros i.
  rewrite lookup_zip_with.
  destruct (b !! i) as [w|] eqn:Hw; [|reflexivity].
  assert (Hi : (i < kBucketWords)%nat).
  { rewrite <- Hlen. by apply lookup_lt_Some in Hw. }
  cbn [mbind option_bind]. rewrite new_bucket_lookup by exact Hi.
  cbn [mbind option_bind]. f_equal.
  apply Z.bits_inj'. intros k _.
  rewrite Z.lor_spec, lane_word_testbit.
  destruct (Z.eqb_spec (lane_bit kRehash i h) k) as [<-|_].
  - rewrite (Hbits i w Hw). reflexivity.
  - apply orb_false_r.
Qed.

Lemma Init_OK f log_space_bytes :
  let alloc := DefaultBlockBloomFilterBufferAllocator CACHELINE_SIZE
                 posix_memalign in
  fst (Init alloc f log_space_bytes) = OK ->
  let f' := snd (Init alloc f log_space_bytes) in
  let n := Z.max 1 (log_space_bytes - 5) in
  n <= 32
  /\ initialized f' = true
  /\ always_false_ f' = always_false_ f
  /\ log_num_buckets_ f' = n
  /\ exists ptr,
      directory_ f'
      = Some {| dir_addr := ptr; dir_bytes := 2 ^ n * 32;
                dir_buckets := replicate (Z.to_nat (2 ^ n))
                                 (replicate kBucketWords 0) |}.
Proof.
  intros alloc Hok f' n. subst f'. revert Hok.
  assert (Hn1 : 1 <= n) by (subst n; lia).
  unfold Init. cbn [log_num_buckets_ always_false_ directory_ directory_mask_].
  change kLogBucketByteSize with 5. fold n.
  destruct (Z.ltb_spec 32 n) as [Hbig|Hle]; [discriminate|].
  match goal with |- context [directory_size ?x] => set (f2 := x) end.
  assert (Hsz : directory_size f2 = 2 ^ n * 32)
    by (rewrite directory_size_eq; subst f2; cbn [log_num_buckets_]; [done | lia]).
  rewrite Hsz.
  assert (Hlog3 : log_num_buckets_ (Close f2) = n)
    by (unfold Close; destruct (directory_ f2); reflexivity).
  assert (Hmask3 : directory_mask_ (Close f2) = 2 ^ n - 1).
  { unfold Close. destruct (directory_ f2); subst f2;
      cbn [directory_mask_]; apply mask_u32; lia. }
  assert (Haf3 : always_false_ (Close f2) = always_false_ f)
    by (unfold Close; destruct (directory_ f2); reflexivity).
  unfold alloc, DefaultBlockBloomFilterBufferAllocator.
  cbn [AllocateBuffer]. unfold DefaultAllocateBuffer.
  destruct (posix_memalign CACHELINE_SIZE (2 ^ n * 32)) as [ret_code ptr].
  destruct (Z.eqb_spec ret_code 0) as [->|Hret]; [|discriminate].
  intros _. cbn [fst snd log_num_buckets_ directory_ always_false_].
  rewrite zeroed_buckets by lia.
  split; [exact Hle|]. split; [|split; [exact Haf3|split; [exact Hlog3|]]].
  - unfold initialized.
    cbn [directory_ log_num_buckets_ directory_mask_ dir_buckets].
    rewrite Hlog3, Hmask3, length_replicate.
    assert (0 < 2 ^ n) by (apply Z.pow_pos_nonneg; lia).
    rewrite !andb_true_iff, !Z.leb_le, !Z.eqb_eq.
    split; [lia|].
    apply forallb_forall. intros b Hb.
    apply list_elem_of_In, elem_of_replicate in Hb. destruct Hb as [-> _].
    reflexivity.
  - by exists ptr.
Qed.

Lemma lane_set_zeroed f n ptr g i :
  directory_ f
  = Some {| dir_addr := ptr; dir_bytes := 2 ^ n * 32;
            dir_buckets := replicate (Z.to_nat (2 ^ n))
                             (replicate kBucketWords 0) |} ->
  lane_set kRehash Rehash32to32 f g i = false.
Proof.
  intros Hd. rewrite (lane_set_bit_at f _ g i Hd). unfold bit_at.
  cbn [dir_buckets].
  destruct (replicate _ _ !! _) as [b|] eqn:Hb; [|reflexivity].
  apply lookup_replicate in Hb as [-> _].
  destruct (replicate _ _ !! _) as [w|] eqn:Hw; [|reflexivity].
  apply lookup_replicate in Hw as [-> _]. apply Z.bits_0.
Qed.

Lemma Find_zeroed f n ptr g :
  initialized f = true ->
  directory_ f
  = Some {| dir_addr := ptr; dir_bytes := 2 ^ n * 32;
            dir_buckets := replicate (Z.to_nat (2 ^ n))
                             (replicate kBucketWords 0) |} ->
  Find kRehash Rehash32to32 f g = Some false.
Proof.
  intros Hi Hd. destruct (always_false_ f) eqn:Haf.
  - unfold Find. by rewrite Haf.
  - rewrite Find_initialized by done. f_equal.
    change (seq 0 kBucketWords) with (0%nat :: seq 1 7). cbn [forallb].
    by rewrite (lane_set_zeroed f _ ptr g 0%nat Hd).
Qed.

(** *** Words stay 32 bits wide *)

Definition u32_words (d : list Bucket) : Prop :=
  Forall (Forall (fun w => 0 <= w < 2 ^ 32)) d.

Lemma log2_u32 a : 0 <= a < 2 ^ 32 -> Z.log2 a < 32.
Proof.
  intros Ha. destruct (Z.eq_dec a 0) as [->|Hnz]; [reflexivity|].
  apply Z.log2_lt_pow2; lia.
Qed.

Lemma lor_u32 a b :
  0 <= a < 2 ^ 32 -> 0 <= b < 2 ^ 32 -> 0 <= Z.lor a b < 2 ^ 32.
Proof.
  intros Ha Hb.
  assert (Hnn : 0 <= Z.lor a b) by (apply Z.lor_nonneg; lia).
  split; [exact Hnn|].
  destruct (Z.eq_dec (Z.lor a b) 0) as [->|Hnz]; [reflexivity|].
  apply Z.log2_lt_pow2; [lia|].
  rewrite Z.log2_lor by lia.
  pose proof (log2_u32 a Ha). pose proof (log2_u32 b Hb). lia.
Qed.

Lemma zip_lor_u32 (b n : Bucket) :
  Forall (fun w => 0 <= w < 2 ^ 32) b ->
  Forall (fun w => 0 <= w < 2 ^ 32) n ->
  Forall (fun w => 0 <= w < 2 ^ 32) (zip_with Z.lor b n).
Proof.
  intros Hb. revert n. induction Hb as [|w b Hw _ IH]; intros n Hn; [constructor|].
  destruct Hn as [|x n Hx Hn]; [constructor|].
  cbn [zip_with]. constructor; [by apply lor_u32 | by apply IH].
Qed.

Lemma new_bucket_u32 h :
  Forall (fun w => 0 <= w < 2 ^ 32) (new_bucket_of kRehash h).
Proof.
  unfold new_bucket_of. apply Forall_forall. intros w Hw.
  apply list_elem_of_In, in_map_iff in Hw as (i & <- & _).
  unfold lane_word. apply u32_range.
Qed.

Lemma or_into_u32 d h idx : u32_words d -> u32_words (or_into d h idx).
Proof.
  intros Hd. unfold or_into. destruct (d !! idx) as [b|] eqn:Hb; [|exact Hd].
  apply Forall_insert; [exact Hd|].
  apply zip_lor_u32; [|apply new_bucket_u32].
  by apply (Forall_lookup_1 _ _ _ _ Hd Hb).
Qed.

Lemma or_all_u32 f d hs : u32_words d -> u32_words (or_all f d hs).
Proof.
  revert d. induction hs as [|h hs IH]; intros d Hd; [exact Hd|].
  rewrite or_all_cons. by apply IH, or_into_u32.
Qed.

Lemma lane_word_pow i hash :
  lane_word kRehash i hash = 2 ^ lane_bit kRehash i hash.
Proof.
  pose proof (lane_bit_range kRehash i hash) as Hr.
  unfold lane_word, u32. rewrite Z.shiftl_1_l. apply Z.mod_small.
  split; [apply Z.pow_nonneg; lia|]. apply Z.pow_lt_mono_r; lia.
Qed.

(** X1. On an initialized filter [Insert] is defined for every hash: the
    bucket index is inside the directory.  It keeps the filter initialized
    and leaves the address and size of the directory, the number of
    buckets, [log_num_buckets_] and the mask as they were.  Only the bucket
    selected by the hash is written: every other bucket is unchanged, and
    in the selected one each of the eight words is or-ed with a single bit
    whose position is below 32. *)
Theorem Insert_frame (f : BlockBloomFilter) (h : Z) :
  initialized f = true ->
  let idx := Z.to_nat (bucket_index Rehash32to32 f h) in
  exists f' d d',
    Insert kRehash Rehash32to32 f h = Some f'
    /\ initialized f' = true
    /\ directory_ f = Some d /\ directory_ f' = Some d'
    /\ dir_addr d' = dir_addr d /\ dir_bytes d' = dir_bytes d
    /\ length (dir_buckets d') = length (dir_buckets d)
    /\ log_num_buckets_ f' = log_num_buckets_ f
    /\ directory_mask_ f' = directory_mask_ f
    /\ (idx < length (dir_buckets d))%nat
    /\ (forall j, j <> idx -> dir_buckets d' !! j = dir_buckets d !! j)
    /\ (forall b i w,
          dir_buckets d !! idx = Some b -> b !! i = Some w ->
          0 <= lane_bit kRehash i h < 32
          /\ exists b', dir_buckets d' !! idx = Some b'
               /\ b' !! i = Some (Z.lor w (2 ^ lane_bit kRehash i h))).
Proof.
  intros Hi idx.
  destruct (Insert_unfold f h Hi) as (d & Hd & Hins).
  destruct (initialized_inv f Hi) as (d0 & Hd0 & _ & _ & _ & Hall).
  assert (d0 = d) as -> by congruence.
  pose proof (bucket_index_lt Rehash32to32 f h d Hi Hd) as Hlt.
  fold idx in Hins, Hlt.
  eexists _, d, _. split; [exact Hins|].
  split.
  { apply with_buckets_initialized; auto using or_into_length, or_into_words. }
  split; [exact Hd|]. split; [reflexivity|].
  cbn [dir_addr dir_bytes dir_buckets with_buckets log_num_buckets_
       directory_mask_].
  split; [reflexivity|]. split; [reflexivity|].
  split; [apply or_into_length|].
  split; [reflexivity|]. split; [reflexivity|]. split; [exact Hlt|].
  split.
  - intros j Hj. unfold or_into.
    destruct (dir_buckets d !! idx); [|reflexivity].
    by rewrite list_lookup_insert_ne.
  - intros b i w Hb Hw. split; [apply lane_bit_range|].
    unfold or_into. rewrite Hb.
    rewrite list_lookup_insert_eq by exact Hlt.
    eexists. split; [reflexivity|].
    assert (Hlen : length b = kBucketWords).
    { eapply Forall_lookup_1 in Hall; [exact Hall | exact Hb]. }
    assert (Hil : (i < kBucketWords)%nat).
    { rewrite <- Hlen. by apply lookup_lt_Some in Hw. }
    rewrite lookup_zip_with, Hw. cbn [mbind option_bind].
    rewrite new_bucket_lookup by exact Hil. cbn [mbind option_bind].
    by rewrite lane_word_pow.
Qed.

(** X2. On an initialized filter, inserting a hash leaves the whole filter
    state as it is exactly when [Find] already answers true for that hash
    (because it was inserted before, or as a false positive). *)
Theorem Insert_noop_iff_found (f : BlockBloomFilter) (h : Z) :
  initialized f = true ->
  Insert kRehash Rehash32to32 f h = Some f
  <-> Find kRehash Rehash32to32 f h = Some true.
Proof.
  intros Hi. split.
  - intros Hins.
    destruct (Insert_initialized kRehash Rehash32to32 f h Hi)
      as (f' & Hins' & _ & Haf & _ & _ & _ & Hset).
    assert (f' = f) as -> by congruence.
    rewrite Find_initialized by done. by rewrite Hset.
  - intros Hfind.
    assert (Haf : always_false_ f = false).
    { unfold Find in Hfind. by destruct (always_false_ f). }
    rewrite Find_initialized in Hfind by done.
    assert (Hset : forallb (lane_set kRehash Rehash32to32 f h)
                     (seq 0 kBucketWords) = true) by congruence.
    rewrite forallb_forall in Hset.
    destruct (Insert_unfold f h Hi) as (d & Hd & Hins).
    destruct (initialized_inv f Hi) as (d0 & Hd0 & _ & _ & _ & Hall).
    assert (d0 = d) as -> by congruence.
    rewrite Hins. f_equal.
    pose proof (bucket_index_lt Rehash32to32 f h d Hi Hd) as Hlt.
    destruct (lookup_lt_is_Some_2 _ _ Hlt) as [b Hb].
    assert (Hlen : length b = kBucketWords).
    { eapply Forall_lookup_1 in Hall; [exact Hall | exact Hb]. }
    unfold or_into. rewrite Hb.
    rewrite zip_lor_absorb; [|exact Hlen|].
    + rewrite list_insert_id by exact Hb.
      destruct f as [af lg mk dr], d as [addr bytes bs].
      cbn in Haf, Hd. subst af dr. reflexivity.
    + intros i w Hw.
      assert (Hil : (i < kBucketWords)%nat).
      { rewrite <- Hlen. by apply lookup_lt_Some in Hw. }
      specialize (Hset i). unfold lane_set in Hset.
      rewrite Hd, Hb, Hw in Hset. apply Hset, in_seq. lia.
Qed.

(** X3. The order of the inserts does not matter: on an initialized filter
    two sequences of hashes that are permutations of each other are both
    inserted without fault and leave the same filter state. *)
Theorem Inserts_permutation (f : BlockBloomFilter) (hs hs' : list Z) :
  initialized f = true ->
  Permutation hs hs' ->
  exists f', Inserts kRehash Rehash32to32 f hs = Some f'
    /\ Inserts kRehash Rehash32to32 f hs' = Some f'.
Proof.
  intros Hi Hp. destruct hs as [|h hs].
  - apply Permutation_nil in Hp as ->. by exists f.
  - destruct hs' as [|h' hs'].
    { symmetry in Hp. by apply Permutation_nil in Hp. }
    destruct (Inserts_unfold f h hs Hi) as (d & Hd & Hins).
    destruct (Inserts_unfold f h' hs' Hi) as (d' & Hd' & Hins').
    assert (d' = d) as -> by congruence.
    eexists. split; [exact Hins|].
    rewrite Hins'. by rewrite (or_all_permutation f _ _ _ Hp).
Qed.

(** X4. [Init] with the default allocator empties the filter: when it
    returns OK, [Find] answers false for every hash, whatever the filter
    held before; this does not depend on [always_false_], which [Init]
    leaves as it was. *)
Theorem Init_empties (f : BlockBloomFilter) (log_space_bytes : Z) (g : Z) :
  let alloc := DefaultBlockBloomFilterBufferAllocator CACHELINE_SIZE
                 posix_memalign in
  fst (Init alloc f log_space_bytes) = OK ->
  always_false_ (snd (Init alloc f log_space_bytes)) = always_false_ f
  /\ Find kRehash Rehash32to32 (snd (Init alloc f log_space_bytes)) g
     = Some false.
Proof.
  intros alloc Hok.
  destruct (Init_OK f log_space_bytes Hok)
    as (_ & Hi & Haf & _ & ptr & Hd).
  fold alloc in Hi, Haf, Hd. split; [exact Haf|].
  exact (Find_zeroed _ _ ptr g Hi Hd).
Qed.

(** X5. What [Find] answers after [Init] and a sequence of inserts: once
    [Init] (default allocator) has returned OK, every sequence of inserts is
    defined, and afterwards [Find g] is true exactly when, for each of the
    eight lanes, some inserted hash falls into the bucket of [g] and sets
    the same bit in that lane as [g] does. *)
Theorem Find_after_Init_Inserts (f : BlockBloomFilter) (log_space_bytes : Z)
    (hs : list Z) (g : Z) :
  let alloc := DefaultBlockBloomFilterBufferAllocator CACHELINE_SIZE
                 posix_memalign in
  let f0 := snd (Init alloc f log_space_bytes) in
  fst (Init alloc f log_space_bytes) = OK ->
  exists f' b,
    Inserts kRehash Rehash32to32 f0 hs = Some f'
    /\ Find kRehash Rehash32to32 f' g = Some b
    /\ (b = true <->
        forall i, (i < kBucketWords)%nat ->
          exists h, In h hs
            /\ bucket_index Rehash32to32 f0 h = bucket_index Rehash32to32 f0 g
            /\ lane_bit kRehash i h = lane_bit kRehash i g).
Proof.
  intros alloc f0 Hok.
  destruct (Init_OK f log_space_bytes Hok) as (_ & Hi & _ & _ & ptr & Hd).
  fold alloc in Hi, Hd. fold f0 in Hi, Hd.
  destruct hs as [|h hs].
  - exists f0, false. split; [reflexivity|]. split.
    + exact (Find_zeroed _ _ ptr g Hi Hd).
    + split; [discriminate|]. intros Hall.
      destruct (Hall 0%nat) as (h & [] & _). unfold kBucketWords. lia.
  - destruct (Find_Inserts f0 h hs g Hi) as (f' & Hins & Hfind).
    eexists f', _. split; [exact Hins|]. split; [exact Hfind|].
    rewrite forallb_forall. split.
    + intros Hall i Hlt.
      specialize (Hall i). rewrite (lane_set_zeroed f0 _ ptr g i Hd) in Hall.
      cbn [orb] in Hall.
      destruct (proj1 (existsb_exists _ _) (Hall ltac:(apply in_seq; lia)))
        as (x & Hx & Hb).
      apply andb_true_iff in Hb as [Hb1 Hb2].
      apply Nat.eqb_eq in Hb1. apply Z.eqb_eq in Hb2.
      exists x. split; [exact Hx|]. split; [|exact Hb2].
      pose proof (bucket_index_nonneg f0 x Hi).
      pose proof (bucket_index_nonneg f0 g Hi). lia.
    + intros Hall i Hlt. apply in_seq in Hlt.
      destruct (Hall i ltac:(lia)) as (x & Hx & Hb1 & Hb2).
      rewrite (lane_set_zeroed f0 _ ptr g i Hd). cbn [orb].
      apply existsb_exists. exists x. split; [exact Hx|].
      rewrite Hb1, Hb2, Nat.eqb_refl, Z.eqb_refl. reflexivity.
Qed.

(** X19. The directory keeps its shape: after [Init] (default allocator)
    has returned OK and after any sequence of inserts, the directory still
    has the [2^max(6, log_space_bytes)] bytes that [Init] allocated, it
    holds one bucket of eight words for every 32 of them, and every word
    is below [2^32]. *)
Theorem directory_keeps_shape (f : BlockBloomFilter) (log_space_bytes : Z)
    (hs : list Z) (f' : BlockBloomFilter) (d : Directory) :
  let alloc := DefaultBlockBloomFilterBufferAllocator CACHELINE_SIZE
                 posix_memalign in
  let f0 := snd (Init alloc f log_space_bytes) in
  fst (Init alloc f log_space_bytes) = OK ->
  Inserts kRehash Rehash32to32 f0 hs = Some f' ->
  directory_ f' = Some d ->
  dir_bytes d = 2 ^ Z.max 6 log_space_bytes
  /\ Z.of_nat (length (dir_buckets d)) * 32 = dir_bytes d
  /\ Forall (fun b => length b = kBucketWords
                      /\ Forall (fun w => 0 <= w < 2 ^ 32) b)
            (dir_buckets d).
Proof.
  intros alloc f0 Hok Hins Hd.
  destruct (Init_OK f log_space_bytes Hok)
    as (Hle & Hi & _ & _ & ptr & Hd0).
  fold alloc in Hi, Hd0. fold f0 in Hi, Hd0.
  set (n := Z.max 1 (log_space_bytes - 5)) in *.
  assert (Hn : 1 <= n) by (subst n; lia).
  assert (Hpos : 0 < 2 ^ n) by (apply Z.pow_pos_nonneg; lia).
  assert (Hbytes : 2 ^ n * 32 = 2 ^ Z.max 6 log_space_bytes).
  { replace (Z.max 6 log_space_bytes) with (n + 5) by (subst n; lia).
    rewrite Z.pow_add_r by lia. reflexivity. }
  set (zeros := replicate (Z.to_nat (2 ^ n)) (replicate kBucketWords 0)) in *.
  assert (Hz32 : u32_words zeros).
  { apply Forall_forall. intros b Hb. apply elem_of_replicate in Hb as [-> _].
    apply Forall_forall. intros w Hw. apply elem_of_replicate in Hw as [-> _].
    split; [lia | reflexivity]. }
  assert (Hz8 : Forall (fun b : Bucket => length b = kBucketWords) zeros).
  { apply Forall_forall. intros b Hb. apply elem_of_replicate in Hb as [-> _].
    reflexivity. }
  assert (Hzl : Z.of_nat (length zeros) = 2 ^ n).
  { unfold zeros. rewrite length_replicate. lia. }
  assert (Hshape : forall bs,
            length bs = length zeros ->
            Forall (fun b : Bucket => length b = kBucketWords) bs ->
            u32_words bs ->
            Z.of_nat (length bs) * 32 = 2 ^ n * 32
            /\ Forall (fun b => length b = kBucketWords
                                /\ Forall (fun w => 0 <= w < 2 ^ 32) b) bs).
  { intros bs Hl H8 H32. split; [rewrite Hl; lia|].
    apply Forall_and. by split. }
  destruct hs as [|h hs].
  - injection Hins as <-. rewrite Hd0 in Hd. injection Hd as <-.
    cbn [dir_bytes dir_buckets]. split; [exact Hbytes|].
    by apply Hshape.
  - destruct (Inserts_unfold f0 h hs Hi) as (d0 & Hd0' & Hins').
    rewrite Hd0 in Hd0'. injection Hd0' as <-.
    rewrite Hins' in Hins. injection Hins as <-.
    cbn [with_buckets directory_] in Hd. injection Hd as <-.
    cbn [dir_bytes dir_buckets]. split; [exact Hbytes|].
    apply Hshape; [exact (or_all_length f0 zeros (h :: hs))
                   | exact (or_all_words f0 zeros (h :: hs) Hz8)
                   | exact (or_all_u32 f0 zeros (h :: hs) Hz32)].
Qed.

End More.

Lemma Insert_frame_witness :
  initialized example_filter = true
  /\ exists f', Insert example_kRehash example_Rehash32to32 example_filter 42
                = Some f'
       /\ initialized f' = true
       /\ directory_mask_ f' = directory_mask_ example_filter.
Proof.
  assert (Hi : initialized example_filter = true) by reflexivity.
  split; [exact Hi|].
  destruct (Insert_frame example_kRehash example_Rehash32to32
              example_filter 42 Hi)
    as (f' & d & d' & Hins & Hi' & _ & _ & _ & _ & _ & _ & Hmask & _).
  exists f'. auto.
Defined.

Lemma Insert_noop_iff_found_witness :
  initialized example_filter = true
  /\ (Insert example_kRehash example_Rehash32to32 example_filter 42
      = Some example_filter
      <-> Find example_kRehash example_Rehash32to32 example_filter 42
          = Some true).
Proof.
  assert (Hi : initialized example_filter = true) by reflexivity.
  split; [exact Hi|].
  exact (Insert_noop_iff_found example_kRehash example_Rehash32to32
           example_filter 42 Hi).
Defined.

Lemma Inserts_permutation_witness :
  initialized example_filter = true
  /\ Permutation [1; 2; 3] [3; 1; 2]
  /\ exists f',
      Inserts example_kRehash example_Rehash32to32 example_filter [1; 2; 3]
      = Some f'
      /\ Inserts example_kRehash example_Rehash32to32 example_filter [3; 1; 2]
         = Some f'.
Proof.
  assert (Hi : initialized example_filter = true) by reflexivity.
  assert (Hp : Permutation [1; 2; 3] [3; 1; 2])
    by exact (Permutation_sym (Permutation_cons_append [1; 2] 3)).
  split; [exact Hi|]. split; [exact Hp|].
  exact (Inserts_permutation example_kRehash example_Rehash32to32
           example_filter [1; 2; 3] [3; 1; 2] Hi Hp).
Defined.

Lemma Init_empties_witness :
  fst (Init example_allocator example_filter 7) = OK
  /\ Find example_kRehash example_Rehash32to32
       (snd (Init example_allocator example_filter 7)) 42 = Some false.
Proof.
  assert (Hok : fst (Init example_allocator example_filter 7) = OK)
    by reflexivity.
  split; [exact Hok|].
  exact (proj2 (Init_empties example_kRehash example_Rehash32to32 64
                  example_posix_memalign example_filter 7 42 Hok)).
Defined.

Lemma Find_after_Init_Inserts_witness :
  fst (Init example_allocator new_BlockBloomFilter 6) = OK
  /\ exists f' b,
      Inserts example_kRehash example_Rehash32to32 example_filter [42; 7]
      = Some f'
      /\ Find example_kRehash example_Rehash32to32 f' 42 = Some b.
Proof.
  assert (Hok : fst (Init example_allocator new_BlockBloomFilter 6) = OK)
    by reflexivity.
  split; [exact Hok|].
  destruct (Find_after_Init_Inserts example_kRehash example_Rehash32to32 64
              example_posix_memalign new_BlockBloomFilter 6 [42; 7] 42 Hok)
    as (f' & b & Hins & Hfind & _).
  exists f', b. split; [exact Hins | exact Hfind].
Defined.

Lemma directory_keeps_shape_witness :
  fst (Init example_allocator new_BlockBloomFilter 6) = OK
  /\ exists f' d,
      Inserts example_kRehash example_Rehash32to32 example_filter [42; 7]
      = Some f'
      /\ directory_ f' = Some d
      /\ dir_bytes d = 64.
Proof.
  assert (Hok : fst (Init example_allocator new_BlockBloomFilter 6) = OK)
    by reflexivity.
  split; [exact Hok|].
  assert (Hi : initialized example_filter = true) by reflexivity.
  destruct (Inserts_initialized example_kRehash example_Rehash32to32
              example_filter [42; 7] Hi) as (f' & Hins & Hi' & _).
  destruct (initialized_inv f' Hi') as (d & Hd & _).
  exists f', d. split; [exact Hins|]. split; [exact Hd|].
  exact (proj1 (directory_keeps_shape example_kRehash example_Rehash32to32 64
                  example_posix_memalign new_BlockBloomFilter 6 [42; 7] f' d
                  Hok Hins Hd)).
Defined.

End BlockBloom.

(** * ColumnPredicate ([src/kudu/common/column_predicate.h]) *)

(** A [Slice] is a run of bytes. *)
Abbreviation Slice := (list Byte.byte).

(** Modelled from the spec: the hash algorithms of [kudu/util/hash.pb.h]. *)
Inductive HashAlgorithm := CITY_HASH | FAST_HASH | MURMUR_HASH_2.

(** Modelled from the spec: the part of [ColumnSchema] ([kudu/common/schema.h])
    that predicates look at: the column name and its nullability. *)
Record ColumnSchema := {
  name : string;
  is_nullable : bool
}.

(** [enum class PredicateType] *)
Module PredicateType.
Inductive t := None | Equality | Range | IsNotNull | IsNull | InList | InBloomFilter.
End PredicateType.

(** [DataTypeTraits<PhysicalType>] ([kudu/common/types.h], not among the
    sources): the C++ type of a cell, its three-way [Compare], which is a
    total order whose zero is equality, and the bytes that
    [EvaluateCellForBloomFilter] hashes (the [sizeof(cpp_type)] bytes of the
    cell, or the bytes a BINARY cell points to).

    Modelled from the spec: [AreConsecutive lo up] recognises a range
    [[lo, up)] that "covers exactly one value". *)
Class DataTypeTraits (cpp_type : Type) := {
  Compare : cpp_type -> cpp_type -> Z;
  cell_slice : cpp_type -> Slice;
  AreConsecutive : cpp_type -> cpp_type -> bool;
  Compare_eq : forall a b, Compare a b = 0 <-> a = b;
  Compare_antisym : forall a b, Compare a b < 0 <-> 0 < Compare b a;
  Compare_trans : forall a b c, Compare a b < 0 -> Compare b c < 0 -> Compare a c < 0;
  AreConsecutive_spec : forall lo up, AreConsecutive lo up = true ->
    forall c, (0 <= Compare c lo /\ Compare c up < 0) <-> c = lo
}.

(** [std::lower_bound] and [std::binary_search] over a vector, with the
    comparison passed as [comp]: the search keeps a window of [len] elements
    from index [first] and halves it around its middle element (which is
    always inside the vector, see [lower_bound_spec]). *)
Equations? lower_bound {A} (comp : A -> A -> bool) (l : list A)
    (first len : nat) (value : A) : nat by wf len lt :=
  lower_bound comp l first 0 value := first;
  lower_bound comp l first (S n) value with l !! (first + S n / 2)%nat := {
    | Some m with comp m value := {
        | true := lower_bound comp l (first + S n / 2 + 1) (S n - S n / 2 - 1) value;
        | false := lower_bound comp l first (S n / 2) value };
    | None := first }.
Proof.
  all: assert (Hhalf : (S n / 2 < S n)%nat) by (apply Nat.div_lt; lia).
  all: change (S n / 2)%nat with (Nat.divmod n 1 0 0).1 in Hhalf; lia.
Qed.

Definition binary_search {A} (comp : A -> A -> bool) (l : list A) (value : A)
  : bool :=
  let i := lower_bound comp l 0 (length l) value in
  match l !! i with
  | Some x => negb (comp value x)
  | None => false                 (* [i == last] *)
  end.

Lemma lower_bound_spec {A} (comp : A -> A -> bool) (l : list A)
    (first len : nat) (value : A) :
  (first + len <= length l)%nat ->
  (forall j1 j2 x1 x2, (j1 <= j2)%nat -> l !! j1 = Some x1 -> l !! j2 = Some x2 ->
                       comp x2 value = true -> comp x1 value = true) ->
  (first <= lower_bound comp l first len value <= first + len)%nat
  /\ (forall j x, (first <= j < lower_bound comp l first len value)%nat ->
                  l !! j = Some x -> comp x value = true)
  /\ (forall j x, (lower_bound comp l first len value <= j < first + len)%nat ->
                  l !! j = Some x -> comp x value = false).
Proof.
  intros Hlen Hpart.
  funelim (lower_bound comp l first len value).
  - repeat split; intros; lia.
  - (* the middle is always inside the vector *)
    assert (Hhalf : (S n / 2 < S n)%nat) by (apply Nat.div_lt; lia).
    apply lookup_ge_None in Heq. lia.
  - (* the middle element is below [value]: continue to its right *)
    assert (Hhalf : (S n / 2 < S n)%nat) by (apply Nat.div_lt; lia).
    destruct H as (Hr & Hlo & Hhi); [lia | exact Hpart |].
    repeat split; try lia.
    + intros j x Hj Hx.
      destruct (le_lt_dec j (first + S n / 2)) as [Hle|Hgt].
      * eapply Hpart; [exact Hle | exact Hx | exact Heq0 | exact Heq].
      * apply (Hlo j x); [lia | exact Hx].
    + intros j x Hj Hx. apply (Hhi j x); [lia | exact Hx].
  - (* the middle element is not below [value]: continue to its left *)
    assert (Hhalf : (S n / 2 < S n)%nat) by (apply Nat.div_lt; lia).
    destruct H as (Hr & Hlo & Hhi); [lia | exact Hpart |].
    repeat split; try lia.
    + exact Hlo.
    + intros j x Hj Hx.
      destruct (le_lt_dec (first + S n / 2) j) as [Hge|Hlt].
      * destruct (comp x value) eqn:Hc; [|reflexivity].
        rewrite <- Heq. symmetry.
        eapply Hpart; [exact Hge | exact Heq0 | exact Hx | exact Hc].
      * apply (Hhi j x); [lia | exact Hx].
Qed.

Module Predicate.

(** ColumnPredicate::BloomFilterInner *)
Record BloomFilterInner := {
  bloom_data_ : Slice;
  nhash_ : N;
  hash_algorithm_ : HashAlgorithm
}.

Section ColumnPredicate.

Context {cpp_type : Type} `{Traits : DataTypeTraits cpp_type}.

(** [BloomKeyProbe] and [BloomFilter::MayContainKey] ([kudu/util/bloom_filter.h],
    not among the sources). *)
Context {BloomKeyProbe : Type}.
Variable new_BloomKeyProbe : Slice -> HashAlgorithm -> BloomKeyProbe.
Variable MayContainKey : Slice -> N -> BloomKeyProbe -> bool.

(** The predicate.  A [const void*] is the value it points to, or [None]
    for [nullptr]. *)
Record ColumnPredicate := {
  predicate_type_ : PredicateType.t;
  column_ : ColumnSchema;
  lower_ : option cpp_type;
  upper_ : option cpp_type;
  values_ : list cpp_type;
  bloom_filters_ : list BloomFilterInner
}.

(** [DataTypeTraits<PhysicalType>::Compare(cell, ptr)]; reading through
    [nullptr] has no result. *)
Definition Compare_ptr (cell : cpp_type) (ptr : option cpp_type) : option Z :=
  v ← ptr; Some (Compare cell v).

(** The loop of [EvaluateCellForBloomFilter] over [bloom_filters_]. *)
Fixpoint MayContainAll (filters : list BloomFilterInner) (cell_slice : Slice)
  : bool :=
  match filters with
  | [] => true
  | bf :: rest =>
      let probe := new_BloomKeyProbe cell_slice (hash_algorithm_ bf) in
      if negb (MayContainKey (bloom_data_ bf) (nhash_ bf) probe) then false
      else MayContainAll rest cell_slice
  end.

(** ColumnPredicate::EvaluateCellForBloomFilter *)
Definition EvaluateCellForBloomFilter (p : ColumnPredicate) (cell : cpp_type)
  : option bool :=
  if negb (MayContainAll (bloom_filters_ p) (cell_slice cell)) then Some false
  else
    match lower_ p, upper_ p with
    | Some _, Some _ =>
        cu ← Compare_ptr cell (upper_ p);
        if cu <? 0 then cl ← Compare_ptr cell (lower_ p); Some (0 <=? cl)
        else Some false
    | _, Some _ => cu ← Compare_ptr cell (upper_ p); Some (cu <? 0)
    | Some _, Datatypes.None => cl ← Compare_ptr cell (lower_ p); Some (0 <=? cl)
    | Datatypes.None, Datatypes.None => Some true
    end.

(** ColumnPredicate::EvaluateCell<PhysicalType> *)
Definition EvaluateCell (p : ColumnPredicate) (cell : cpp_type) : option bool :=
  match predicate_type_ p with
  | PredicateType.None => Some false
  | PredicateType.Range =>
      match lower_ p with
      | Datatypes.None => cu ← Compare_ptr cell (upper_ p); Some (cu <? 0)
      | Some _ =>
          match upper_ p with
          | Datatypes.None => cl ← Compare_ptr cell (lower_ p); Some (0 <=? cl)
          | Some _ =>
              cu ← Compare_ptr cell (upper_ p);
              if cu <? 0 then cl ← Compare_ptr cell (lower_ p); Some (0 <=? cl)
              else Some false
          end
      end
  | PredicateType.Equality => c ← Compare_ptr cell (lower_ p); Some (c =? 0)
  | PredicateType.IsNotNull => Some true
  | PredicateType.IsNull => Some false
  | PredicateType.InList =>
      Some (binary_search (fun lhs rhs => Compare lhs rhs <? 0) (values_ p) cell)
  | PredicateType.InBloomFilter => EvaluateCellForBloomFilter p cell
  end.


(** "Strictly increasing under the column's compare; no duplicates". *)
Fixpoint strictly_increasing (l : list cpp_type) : bool :=
  match l with
  | a :: (b :: _) as rest => (Compare a b <? 0) && strictly_increasing rest
  | _ => true
  end.

Definition range_ordered (lo up : option cpp_type) : bool :=
  match lo, up with
  | Some l, Some u => Compare l u <? 0
  | _, _ => true
  end.

Definition is_null {A} (ptr : option A) : bool :=
  match ptr with Some _ => false | Datatypes.None => true end.

(** Modelled from the spec: the canonical-form invariants of a predicate,
    section 3.2 (the constructors of [column_predicate.cc], which establish
    them, are not among the sources). *)
Definition canonical (p : ColumnPredicate) : bool :=
  match predicate_type_ p with
  | PredicateType.None =>
      is_null (lower_ p) && is_null (upper_ p)
      && (length (values_ p) =? 0)%nat && (length (bloom_filters_ p) =? 0)%nat
  | PredicateType.Equality => negb (is_null (lower_ p)) && is_null (upper_ p)
  | PredicateType.Range =>
      (negb (is_null (lower_ p)) || negb (is_null (upper_ p)))
      && range_ordered (lower_ p) (upper_ p)
  | PredicateType.IsNotNull => true
  | PredicateType.IsNull => is_nullable (column_ p)
  | PredicateType.InList =>
      (2 <=? length (values_ p))%nat && strictly_increasing (values_ p)
  | PredicateType.InBloomFilter =>
      (1 <=? length (bloom_filters_ p))%nat
      && range_ordered (lower_ p) (upper_ p)
  end.

(** "lower is null or compare(cell, lower) >= 0" and
    "upper is null or compare(cell, upper) < 0". *)
Definition lower_holds (cell : cpp_type) (lo : option cpp_type) : Prop :=
  match lo with Some l => 0 <= Compare cell l | Datatypes.None => True end.

Definition upper_holds (cell : cpp_type) (up : option cpp_type) : Prop :=
  match up with Some u => Compare cell u < 0 | Datatypes.None => True end.

(** The MayContain check of one filter for a cell. *)
Definition MayContain (bf : BloomFilterInner) (cell : cpp_type) : bool :=
  MayContainKey (bloom_data_ bf) (nhash_ bf)
                (new_BloomKeyProbe (cell_slice cell) (hash_algorithm_ bf)).


(** *** Merge

    [column_predicate.cc], which defines [Merge], [Simplify] and the
    [MergeInto...] and [CheckValueIn...] helpers declared in the header, is
    not among the sources.  The definitions below follow the merge rules of
    the specification (section 4.2.2), one function per row of its table. *)

Definition mk (kind : PredicateType.t) (p : ColumnPredicate)
    (lo up : option cpp_type) (values : list cpp_type)
    (filters : list BloomFilterInner) : ColumnPredicate :=
  {| predicate_type_ := kind; column_ := column_ p;
     lower_ := lo; upper_ := up; values_ := values; bloom_filters_ := filters |}.

(** Modelled from the spec: [SetToNone], the transition to the canonical
    None predicate (no bounds, no values, no filters). *)
Definition SetToNone (p : ColumnPredicate) : ColumnPredicate :=
  mk PredicateType.None p Datatypes.None Datatypes.None [] [].

(** Membership of a value in the half-open range [[lo, up)], a missing
    bound being unbounded. *)
Definition in_range (lo up : option cpp_type) (value : cpp_type) : bool :=
  match lo with Some l => 0 <=? Compare value l | Datatypes.None => true end
  && match up with Some u => Compare value u <? 0 | Datatypes.None => true end.

(** Modelled from the spec: [CheckValueInRange], "checks whether a given
    value is in the range". *)
Definition CheckValueInRange (p : ColumnPredicate) (value : cpp_type) : bool :=
  in_range (lower_ p) (upper_ p) value.

(** Modelled from the spec: [CheckValueInList], "checks whether a given
    value is in the list". *)
Definition CheckValueInList (p : ColumnPredicate) (value : cpp_type) : bool :=
  existsb (fun x => Compare value x =? 0) (values_ p).

(** Modelled from the spec: [CheckValueInBloomFilter], the value "passes all
    bloom filters (and optional range)". *)
Definition CheckValueInBloomFilter (p : ColumnPredicate) (value : cpp_type)
  : bool :=
  MayContainAll (bloom_filters_ p) (cell_slice value)
  && in_range (lower_ p) (upper_ p) value.

(** Modelled from the spec: "Intersect intervals": the larger lower bound
    and the smaller upper bound. *)
Definition max_lower (a b : option cpp_type) : option cpp_type :=
  match a, b with
  | Some x, Some y => if Compare x y <? 0 then Some y else Some x
  | Datatypes.None, _ => b
  | _, Datatypes.None => a
  end.

Definition min_upper (a b : option cpp_type) : option cpp_type :=
  match a, b with
  | Some x, Some y => if Compare y x <? 0 then Some y else Some x
  | Datatypes.None, _ => b
  | _, Datatypes.None => a
  end.

Definition equality_or_none (p : ColumnPredicate) (ptr : option cpp_type)
    (keep : cpp_type -> bool) : ColumnPredicate :=
  match ptr with
  | Some v =>
      if keep v then mk PredicateType.Equality p (Some v) Datatypes.None [] []
      else SetToNone p
  | Datatypes.None => SetToNone p
  end.

(** Modelled from the spec: row "Range" of the merge table. *)
Definition MergeIntoRange (p other : ColumnPredicate) : ColumnPredicate :=
  match predicate_type_ other with
  | PredicateType.None | PredicateType.IsNull => SetToNone p
  | PredicateType.IsNotNull => p
  | PredicateType.Equality =>
      equality_or_none p (lower_ other) (CheckValueInRange p)
  | PredicateType.Range =>
      mk PredicateType.Range p (max_lower (lower_ p) (lower_ other))
         (min_upper (upper_ p) (upper_ other)) [] []
  | PredicateType.InList =>
      mk PredicateType.InList p Datatypes.None Datatypes.None
         (List.filter (CheckValueInRange p) (values_ other)) []
  | PredicateType.InBloomFilter =>
      mk PredicateType.InBloomFilter p (max_lower (lower_ p) (lower_ other))
         (min_upper (upper_ p) (upper_ other)) [] (bloom_filters_ other)
  end.

(** Modelled from the spec: row "Eq" of the merge table; against a Bloom
    filter predicate the tie-break rule applies: "an Equality that fails any
    filter's MayContain check cannot match and reduces to None; otherwise
    the merged predicate is Equality". *)
Definition MergeIntoEquality (p other : ColumnPredicate) : ColumnPredicate :=
  match predicate_type_ other with
  | PredicateType.None | PredicateType.IsNull => SetToNone p
  | PredicateType.IsNotNull => p
  | PredicateType.Equality =>
      equality_or_none p (lower_ p)
        (fun v => match lower_ other with
                  | Some w => Compare v w =? 0
                  | Datatypes.None => false
                  end)
  | PredicateType.Range =>
      equality_or_none p (lower_ p) (CheckValueInRange other)
  | PredicateType.InList =>
      equality_or_none p (lower_ p) (CheckValueInList other)
  | PredicateType.InBloomFilter =>
      equality_or_none p (lower_ p) (CheckValueInBloomFilter other)
  end.

(** Modelled from the spec: row "IsNotNull" of the merge table. *)
Definition MergeIntoIsNotNull (p other : ColumnPredicate) : ColumnPredicate :=
  match predicate_type_ other with
  | PredicateType.None | PredicateType.IsNull => SetToNone p
  | PredicateType.IsNotNull => p
  | kind => mk kind p (lower_ other) (upper_ other) (values_ other)
               (bloom_filters_ other)
  end.

(** Modelled from the spec: row "IsNull" of the merge table. *)
Definition MergeIntoIsNull (p other : ColumnPredicate) : ColumnPredicate :=
  match predicate_type_ other with
  | PredicateType.IsNull => p
  | _ => SetToNone p
  end.

(** Modelled from the spec: row "InList" of the merge table; against a
    Bloom filter predicate the "proper rule" applies: "retain list elements
    whose presence passes all filters AND range check". *)
Definition MergeIntoInList (p other : ColumnPredicate) : ColumnPredicate :=
  match predicate_type_ other with
  | PredicateType.None | PredicateType.IsNull => SetToNone p
  | PredicateType.IsNotNull => p
  | PredicateType.Equality =>
      equality_or_none p (lower_ other) (CheckValueInList p)
  | PredicateType.Range =>
      mk PredicateType.InList p Datatypes.None Datatypes.None
         (List.filter (CheckValueInRange other) (values_ p)) []
  | PredicateType.InList =>
      mk PredicateType.InList p Datatypes.None Datatypes.None
         (List.filter (CheckValueInList other) (values_ p)) []
  | PredicateType.InBloomFilter =>
      mk PredicateType.InList p Datatypes.None Datatypes.None
         (List.filter (CheckValueInBloomFilter other) (values_ p)) []
  end.

(** Modelled from the spec: row "InBloom" of the merge table. *)
Definition MergeIntoBloomFilter (p other : ColumnPredicate) : ColumnPredicate :=
  match predicate_type_ other with
  | PredicateType.None | PredicateType.IsNull => SetToNone p
  | PredicateType.IsNotNull => p
  | PredicateType.Equality =>
      equality_or_none p (lower_ other) (CheckValueInBloomFilter p)
  | PredicateType.Range =>
      mk PredicateType.InBloomFilter p (max_lower (lower_ p) (lower_ other))
         (min_upper (upper_ p) (upper_ other)) [] (bloom_filters_ p)
  | PredicateType.InList =>
      mk PredicateType.InList p Datatypes.None Datatypes.None
         (List.filter (CheckValueInBloomFilter p) (values_ other)) []
  | PredicateType.InBloomFilter =>
      mk PredicateType.InBloomFilter p (max_lower (lower_ p) (lower_ other))
         (min_upper (upper_ p) (upper_ other)) []
         (bloom_filters_ p ++ bloom_filters_ other)
  end.

(** Modelled from the spec: [Simplify], "ranges with empty intervals →
    None; singleton ranges → Equality; InList with ≤1 element → Eq/None". *)
Definition Simplify (p : ColumnPredicate) : ColumnPredicate :=
  match predicate_type_ p with
  | PredicateType.Range =>
      match lower_ p, upper_ p with
      | Some l, Some u =>
          if 0 <=? Compare l u then SetToNone p
          else if AreConsecutive l u
               then mk PredicateType.Equality p (Some l) Datatypes.None [] []
               else p
      | _, _ => p
      end
  | PredicateType.InList =>
      match values_ p with
      | [] => SetToNone p
      | [v] => mk PredicateType.Equality p (Some v) Datatypes.None [] []
      | _ => p
      end
  | _ => p
  end.

(** Modelled from the spec: [Merge], the dispatch on the kind of the left
    predicate followed by [Simplify]. *)
Definition Merge (p other : ColumnPredicate) : ColumnPredicate :=
  Simplify
    match predicate_type_ p with
    | PredicateType.None => p
    | PredicateType.Range => MergeIntoRange p other
    | PredicateType.Equality => MergeIntoEquality p other
    | PredicateType.IsNotNull => MergeIntoIsNotNull p other
    | PredicateType.IsNull => MergeIntoIsNull p other
    | PredicateType.InList => MergeIntoInList p other
    | PredicateType.InBloomFilter => MergeIntoBloomFilter p other
    end.

(** Modelled from the spec: whether a predicate matches a row value, as the
    block evaluator decides it (section 4.2.3): on a null cell only IsNull
    matches; a non-null cell goes to [EvaluateCell]. *)
Definition matches (p : ColumnPredicate) (row : option cpp_type) : option bool :=
  match row with
  | Datatypes.None =>
      Some match predicate_type_ p with
           | PredicateType.IsNull => true
           | _ => false
           end
  | Some cell =>
      match predicate_type_ p with
      | PredicateType.IsNull => Some false
      | _ => EvaluateCell p cell
      end
  end.

(** The rows a predicate selects, as a total function (membership in the
    list stated directly). *)
Definition selects (p : ColumnPredicate) (row : option cpp_type) : bool :=
  match row with
  | Datatypes.None =>
      match predicate_type_ p with
      | PredicateType.IsNull => true
      | _ => false
      end
  | Some cell =>
      match predicate_type_ p with
      | PredicateType.None | PredicateType.IsNull => false
      | PredicateType.IsNotNull => true
      | PredicateType.Equality =>
          match lower_ p with
          | Some v => Compare cell v =? 0
          | Datatypes.None => false
          end
      | PredicateType.Range => in_range (lower_ p) (upper_ p) cell
      | PredicateType.InList => existsb (fun x => Compare cell x =? 0) (values_ p)
      | PredicateType.InBloomFilter =>
          MayContainAll (bloom_filters_ p) (cell_slice cell)
          && in_range (lower_ p) (upper_ p) cell
      end
  end.

(** What [EvaluateCell] needs of a predicate to read no null pointer and to
    search a sorted vector; every canonical predicate has it. *)
Definition evaluable (p : ColumnPredicate) : Prop :=
  match predicate_type_ p with
  | PredicateType.Equality => lower_ p <> Datatypes.None
  | PredicateType.Range =>
      lower_ p <> Datatypes.None \/ upper_ p <> Datatypes.None
  | PredicateType.InList => strictly_increasing (values_ p) = true
  | _ => True
  end.

(** *** The order given by [Compare] *)

Lemma Compare_refl a : Compare a a = 0.
Proof. by apply Compare_eq. Qed.

Lemma Compare_flip_ge a b : 0 <= Compare a b <-> Compare b a <= 0.
Proof.
  pose proof (Compare_antisym a b). pose proof (Compare_antisym b a).
  pose proof (Compare_eq a b) as Hab. pose proof (Compare_eq b a) as Hba.
  split; intros Hle.
  - destruct (Z.eq_dec (Compare a b) 0) as [Hz|Hnz].
    + apply Hab in Hz. subst b. rewrite Compare_refl. lia.
    + lia.
  - destruct (Z.eq_dec (Compare b a) 0) as [Hz|Hnz].
    + apply Hba in Hz. subst b. rewrite Compare_refl. lia.
    + lia.
Qed.

Lemma Compare_le_lt_trans a b c :
  Compare a b <= 0 -> Compare b c < 0 -> Compare a c < 0.
Proof.
  intros Hab Hbc. destruct (Z.eq_dec (Compare a b) 0) as [Hz|Hnz].
  - apply Compare_eq in Hz. by subst b.
  - apply Compare_trans with b; [lia | exact Hbc].
Qed.

Lemma Compare_lt_le_trans a b c :
  Compare a b < 0 -> Compare b c <= 0 -> Compare a c < 0.
Proof.
  intros Hab Hbc. destruct (Z.eq_dec (Compare b c) 0) as [Hz|Hnz].
  - apply Compare_eq in Hz. by subst c.
  - apply Compare_trans with b; [exact Hab | lia].
Qed.

Lemma Compare_le_trans a b c :
  Compare a b <= 0 -> Compare b c <= 0 -> Compare a c <= 0.
Proof.
  intros Hab Hbc. destruct (Z.eq_dec (Compare b c) 0) as [Hz|Hnz].
  - apply Compare_eq in Hz. by subst c.
  - assert (Compare a c < 0); [|lia].
    apply Compare_le_lt_trans with b; [exact Hab | lia].
Qed.

Lemma strictly_increasing_cons a l :
  strictly_increasing (a :: l) = true ->
  strictly_increasing l = true /\ Forall (fun x => Compare a x < 0) l.
Proof.
  revert a. induction l as [|b l IH]; intros a Hs; [by split|].
  cbn [strictly_increasing] in Hs. apply andb_true_iff in Hs as [Hab Hrest].
  apply Z.ltb_lt in Hab. split; [exact Hrest|].
  constructor; [exact Hab|].
  destruct (IH b Hrest) as [_ Hall].
  eapply Forall_impl; [exact Hall|].
  intros x Hbx. by apply Compare_trans with b.
Qed.

Lemma strictly_increasing_lookup l j1 j2 x1 x2 :
  strictly_increasing l = true -> (j1 < j2)%nat ->
  l !! j1 = Some x1 -> l !! j2 = Some x2 -> Compare x1 x2 < 0.
Proof.
  revert j1 j2. induction l as [|a l IH]; intros j1 j2 Hs Hlt H1 H2; [done|].
  destruct (strictly_increasing_cons a l Hs) as [Hl Hall].
  destruct j2 as [|j2]; [lia|]. cbn in H2.
  destruct j1 as [|j1]; cbn in H1.
  - injection H1 as ->. eapply Forall_lookup_1 in Hall; [exact Hall | exact H2].
  - apply (IH j1 j2); [exact Hl | lia | exact H1 | exact H2].
Qed.

(** [std::binary_search] on a strictly increasing vector decides
    membership. *)
Lemma binary_search_elem_of l cell :
  strictly_increasing l = true ->
  binary_search (fun lhs rhs => Compare lhs rhs <? 0) l cell = true <-> cell ∈ l.
Proof.
  intros Hs. unfold binary_search.
  destruct (lower_bound_spec (fun lhs rhs => Compare lhs rhs <? 0) l 0 (length l) cell)
    as (Hr & Hlo & Hhi); [lia | |].
  { intros j1 j2 x1 x2 Hle H1 H2 Hc. apply Z.ltb_lt in Hc. apply Z.ltb_lt.
    destruct (decide (j1 = j2)) as [->|Hne].
    - assert (x1 = x2) as -> by congruence. exact Hc.
    - apply Compare_trans with x2; [|exact Hc].
      apply (strictly_increasing_lookup l j1 j2); [exact Hs | lia | exact H1 | exact H2]. }
  set (i := lower_bound _ l 0 (length l) cell) in *.
  split.
  - destruct (l !! i) as [x|] eqn:Hx; [|discriminate].
    intros Hneg. apply negb_true_iff, Z.ltb_ge in Hneg.
    assert (Hge : (Compare x cell <? 0) = false).
    { apply (Hhi i x); [|exact Hx]. apply lookup_lt_Some in Hx. lia. }
    apply Z.ltb_ge in Hge. apply Compare_flip_ge in Hge.
    assert (Hz : Compare cell x = 0) by lia.
    apply Compare_eq in Hz. subst x. apply list_elem_of_lookup. by exists i.
  - intros Hin. apply list_elem_of_lookup in Hin as [j Hj].
    assert (Hjlt : (j < length l)%nat) by (by apply lookup_lt_Some in Hj).
    assert (Hij : (i <= j)%nat).
    { destruct (le_lt_dec i j) as [|Hlt]; [done|].
      assert (Hc : (Compare cell cell <? 0) = true) by (apply (Hlo j cell); [lia | exact Hj]).
      rewrite Compare_refl in Hc. discriminate. }
    destruct (decide (i = j)) as [->|Hne].
    + rewrite Hj. rewrite Compare_refl. reflexivity.
    + assert (Hilt : (i < length l)%nat) by lia.
      destruct (lookup_lt_is_Some_2 l i Hilt) as [x Hx].
      assert (Hlt : Compare x cell < 0)
        by (apply (strictly_increasing_lookup l i j); [exact Hs | lia | exact Hx | exact Hj]).
      assert (Hge : (Compare x cell <? 0) = false) by (apply (Hhi i x); [lia | exact Hx]).
      apply Z.ltb_ge in Hge. lia.
Qed.

Lemma MayContainAll_spec filters cell :
  MayContainAll filters (cell_slice cell) = true
  <-> forall bf, bf ∈ filters -> MayContain bf cell = true.
Proof.
  induction filters as [|bf rest IH]; cbn [MayContainAll].
  - split; [|done]. intros _ bf Hbf. by apply elem_of_nil in Hbf.
  - fold (MayContain bf cell). destruct (MayContain bf cell) eqn:Hbf; cbn [negb].
    + rewrite IH. split.
      * intros Hall bf' Hin. apply elem_of_cons in Hin as [->|Hin]; auto.
      * intros Hall bf' Hin. apply Hall. by right.
    + split; [discriminate|]. intros Hall.
      rewrite <- Hbf. symmetry. rewrite Hall; [done | by left].
Qed.

Lemma range_check_spec cell (lo up : option cpp_type) (b : bool) :
  (match lo, up with
   | Some _, Some _ =>
       cu ← Compare_ptr cell up;
       if cu <? 0 then cl ← Compare_ptr cell lo; Some (0 <=? cl) else Some false
   | _, Some _ => cu ← Compare_ptr cell up; Some (cu <? 0)
   | Some _, Datatypes.None => cl ← Compare_ptr cell lo; Some (0 <=? cl)
   | Datatypes.None, Datatypes.None => Some true
   end) = Some b ->
  b = true <-> lower_holds cell lo /\ upper_holds cell up.
Proof.
  destruct lo as [l|], up as [u|]; cbn [Compare_ptr mbind option_bind lower_holds upper_holds].
  - destruct (Z.ltb_spec (Compare cell u) 0); intros [= <-].
    + rewrite Z.leb_le. tauto.
    + split; [discriminate | lia].
  - intros [= <-]. rewrite Z.leb_le. tauto.
  - intros [= <-]. rewrite Z.ltb_lt. tauto.
  - intros [= <-]. tauto.
Qed.

(** C3. On a canonical predicate [EvaluateCell] is defined for every cell
    and returns: false for None and IsNull; true for IsNotNull; for
    Equality, true iff [Compare(cell, lower) = 0]; for Range, true iff
    (lower is null or [Compare(cell, lower) >= 0]) and (upper is null or
    [Compare(cell, upper) < 0]); for InList, true iff the cell is an element
    of [values_]; for InBloomFilter, true iff the MayContain check of every
    filter passes and the optional range bounds hold. *)
Theorem EvaluateCell_spec (p : ColumnPredicate) (cell : cpp_type) :
  canonical p = true ->
  exists b, EvaluateCell p cell = Some b
    /\ match predicate_type_ p with
       | PredicateType.None => b = false
       | PredicateType.IsNull => b = false
       | PredicateType.IsNotNull => b = true
       | PredicateType.Equality =>
           exists v, lower_ p = Some v /\ (b = true <-> Compare cell v = 0)
       | PredicateType.Range =>
           b = true <-> lower_holds cell (lower_ p) /\ upper_holds cell (upper_ p)
       | PredicateType.InList => b = true <-> cell ∈ values_ p
       | PredicateType.InBloomFilter =>
           b = true <->
           (forall bf, bf ∈ bloom_filters_ p -> MayContain bf cell = true)
           /\ lower_holds cell (lower_ p) /\ upper_holds cell (upper_ p)
       end.
Proof.
  unfold canonical, EvaluateCell. intros Hc.
  destruct (predicate_type_ p).
  - by exists false.
  - apply andb_true_iff in Hc as [Hlo _].
    destruct (lower_ p) as [v|]; [|discriminate].
    cbn [Compare_ptr mbind option_bind].
    exists (Compare cell v =? 0). split; [reflexivity|].
    exists v. split; [reflexivity | apply Z.eqb_eq].
  - apply andb_true_iff in Hc as [Hsome _].
    destruct (lower_ p) as [l|] eqn:Hl, (upper_ p) as [u|] eqn:Hu;
      try discriminate Hsome;
      cbn [Compare_ptr mbind option_bind lower_holds upper_holds].
    + exists (if Compare cell u <? 0 then 0 <=? Compare cell l else false).
      split; [by destruct (Compare cell u <? 0)|].
      destruct (Z.ltb_spec (Compare cell u) 0).
      * rewrite Z.leb_le. tauto.
      * split; [discriminate | lia].
    + eexists. split; [reflexivity|]. rewrite Z.leb_le. tauto.
    + eexists. split; [reflexivity|]. rewrite Z.ltb_lt. tauto.
  - by exists true.
  - by exists false.
  - apply andb_true_iff in Hc as [_ Hs].
    eexists. split; [reflexivity|]. by apply binary_search_elem_of.
  - unfold EvaluateCellForBloomFilter.
    destruct (MayContainAll (bloom_filters_ p) (cell_slice cell)) eqn:Hall;
      cbn [negb].
    + pose proof (proj1 (MayContainAll_spec _ _) Hall) as Hall'.
      assert (Hdef : exists b,
                 (match lower_ p, upper_ p with
                  | Some _, Some _ =>
                      cu ← Compare_ptr cell (upper_ p);
                      if cu <? 0 then cl ← Compare_ptr cell (lower_ p); Some (0 <=? cl)
                      else Some false
                  | _, Some _ => cu ← Compare_ptr cell (upper_ p); Some (cu <? 0)
                  | Some _, Datatypes.None =>
                      cl ← Compare_ptr cell (lower_ p); Some (0 <=? cl)
                  | Datatypes.None, Datatypes.None => Some true
                  end) = Some b).
      { destruct (lower_ p), (upper_ p); cbn [Compare_ptr mbind option_bind];
          try (eexists; reflexivity).
        destruct (_ <? 0); eexists; reflexivity. }
      destruct Hdef as [b Hb]. exists b. split; [exact Hb|].
      apply range_check_spec in Hb. tauto.
    + exists false. split; [reflexivity|]. split; [discriminate|].
      intros [Hall' _]. pose proof (proj2 (MayContainAll_spec _ _) Hall'). congruence.
Qed.

(** *** What evaluation computes *)

Lemma existsb_Compare_elem_of (l : list cpp_type) cell :
  existsb (fun x => Compare cell x =? 0) l = true <-> cell ∈ l.
Proof.
  rewrite existsb_exists. split.
  - intros (x & Hin & Hx). apply Z.eqb_eq, Compare_eq in Hx. subst x.
    by apply list_elem_of_In.
  - intros Hin. exists cell. split; [by apply list_elem_of_In|].
    apply Z.eqb_eq, Compare_refl.
Qed.

Lemma matches_selects p row :
  evaluable p -> matches p row = Some (selects p row).
Proof.
  unfold evaluable, matches, selects, EvaluateCell, EvaluateCellForBloomFilter, in_range.
  intros He. destruct row as [cell|]; [|reflexivity].
  destruct (predicate_type_ p); try reflexivity.
  - destruct (lower_ p); [reflexivity | done].
  - destruct (lower_ p), (upper_ p); cbn [Compare_ptr mbind option_bind];
      try reflexivity.
    + destruct (_ <? 0); [by rewrite andb_true_r | by rewrite andb_false_r].
    + by rewrite andb_true_r.
    + by destruct He.
  - f_equal. apply eq_true_iff_eq.
    rewrite binary_search_elem_of by exact He.
    by rewrite existsb_Compare_elem_of.
  - destruct (MayContainAll _ _); cbn [negb andb]; [|reflexivity].
    destruct (lower_ p), (upper_ p); cbn [Compare_ptr mbind option_bind];
      try reflexivity.
    + destruct (_ <? 0); [by rewrite andb_true_r | by rewrite andb_false_r].
    + by rewrite andb_true_r.
Qed.

Lemma canonical_evaluable p : canonical p = true -> evaluable p.
Proof.
  unfold canonical, evaluable. destruct (predicate_type_ p); try done.
  - intros [Hlo _]%andb_true_iff. by destruct (lower_ p).
  - intros [Hb _]%andb_true_iff. destruct (lower_ p), (upper_ p); try discriminate Hb; auto.
  - by intros [_ Hs]%andb_true_iff.
Qed.

(** *** Ranges and lists *)

Lemma Compare_eqb_subst (g : cpp_type -> bool) c v :
  (Compare c v =? 0) && g v = (Compare c v =? 0) && g c.
Proof.
  destruct (Z.eqb_spec (Compare c v) 0) as [Hz|]; [|reflexivity].
  apply Compare_eq in Hz. by subst v.
Qed.

Lemma lower_max a b c :
  match max_lower a b with Some l => 0 <=? Compare c l | Datatypes.None => true end
  = match a with Some l => 0 <=? Compare c l | Datatypes.None => true end
    && match b with Some l => 0 <=? Compare c l | Datatypes.None => true end.
Proof.
  destruct a as [x|], b as [y|]; cbn [max_lower]; try reflexivity;
    [|by rewrite andb_true_r].
  apply eq_true_iff_eq. rewrite andb_true_iff.
  destruct (Z.ltb_spec (Compare x y) 0) as [Hlt|Hge]; rewrite !Z.leb_le.
  - split; [|tauto]. intros Hy. split; [|exact Hy].
    apply Compare_flip_ge. apply Compare_flip_ge in Hy.
    assert (Compare x c < 0) by (by apply Compare_lt_le_trans with y). lia.
  - split; [|tauto]. intros Hx. split; [exact Hx|].
    apply Compare_flip_ge. apply Compare_flip_ge in Hx.
    apply Compare_flip_ge in Hge.
    by apply Compare_le_trans with x.
Qed.

Lemma upper_min a b c :
  match min_upper a b with Some u => Compare c u <? 0 | Datatypes.None => true end
  = match a with Some u => Compare c u <? 0 | Datatypes.None => true end
    && match b with Some u => Compare c u <? 0 | Datatypes.None => true end.
Proof.
  destruct a as [x|], b as [y|]; cbn [min_upper]; try reflexivity;
    [|by rewrite andb_true_r].
  apply eq_true_iff_eq. rewrite andb_true_iff.
  destruct (Z.ltb_spec (Compare y x) 0) as [Hlt|Hge]; rewrite !Z.ltb_lt.
  - split; [|tauto]. intros Hy. split; [|exact Hy].
    by apply Compare_trans with y.
  - split; [|tauto]. intros Hx. split; [exact Hx|].
    apply Compare_flip_ge in Hge.
    by apply Compare_lt_le_trans with x.
Qed.

Lemma in_range_intersect lo1 up1 lo2 up2 c :
  in_range (max_lower lo1 lo2) (min_upper up1 up2) c
  = in_range lo1 up1 c && in_range lo2 up2 c.
Proof.
  unfold in_range. rewrite lower_max, upper_min.
  repeat match goal with |- context [match ?o with Some _ => _ | Datatypes.None => _ end] =>
    generalize (match o with Some u => Compare c u <? 0 | Datatypes.None => true end);
    generalize (match o with Some l => 0 <=? Compare c l | Datatypes.None => true end)
  end.
  intros; repeat match goal with b : bool |- _ => destruct b end; reflexivity.
Qed.

Lemma existsb_filter (g : cpp_type -> bool) l c :
  existsb (fun x => Compare c x =? 0) (List.filter g l)
  = existsb (fun x => Compare c x =? 0) l && g c.
Proof.
  induction l as [|v l IH]; [reflexivity|].
  cbn [List.filter existsb].
  destruct (g v) eqn:Hg; cbn [existsb]; rewrite IH.
  - destruct (Z.eqb_spec (Compare c v) 0) as [Hz|]; [|reflexivity].
    apply Compare_eq in Hz. subst v. rewrite Hg. reflexivity.
  - destruct (Z.eqb_spec (Compare c v) 0) as [Hz|]; [|reflexivity].
    apply Compare_eq in Hz. subst v. rewrite Hg.
    cbn [orb]. by rewrite !andb_false_r.
Qed.

Lemma strictly_increasing_filter (g : cpp_type -> bool) l :
  strictly_increasing l = true -> strictly_increasing (List.filter g l) = true.
Proof.
  induction l as [|a l IH]; [done|]. intros Hs.
  destruct (strictly_increasing_cons a l Hs) as [Hl Hall].
  cbn [List.filter]. destruct (g a); [|by apply IH].
  specialize (IH Hl).
  assert (Hall' : Forall (fun x => Compare a x < 0) (List.filter g l)).
  { apply Forall_forall. intros x Hx.
    apply list_elem_of_In, filter_In in Hx as [Hx _].
    rewrite Forall_forall in Hall. by apply Hall, list_elem_of_In. }
  destruct (List.filter g l) as [|b rest]; [reflexivity|].
  change (strictly_increasing (a :: b :: rest))
    with ((Compare a b <? 0) && strictly_increasing (b :: rest)).
  rewrite IH, andb_true_r.
  apply Z.ltb_lt. by inversion Hall'.
Qed.

(** *** Simplify and the rows of the merge table *)

Lemma SetToNone_selects p row : selects (SetToNone p) row = false.
Proof. destruct row; reflexivity. Qed.

Lemma equality_or_none_selects p ptr keep row :
  selects (equality_or_none p ptr keep) row
  = match row, ptr with
    | Some c, Some v => (Compare c v =? 0) && keep v
    | _, _ => false
    end.
Proof.
  unfold equality_or_none. destruct ptr as [v|]; [|destruct row; reflexivity].
  destruct (keep v); destruct row; cbn; by rewrite ?andb_true_r, ?andb_false_r.
Qed.

Lemma equality_or_none_evaluable p ptr keep :
  evaluable (equality_or_none p ptr keep).
Proof.
  unfold equality_or_none. destruct ptr as [v|]; [|exact I].
  destruct (keep v); [discriminate | exact I].
Qed.

Lemma empty_range l u c :
  0 <= Compare l u -> in_range (Some l) (Some u) c = false.
Proof.
  intros Hlu. unfold in_range. apply andb_false_iff.
  destruct (Z.leb_spec 0 (Compare c l)) as [Hcl|]; [right | by left].
  apply Z.ltb_ge. apply Compare_flip_ge.
  apply Compare_flip_ge in Hlu. apply Compare_flip_ge in Hcl.
  apply Compare_flip_ge. apply Compare_flip_ge.
  by apply Compare_le_trans with l.
Qed.

Lemma singleton_range l u c :
  AreConsecutive l u = true ->
  in_range (Some l) (Some u) c = (Compare c l =? 0).
Proof.
  intros Hcons. unfold in_range. apply eq_true_iff_eq.
  rewrite andb_true_iff, Z.leb_le, Z.ltb_lt, Z.eqb_eq, Compare_eq.
  by apply AreConsecutive_spec.
Qed.

Lemma Simplify_selects p row : selects (Simplify p) row = selects p row.
Proof.
  unfold Simplify. destruct p as [kind col lo up vs fs].
  cbn [predicate_type_ lower_ upper_ values_].
  destruct kind; try reflexivity.
  - destruct lo as [l|], up as [u|]; try reflexivity.
    destruct (Z.leb_spec 0 (Compare l u)) as [Hge|Hlt].
    + rewrite SetToNone_selects. destruct row as [c|]; [|reflexivity].
      cbn. symmetry. by apply empty_range.
    + destruct (AreConsecutive l u) eqn:Hcons; [|reflexivity].
      destruct row as [c|]; [|reflexivity].
      cbn. symmetry. by apply singleton_range.
  - destruct vs as [|v [|w vs]]; try reflexivity.
    destruct row as [c|]; [|reflexivity]. cbn. by rewrite orb_false_r.
Qed.

Lemma Simplify_evaluable p : evaluable p -> evaluable (Simplify p).
Proof.
  unfold Simplify. destruct p as [kind col lo up vs fs].
  cbn [predicate_type_ lower_ upper_ values_].
  destruct kind; try done.
  - destruct lo as [l|], up as [u|]; try done.
    destruct (0 <=? Compare l u); [done|].
    destruct (AreConsecutive l u); done.
  - destruct vs as [|v [|w vs]]; done.
Qed.

Lemma max_lower_not_null a b :
  a <> Datatypes.None \/ b <> Datatypes.None -> max_lower a b <> Datatypes.None.
Proof.
  destruct a as [x|], b as [y|]; cbn; try done.
  - by destruct (_ <? 0).
  - by intros [|].
Qed.

Lemma min_upper_not_null a b :
  a <> Datatypes.None \/ b <> Datatypes.None -> min_upper a b <> Datatypes.None.
Proof.
  destruct a as [x|], b as [y|]; cbn; try done.
  - by destruct (_ <? 0).
  - by intros [|].
Qed.

Lemma MayContainAll_app fs1 fs2 s :
  MayContainAll (fs1 ++ fs2) s = MayContainAll fs1 s && MayContainAll fs2 s.
Proof.
  induction fs1 as [|bf fs1 IH]; [reflexivity|].
  cbn [app MayContainAll]. by destruct (negb _).
Qed.

(** A value that compares equal to the cell can be replaced by the cell. *)
Ltac subst_equal_value :=
  match goal with
  | |- context [(Compare ?c ?v =? 0) && ?e] =>
      match eval pattern v in e with
      | ?g _ => rewrite (Compare_eqb_subst g c v); cbv beta
      end
  end.

Ltac bool_atoms :=
  repeat match goal with
    | |- context [Compare ?a ?b =? 0] => destruct (Compare a b =? 0)
    | |- context [in_range ?a ?b ?c] => destruct (in_range a b c)
    | |- context [existsb ?f ?l] => destruct (existsb f l)
    | |- context [MayContainAll ?f ?s] => destruct (MayContainAll f s)
    end;
  reflexivity.

Ltac merge_row :=
  repeat first
    [ rewrite SetToNone_selects
    | rewrite equality_or_none_selects
    | progress cbn [selects predicate_type_ lower_ upper_ values_ bloom_filters_
                    mk CheckValueInRange CheckValueInList CheckValueInBloomFilter]
    | rewrite in_range_intersect
    | rewrite existsb_filter ].

Lemma MergeInto_selects p other row :
  selects match predicate_type_ p with
          | PredicateType.None => p
          | PredicateType.Range => MergeIntoRange p other
          | PredicateType.Equality => MergeIntoEquality p other
          | PredicateType.IsNotNull => MergeIntoIsNotNull p other
          | PredicateType.IsNull => MergeIntoIsNull p other
          | PredicateType.InList => MergeIntoInList p other
          | PredicateType.InBloomFilter => MergeIntoBloomFilter p other
          end row
  = selects p row && selects other row.
Proof.
  destruct p as [kp colp lop upp vsp fsp], other as [ko colo loo upo vso fso].
  cbn [predicate_type_].
  destruct kp, ko;
    unfold MergeIntoRange, MergeIntoEquality, MergeIntoIsNotNull,
           MergeIntoIsNull, MergeIntoInList, MergeIntoBloomFilter;
    cbn [predicate_type_ lower_ upper_ values_ bloom_filters_];
    destruct row as [c|]; merge_row;
    rewrite ?andb_true_r, ?andb_false_r; try reflexivity.
  all: unfold CheckValueInRange, CheckValueInList, CheckValueInBloomFilter;
    cbn [lower_ upper_ values_ bloom_filters_];
    rewrite ?MayContainAll_app;
    repeat match goal with
      | |- context [match ?o with Some _ => _ | Datatypes.None => _ end] =>
          is_var o; destruct o
      end;
    rewrite ?andb_false_r; try reflexivity.
  all: try subst_equal_value.
  all: bool_atoms.
Qed.

Lemma MergeInto_evaluable p other :
  evaluable p -> evaluable other ->
  evaluable match predicate_type_ p with
            | PredicateType.None => p
            | PredicateType.Range => MergeIntoRange p other
            | PredicateType.Equality => MergeIntoEquality p other
            | PredicateType.IsNotNull => MergeIntoIsNotNull p other
            | PredicateType.IsNull => MergeIntoIsNull p other
            | PredicateType.InList => MergeIntoInList p other
            | PredicateType.InBloomFilter => MergeIntoBloomFilter p other
            end.
Proof.
  destruct p as [kp colp lop upp vsp fsp], other as [ko colo loo upo vso fso].
  unfold evaluable at 1 2. cbn [predicate_type_ lower_ upper_ values_].
  intros Hp Ho.
  destruct kp, ko;
    unfold MergeIntoRange, MergeIntoEquality, MergeIntoIsNotNull,
           MergeIntoIsNull, MergeIntoInList, MergeIntoBloomFilter;
    cbn [predicate_type_ lower_ upper_ values_ bloom_filters_];
    try apply equality_or_none_evaluable;
    try exact I; try exact Hp; try exact Ho;
    unfold evaluable; cbn [mk predicate_type_ lower_ upper_ values_];
    try (by apply strictly_increasing_filter).
  destruct Hp as [Hp|Hp], Ho as [Ho|Ho];
    first [ left; apply max_lower_not_null; tauto
          | right; apply min_upper_not_null; tauto ].
Qed.

Lemma Merge_selects p other row :
  selects (Merge p other) row = selects p row && selects other row.
Proof. unfold Merge. rewrite Simplify_selects. apply MergeInto_selects. Qed.

Lemma Merge_evaluable p other :
  evaluable p -> evaluable other -> evaluable (Merge p other).
Proof. intros Hp Ho. by apply Simplify_evaluable, MergeInto_evaluable. Qed.

(** C1. Merge is intersection: for canonical predicates [p] and [q] over
    the same column and every row value (a cell or null), all three of
    [p], [q] and [Merge p q] decide the row, and the merged predicate
    matches it iff both [p] and [q] do. *)
Theorem Merge_is_intersection (p q : ColumnPredicate) (row : option cpp_type) :
  canonical p = true -> canonical q = true -> column_ p = column_ q ->
  exists bp bq,
    matches p row = Some bp /\ matches q row = Some bq
    /\ matches (Merge p q) row = Some (bp && bq).
Proof.
  intros Hp%canonical_evaluable Hq%canonical_evaluable _.
  exists (selects p row), (selects q row).
  rewrite <- Merge_selects.
  repeat split; apply matches_selects; auto using Merge_evaluable.
Qed.

(** ** Evaluation outside the canonical forms *)

(** Where [std::lower_bound] stops: at the end of its window, or at an
    element it has compared with [value] and found not to be below it. *)
Lemma lower_bound_stop {A} (comp : A -> A -> bool) (l : list A)
    (first len : nat) (value : A) :
  (first + len <= length l)%nat ->
  lower_bound comp l first len value = (first + len)%nat
  \/ exists x, l !! lower_bound comp l first len value = Some x
       /\ comp x value = false.
Proof.
  intros Hlen.
  funelim (lower_bound comp l first len value).
  - left. lia.
  - assert (Hhalf : (S n / 2 < S n)%nat) by (apply Nat.div_lt; lia).
    apply lookup_ge_None in Heq. lia.
  - assert (Hhalf : (S n / 2 < S n)%nat) by (apply Nat.div_lt; lia).
    destruct H as [Hr|Hr]; [lia | left; lia | right; exact Hr].
  - assert (Hhalf : (S n / 2 < S n)%nat) by (apply Nat.div_lt; lia).
    destruct H as [Hr|Hr]; [lia | | right; exact Hr].
    right. exists m. rewrite Hr. split; [exact Heq0 | exact Heq].
Qed.


(** X7. An InList predicate has no false positives even when [values_] is
    not sorted: whenever [EvaluateCell] answers true, the cell is an
    element of [values_].  (Sortedness is only needed for the converse.) *)
Theorem InList_no_false_positive (p : ColumnPredicate) (cell : cpp_type) :
  predicate_type_ p = PredicateType.InList ->
  EvaluateCell p cell = Some true ->
  cell ∈ values_ p.
Proof.
  intros Hty. unfold EvaluateCell. rewrite Hty. intros [= Hb].
  unfold binary_search in Hb.
  set (comp := fun lhs rhs : cpp_type => Compare lhs rhs <? 0) in *.
  destruct (lower_bound_stop comp (values_ p) 0 (length (values_ p)) cell)
    as [Hend|(x & Hx & Hcmp)]; [lia | |].
  - rewrite Hend in Hb. cbn [Nat.add] in Hb.
    by rewrite (proj2 (lookup_ge_None (values_ p) _) (Nat.le_refl _)) in Hb.
  - rewrite Hx in Hb. apply negb_true_iff in Hb.
    unfold comp in Hb, Hcmp. apply Z.ltb_ge in Hb, Hcmp.
    apply Compare_flip_ge in Hcmp.
    assert (Hz : Compare cell x = 0) by lia.
    apply Compare_eq in Hz. subst x.
    by apply list_elem_of_lookup_2 in Hx.
Qed.

(** X8. An empty range selects nothing: when both bounds are set and
    [lower_] is not below [upper_], a Range predicate and an InBloomFilter
    predicate answer false for every cell, whatever the filters say. *)
Theorem empty_range_selects_nothing (p : ColumnPredicate)
    (cell lo up : cpp_type) :
  predicate_type_ p = PredicateType.Range
  \/ predicate_type_ p = PredicateType.InBloomFilter ->
  lower_ p = Some lo -> upper_ p = Some up ->
  0 <= Compare lo up ->
  EvaluateCell p cell = Some false.
Proof.
  intros Hty Hlo Hup Hemp.
  assert (Hcase : (if Compare cell up <? 0 then Some (0 <=? Compare cell lo)
                   else Some false) = Some false).
  { destruct (Z.ltb_spec (Compare cell up) 0) as [Hlt|Hge]; [|reflexivity].
    f_equal. apply Z.leb_gt.
    apply Compare_lt_le_trans with up; [exact Hlt|].
    by apply Compare_flip_ge. }
  unfold EvaluateCell, EvaluateCellForBloomFilter.
  destruct Hty as [-> | ->]; rewrite Hlo, Hup;
    cbn [Compare_ptr mbind option_bind].
  - destruct (Compare cell up <? 0); exact Hcase.
  - destruct (negb (MayContainAll _ _)); [reflexivity|].
    destruct (Compare cell up <? 0); exact Hcase.
Qed.

End ColumnPredicate.

(** An instance used to run the model: integer cells with the three-way
    comparison of integers, hashed through their four little-endian bytes,
    and a filter check that looks for the first probed byte in the filter. *)
Definition example_Compare (a b : Z) : Z :=
  if a <? b then -1 else if b <? a then 1 else 0.

Definition byte_of_Z (z : Z) : Byte.byte :=
  match Byte.of_N (Z.to_N (z mod 256)) with
  | Some b => b
  | Datatypes.None => Byte.x00
  end.

Definition example_cell_slice (z : Z) : Slice :=
  map (fun i => byte_of_Z (Z.shiftr z (8 * Z.of_nat i))) (seq 0 4).

Lemma example_Compare_eq a b : example_Compare a b = 0 <-> a = b.
Proof.
  unfold example_Compare. destruct (Z.ltb_spec a b), (Z.ltb_spec b a); lia.
Qed.

Lemma example_Compare_antisym a b :
  example_Compare a b < 0 <-> 0 < example_Compare b a.
Proof.
  unfold example_Compare. destruct (Z.ltb_spec a b), (Z.ltb_spec b a); lia.
Qed.

Lemma example_Compare_trans a b c :
  example_Compare a b < 0 -> example_Compare b c < 0 -> example_Compare a c < 0.
Proof.
  unfold example_Compare.
  destruct (Z.ltb_spec a b), (Z.ltb_spec b a), (Z.ltb_spec b c),
    (Z.ltb_spec c b), (Z.ltb_spec a c), (Z.ltb_spec c a); lia.
Qed.

Lemma example_consecutive lo up :
  (lo + 1 =? up) = true ->
  forall c, (0 <= example_Compare c lo /\ example_Compare c up < 0) <-> c = lo.
Proof.
  intros Hcons%Z.eqb_eq c. unfold example_Compare.
  destruct (Z.ltb_spec c lo), (Z.ltb_spec lo c), (Z.ltb_spec c up),
    (Z.ltb_spec up c); lia.
Qed.

#[export] Instance example_traits : DataTypeTraits Z :=
  {| Compare := example_Compare;
     cell_slice := example_cell_slice;
     AreConsecutive := fun lo up => lo + 1 =? up;
     Compare_eq := example_Compare_eq;
     Compare_antisym := example_Compare_antisym;
     Compare_trans := example_Compare_trans;
     AreConsecutive_spec := example_consecutive |}.

Definition example_probe (s : Slice) (algo : HashAlgorithm) : Slice := s.

Definition example_MayContainKey (data : Slice) (nhash : N) (probe : Slice)
  : bool :=
  match probe with
  | [] => true
  | b :: _ => existsb (Byte.eqb b) data
  end.

Definition example_column : ColumnSchema :=
  {| name := "c0"; is_nullable := true |}.

Definition example_predicate (kind : PredicateType.t) (lo up : option Z)
    (values : list Z) (filters : list BloomFilterInner) : ColumnPredicate :=
  {| predicate_type_ := kind; column_ := example_column;
     lower_ := lo; upper_ := up; values_ := values; bloom_filters_ := filters |}.

Definition example_range (lo up : Z) : ColumnPredicate :=
  example_predicate PredicateType.Range (Some lo) (Some up) [] [].

Definition example_in_list : ColumnPredicate :=
  example_predicate PredicateType.InList Datatypes.None Datatypes.None
                    [1; 3; 5; 7; 9] [].

(** Scenario P1 of the specification: [10, 20) merged with [15, 25). *)
Example merge_ranges :
  Merge example_probe example_MayContainKey (example_range 10 20) (example_range 15 25)
  = example_range 15 20.
Proof. reflexivity. Qed.

(** Scenario P3: the list {1,3,5,7,9} merged with [3, 8) and with [5, 6). *)
Example merge_list_range :
  Merge example_probe example_MayContainKey example_in_list (example_range 3 8)
  = example_predicate PredicateType.InList Datatypes.None Datatypes.None [3; 5; 7] []
  /\ Merge example_probe example_MayContainKey example_in_list (example_range 5 6)
     = example_predicate PredicateType.Equality (Some 5) Datatypes.None [] [].
Proof. split; reflexivity. Qed.

Example evaluate_in_list :
  EvaluateCell example_probe example_MayContainKey example_in_list 7 = Some true
  /\ EvaluateCell example_probe example_MayContainKey example_in_list 4 = Some false.
Proof. split; reflexivity. Qed.

Lemma EvaluateCell_spec_witness :
  canonical example_in_list = true
  /\ exists b,
       EvaluateCell example_probe example_MayContainKey example_in_list 7 = Some b
       /\ (b = true <-> 7 ∈ values_ example_in_list).
Proof.
  split; [reflexivity|].
  exact (EvaluateCell_spec example_probe example_MayContainKey
           example_in_list 7 eq_refl).
Defined.

Lemma Merge_is_intersection_witness :
  canonical (example_range 10 20) = true
  /\ canonical example_in_list = true
  /\ column_ (example_range 10 20) = column_ example_in_list
  /\ exists bp bq,
       matches example_probe example_MayContainKey (example_range 10 20) (Some 7)
         = Some bp
       /\ matches example_probe example_MayContainKey example_in_list (Some 7)
          = Some bq
       /\ matches example_probe example_MayContainKey
            (Merge example_probe example_MayContainKey
                   (example_range 10 20) example_in_list) (Some 7)
          = Some (bp && bq).
Proof.
  split; [reflexivity|]. split; [reflexivity|]. split; [reflexivity|].
  exact (Merge_is_intersection example_probe example_MayContainKey
           (example_range 10 20) example_in_list (Some 7)
           eq_refl eq_refl eq_refl).
Defined.


Lemma InList_no_false_positive_witness :
  EvaluateCell example_probe example_MayContainKey
    (example_predicate PredicateType.InList Datatypes.None Datatypes.None
                       [9; 3; 7] []) 7 = Some true
  /\ 7 ∈ [9; 3; 7].
Proof.
  split; [reflexivity|].
  exact (InList_no_false_positive example_probe example_MayContainKey
           (example_predicate PredicateType.InList Datatypes.None
                              Datatypes.None [9; 3; 7] [])
           7 eq_refl eq_refl).
Defined.

(** The converse of X7 does need a sorted list: 3 is in [[9; 3; 7]] and the
    search misses it. *)
Example unsorted_list_misses :
  EvaluateCell example_probe example_MayContainKey
    (example_predicate PredicateType.InList Datatypes.None Datatypes.None
                       [9; 3; 7] []) 3 = Some false.
Proof. reflexivity. Qed.

Lemma empty_range_selects_nothing_witness :
  0 <= Compare 20 10
  /\ EvaluateCell example_probe example_MayContainKey (example_range 20 10) 15
     = Some false.
Proof.
  assert (Hemp : 0 <= Compare 20 10) by (vm_compute; discriminate).
  split; [exact Hemp|].
  exact (empty_range_selects_nothing example_probe example_MayContainKey
           (example_range 20 10) 15 20 10 (or_introl eq_refl)
           eq_refl eq_refl Hemp).
Defined.

End Predicate.

(** * The block cache exercised by [src/kudu/util/cache-test.cc]

    [cache.h] and [cache.cc] are not among the sources; only the test is.
    The definitions of this module follow the specification (sections 3.6
    and 4.3) and agree with the scenarios of the test, which are replayed
    below.  Metrics and the memory tracker are left out. *)
Module Cache.

Inductive EvictionPolicy := FIFO | LRU.

Section Shard.

Context {Key Value : Type} `{EqDecision Key}.

(** Modelled from the spec: a cache entry, "{key, value, charge, pinned?,
    in-cache?, eviction-list-node}".  [e_id] names the allocation (handles
    refer to it), [e_pins] counts the live handles, [e_cb] says whether an
    eviction callback was registered with the insert.  Being in the cache and
    the position in the eviction list are given by the shard. *)
Record Entry := {
  e_id : nat;
  e_key : Key;
  e_value : Value;
  e_charge : nat;
  e_pins : nat;
  e_cb : bool
}.

Definition with_pins (e : Entry) (n : nat) : Entry :=
  {| e_id := e_id e; e_key := e_key e; e_value := e_value e;
     e_charge := e_charge e; e_pins := n; e_cb := e_cb e |}.

Definition pinned (e : Entry) : bool := negb (e_pins e =? 0)%nat.
Definition unpinned (e : Entry) : bool := (e_pins e =? 0)%nat.
Definition has_key (k : Key) (e : Entry) : bool := bool_decide (e_key e = k).
Definition has_id (h : nat) (e : Entry) : bool := (e_id e =? h)%nat.

(** Modelled from the spec: what the outside observes of the end of an
    entry: the eviction callback with the key and value slices, then the
    release of its memory. *)
Inductive Event :=
| EvictedEntry (id : nat) (k : Key) (v : Value)
| Freed (id : nat).

Definition event_id (ev : Event) : nat :=
  match ev with EvictedEntry i _ _ => i | Freed i => i end.

(** Modelled from the spec: "releasing the last handle for an erased or
    evicted entry triggers the registered eviction callback with (key, value)
    slices, then frees memory". *)
Definition free_events (e : Entry) : list Event :=
  (if e_cb e then [EvictedEntry (e_id e) (e_key e) (e_value e)] else [])
  ++ [Freed (e_id e)].

(** Modelled from the spec: a shard, "a hash table plus an eviction
    structure" with a capacity.  [in_cache] lists the entries of the table
    in eviction order (the head is evicted first); [detached] holds the
    entries that were erased, evicted or superseded while handles to them
    are alive; [events] is the history of callbacks and frees. *)
Record CacheShard := {
  policy : EvictionPolicy;
  capacity : nat;
  in_cache : list Entry;
  detached : list Entry;
  events : list Event;
  next_id : nat
}.

Definition new_shard (pol : EvictionPolicy) (cap : nat) : CacheShard :=
  {| policy := pol; capacity := cap; in_cache := []; detached := [];
     events := []; next_id := 0 |}.

Definition usage (l : list Entry) : nat := sum_list (map e_charge l).

(** Modelled from the spec: what happens to entries that leave the cache
    (erased, superseded or invalidated): those without a handle are freed at
    once (callback, then memory), the others wait in [detached] until "the
    last handle drops". *)
Definition retire (removed kept : list Entry) (s : CacheShard) : CacheShard :=
  {| policy := policy s; capacity := capacity s;
     in_cache := kept;
     detached := detached s ++ List.filter pinned removed;
     events := events s ++ flat_map free_events (List.filter unpinned removed);
     next_id := next_id s |}.

(** Modelled from the spec: [erase(key)], "marks the entry erased; it
    becomes invisible to future lookups and is freed when the last handle
    drops". *)
Definition Erase (k : Key) (s : CacheShard) : CacheShard :=
  retire (List.filter (has_key k) (in_cache s))
         (List.filter (fun e => negb (has_key k e)) (in_cache s)) s.

(** Modelled from the spec: [lookup(key)], "finds the entry, increments its
    pin count, and for LRU policy promotes it to MRU"; under FIFO the entry
    stays where it is. *)
Definition Lookup (k : Key) (s : CacheShard) : option nat * CacheShard :=
  match List.find (has_key k) (in_cache s) with
  | None => (None, s)
  | Some e =>
      let pin x := with_pins x (S (e_pins x)) in
      (Some (e_id e),
       {| policy := policy s; capacity := capacity s;
          in_cache :=
            match policy s with
            | FIFO => map (fun x => if has_id (e_id e) x then pin x else x)
                          (in_cache s)
            | LRU => List.filter (fun x => negb (has_id (e_id e) x)) (in_cache s)
                     ++ [pin e]
            end;
          detached := detached s; events := events s; next_id := next_id s |})
  end.

(** Modelled from the spec: dropping a handle.  The pin count of its entry
    goes down by one; a detached entry whose last handle is dropped is
    freed. *)
Definition Release (h : nat) (s : CacheShard) : CacheShard :=
  let unpin x := if has_id h x then with_pins x (pred (e_pins x)) else x in
  let det := map unpin (detached s) in
  {| policy := policy s; capacity := capacity s;
     in_cache := map unpin (in_cache s);
     detached := List.filter pinned det;
     events := events s ++ flat_map free_events (List.filter unpinned det);
     next_id := next_id s |}.

(** Modelled from the spec: eviction "on capacity pressure", from the head
    of the eviction list; it "skips pinned entries" and stops as soon as the
    usage fits the capacity (or the list is exhausted: "capacity is soft").
    The result is the victims and the entries kept, both in list order. *)
Fixpoint evict (cap use : nat) (l : list Entry) : list Entry * list Entry :=
  match l with
  | [] => ([], [])
  | e :: rest =>
      if (use <=? cap)%nat then ([], l)
      else if unpinned e
           then let '(victims, kept) := evict cap (use - e_charge e) rest in
                (e :: victims, kept)
           else let '(victims, kept) := evict cap use rest in
                (victims, e :: kept)
  end.

(** Modelled from the spec: a successful [allocate] followed by [insert]:
    the new entry supersedes a prior entry with the same key ("marked
    erased"), goes to the tail of the eviction list pinned by the handle that
    is returned, and unpinned entries are evicted while the usage exceeds the
    capacity. *)
Definition Insert (k : Key) (v : Value) (charge : nat) (cb : bool)
    (s : CacheShard) : nat * CacheShard :=
  let s1 := Erase k s in
  let e := {| e_id := next_id s; e_key := k; e_value := v;
              e_charge := charge; e_pins := 1; e_cb := cb |} in
  let l := in_cache s1 ++ [e] in
  let '(victims, kept) := evict (capacity s) (usage l) l in
  (next_id s,
   {| policy := policy s; capacity := capacity s;
      in_cache := kept;
      detached := detached s1;
      events := events s1 ++ flat_map free_events victims;
      next_id := S (next_id s) |}).

(** Modelled from the spec: [InvalidationControl] and its defaults, "all
    entries invalid" and "always advance". *)
Record InvalidationControl := {
  validity_func : Key -> Value -> bool;
  iteration_func : nat -> nat -> bool
}.

Definition kInvalidateAllEntriesFunc : Key -> Value -> bool := fun _ _ => false.
Definition kIterateOverAllEntriesFunc : nat -> nat -> bool := fun _ _ => true.

Definition default_ctl : InvalidationControl :=
  {| validity_func := kInvalidateAllEntriesFunc;
     iteration_func := kIterateOverAllEntriesFunc |}.

(** Modelled from the spec: the walk of [invalidate] over the eviction list.
    The iteration function is asked, with the counts so far, before each
    entry is looked at (with a function that never advances no entry is
    invalidated, as [InvalidateNoEntriesNoAdvanceIterationFunctor] checks).
    The result is the entries removed and the entries kept. *)
Fixpoint invalidate_walk (ctl : InvalidationControl) (l : list Entry)
    (valid_count invalid_count : nat) : list Entry * list Entry :=
  match l with
  | [] => ([], [])
  | e :: rest =>
      if iteration_func ctl valid_count invalid_count then
        if validity_func ctl (e_key e) (e_value e)
        then let '(removed, kept) :=
               invalidate_walk ctl rest (S valid_count) invalid_count in
             (removed, e :: kept)
        else let '(removed, kept) :=
               invalidate_walk ctl rest valid_count (S invalid_count) in
             (e :: removed, kept)
      else ([], l)
  end.

(** Modelled from the spec: [invalidate(ctl)] on one shard; it returns the
    number of invalidated entries. *)
Definition Invalidate (ctl : InvalidationControl) (s : CacheShard)
  : nat * CacheShard :=
  let '(removed, kept) := invalidate_walk ctl (in_cache s) 0 0 in
  (length removed, retire removed kept s).

(** Modelled from the spec: the sharded cache invalidates shard by shard
    and adds up the counts. *)
Definition ShardedInvalidate (ctl : InvalidationControl)
    (shards : list CacheShard) : nat * list CacheShard :=
  (sum_list (map (fun s => fst (Invalidate ctl s)) shards),
   map (fun s => snd (Invalidate ctl s)) shards).

(** Modelled from the spec: an operation on a key goes to the shard
    selected by "hash(key) mod S". *)
Definition ShardedErase (hash : Key -> nat) (k : Key)
    (shards : list CacheShard) : list CacheShard :=
  alter (Erase k) (hash k mod length shards)%nat shards.

Definition ShardedLookup (hash : Key -> nat) (k : Key)
    (shards : list CacheShard) : option Value :=
  s ← shards !! (hash k mod length shards)%nat;
  e ← List.find (has_key k) (in_cache s);
  Some (e_value e).

(** The calls a client can make on a shard. *)
Inductive Op :=
| OpInsert (k : Key) (v : Value) (charge : nat) (cb : bool)
| OpLookup (k : Key)
| OpRelease (h : nat)
| OpErase (k : Key)
| OpInvalidate (ctl : InvalidationControl).

Definition step (s : CacheShard) (op : Op) : CacheShard :=
  match op with
  | OpInsert k v charge cb => snd (Insert k v charge cb s)
  | OpLookup k => snd (Lookup k s)
  | OpRelease h => Release h s
  | OpErase k => Erase k s
  | OpInvalidate ctl => snd (Invalidate ctl s)
  end.

Definition run (s : CacheShard) (ops : list Op) : CacheShard :=
  foldl step s ops.

(** The entries that exist: in the cache or detached. *)
Definition live (s : CacheShard) : list Entry := in_cache s ++ detached s.

(** The value a lookup of [k] would expose. *)
Definition peek (k : Key) (s : CacheShard) : option Value :=
  e ← List.find (has_key k) (in_cache s); Some (e_value e).

(** The value behind a handle, [cache_->Value(handle)]. *)
Definition handle_value (h : nat) (s : CacheShard) : option Value :=
  e ← List.find (has_id h) (live s); Some (e_value e).

(** The helpers of [CacheBaseTest]: [Insert] drops its handle at once,
    [Lookup] reads the value and drops the handle, and the callback records
    the evicted keys and values. *)
Definition test_Insert (k : Key) (v : Value) (charge : nat) (s : CacheShard)
  : CacheShard :=
  let '(h, s1) := Insert k v charge true s in Release h s1.

Definition test_Lookup (k : Key) (s : CacheShard) : option Value * CacheShard :=
  match Lookup k s with
  | (Some h, s1) => (handle_value h s1, Release h s1)
  | (None, s1) => (None, s1)
  end.

Definition evicted (s : CacheShard) : list (Key * Value) :=
  flat_map (fun ev => match ev with
                      | EvictedEntry _ k v => [(k, v)]
                      | Freed _ => []
                      end) (events s).

(** *** Erase *)

Lemma filter_none {A} (f : A -> bool) (l : list A) :
  List.find f l = None -> List.filter f l = [] /\ List.filter (fun x => negb (f x)) l = l.
Proof.
  induction l as [|x l IH]; [done|]. cbn [List.find List.filter].
  destruct (f x); [discriminate|]. intros Hf. destruct (IH Hf) as [-> ->]. done.
Qed.

Lemma find_filter_neg {A} (f : A -> bool) (l : list A) :
  List.find f (List.filter (fun x => negb (f x)) l) = None.
Proof.
  induction l as [|x l IH]; [done|]. cbn [List.filter].
  destruct (f x) eqn:Hx; cbn [negb]; [exact IH|].
  cbn [List.find]. by rewrite Hx.
Qed.

Lemma find_none_peek (k : Key) (s : CacheShard) :
  peek k s = None <-> List.find (has_key k) (in_cache s) = None.
Proof. unfold peek. by destruct (List.find _ _). Qed.

Lemma retire_nothing (s : CacheShard) : retire [] (in_cache s) s = s.
Proof.
  destruct s. unfold retire. cbn. by rewrite !app_nil_r.
Qed.

Lemma Erase_absent_id (k : Key) (s : CacheShard) :
  peek k s = None -> Erase k s = s.
Proof.
  intros Hf%find_none_peek. unfold Erase.
  destruct (filter_none _ _ Hf) as [-> ->]. apply retire_nothing.
Qed.

Lemma peek_Erase (k : Key) (s : CacheShard) : peek k (Erase k s) = None.
Proof. apply find_none_peek. cbn. apply find_filter_neg. Qed.

(** C10. Erasing a key that is not in the cache leaves the shard as it is:
    no event (callback or free) is added and every lookup answers as
    before.  After an erase the key is absent, so a second erase is such a
    no-op; and the sharded cache, which erases in the shard of the key, is
    unchanged as well. *)
Theorem Erase_absent (k : Key) (s : CacheShard) :
  peek k (Erase k s) = None
  /\ Erase k (Erase k s) = Erase k s
  /\ (peek k s = None ->
      Erase k s = s
      /\ events (Erase k s) = events s
      /\ evicted (Erase k s) = evicted s
      /\ (forall k', Lookup k' (Erase k s) = Lookup k' s)
      /\ (forall k', peek k' (Erase k s) = peek k' s)
      /\ forall (hash : Key -> nat) (shards : list CacheShard),
           shards !! (hash k mod length shards)%nat = Some s ->
           ShardedErase hash k shards = shards
           /\ forall k', ShardedLookup hash k' (ShardedErase hash k shards)
                         = ShardedLookup hash k' shards).
Proof.
  split; [apply peek_Erase|].
  split; [apply Erase_absent_id, peek_Erase|].
  intros Habs. rewrite (Erase_absent_id k s Habs).
  do 5 (split; [reflexivity|]).
  intros hash shards Hs.
  assert (Heq : ShardedErase hash k shards = shards).
  { unfold ShardedErase. apply list_eq. intros i.
    destruct (decide (i = hash k mod length shards)%nat) as [->|Hne].
    - rewrite list_lookup_alter_eq, Hs. cbn. by rewrite Erase_absent_id.
    - by rewrite list_lookup_alter_ne. }
  split; [exact Heq|]. intros k'. by rewrite Heq.
Qed.

(** *** Invalidate *)

Section Invalidate.

Variable ctl : InvalidationControl.

Definition valid (e : Entry) : bool := validity_func ctl (e_key e) (e_value e).
Definition invalid (e : Entry) : bool := negb (valid e).

Lemma invalidate_walk_spec (l : list Entry) (valid_count invalid_count : nat) :
  exists visited unvisited,
    l = visited ++ unvisited
    /\ (forall i e, visited !! i = Some e ->
          iteration_func ctl
            (valid_count + length (List.filter valid (take i visited)))
            (invalid_count + length (List.filter invalid (take i visited))) = true)
    /\ (unvisited <> [] ->
          iteration_func ctl
            (valid_count + length (List.filter valid visited))
            (invalid_count + length (List.filter invalid visited)) = false)
    /\ invalidate_walk ctl l valid_count invalid_count
       = (List.filter invalid visited, List.filter valid visited ++ unvisited).
Proof.
  revert valid_count invalid_count.
  induction l as [|e rest IH]; intros vc ic.
  - exists [], []. repeat split; try done.
  - cbn [invalidate_walk].
    destruct (iteration_func ctl vc ic) eqn:Hit.
    + fold (valid e). destruct (valid e) eqn:Hv.
      * assert (Hi : invalid e = false) by (unfold invalid; by rewrite Hv).
        destruct (IH (S vc) ic) as (vis & unvis & -> & Hvis & Hstop & ->).
        exists (e :: vis), unvis.
        split; [reflexivity|]. split; [|split].
        -- intros [|i] x Hx; cbn [take List.filter length];
             rewrite ?Hv, ?Hi; cbn [length];
             rewrite ?Nat.add_0_r, ?Nat.add_succ_r; [exact Hit | by eapply Hvis].
        -- intros Hne. cbn [List.filter]. rewrite Hv, Hi. cbn [length].
           rewrite Nat.add_succ_r. by apply Hstop.
        -- cbn [List.filter]. rewrite Hv, Hi. reflexivity.
      * assert (Hi : invalid e = true) by (unfold invalid; by rewrite Hv).
        destruct (IH vc (S ic)) as (vis & unvis & -> & Hvis & Hstop & ->).
        exists (e :: vis), unvis.
        split; [reflexivity|]. split; [|split].
        -- intros [|i] x Hx; cbn [take List.filter length];
             rewrite ?Hv, ?Hi; cbn [length];
             rewrite ?Nat.add_0_r, ?Nat.add_succ_r; [exact Hit | by eapply Hvis].
        -- intros Hne. cbn [List.filter]. rewrite Hv, Hi. cbn [length].
           rewrite Nat.add_succ_r. by apply Hstop.
        -- cbn [List.filter]. rewrite Hv, Hi. reflexivity.
    + exists [], (e :: rest). cbn. rewrite !Nat.add_0_r.
      repeat split; try done.
Qed.

End Invalidate.

(** C6. [Invalidate] walks the eviction list of a shard in policy order.
    The entries it visits are a prefix of the list: the iteration function,
    given the numbers of valid and invalid entries seen so far, returned
    true before each visited entry and false before the first unvisited one.
    Exactly the visited entries whose validity function returns false are
    erased (removed from the cache and retired), and their number is
    returned.  With the defaults every entry is erased; with an iteration
    function that never advances nothing changes and the count is 0.  The
    sharded cache applies this to every shard and adds the counts. *)
Theorem Invalidate_spec (ctl : InvalidationControl) (s : CacheShard) :
  (exists visited unvisited,
     in_cache s = visited ++ unvisited
     /\ (forall i e, visited !! i = Some e ->
           iteration_func ctl
             (length (List.filter (valid ctl) (take i visited)))
             (length (List.filter (invalid ctl) (take i visited))) = true)
     /\ (unvisited <> [] ->
           iteration_func ctl
             (length (List.filter (valid ctl) visited))
             (length (List.filter (invalid ctl) visited)) = false)
     /\ fst (Invalidate ctl s) = length (List.filter (invalid ctl) visited)
     /\ snd (Invalidate ctl s)
        = retire (List.filter (invalid ctl) visited)
                 (List.filter (valid ctl) visited ++ unvisited) s)
  /\ Invalidate default_ctl s = (length (in_cache s), retire (in_cache s) [] s)
  /\ ((forall a b, iteration_func ctl a b = false) -> Invalidate ctl s = (0%nat, s))
  /\ (forall shards : list CacheShard,
        fst (ShardedInvalidate ctl shards)
        = sum_list (map (fun sh => fst (Invalidate ctl sh)) shards)
        /\ forall i sh, shards !! i = Some sh ->
             snd (ShardedInvalidate ctl shards) !! i = Some (snd (Invalidate ctl sh))).
Proof.
  split; [|split; [|split]].
  - destruct (invalidate_walk_spec ctl (in_cache s) 0 0)
      as (vis & unvis & Hl & Hvis & Hstop & Hwalk).
    exists vis, unvis. unfold Invalidate. rewrite Hwalk. cbn [fst snd].
    repeat split; auto.
  - unfold Invalidate.
    assert (Hall : forall l a b,
               invalidate_walk default_ctl l a b = (l, [])).
    { induction l as [|e l IH]; intros a b; [reflexivity|].
      cbn. by rewrite IH. }
    by rewrite Hall.
  - intros Hnever. unfold Invalidate.
    assert (Hstop : forall l, invalidate_walk ctl l 0 0 = ([], l)).
    { intros [|e l]; [reflexivity|]. cbn [invalidate_walk]. by rewrite Hnever. }
    rewrite Hstop. cbn [length]. by rewrite retire_nothing.
  - intros shards. split; [reflexivity|].
    intros i sh Hsh. unfold ShardedInvalidate. cbn [snd].
    by rewrite list_lookup_fmap, Hsh.
Qed.

(** *** The shape of a step

    Every operation updates pin counts in place, frees some entries that
    have no handle, moves entries between the cache and [detached], and may
    add one new entry. *)

Local Open Scope nat_scope.

Definition ids (l : list Entry) : list nat := map e_id l.

Definition same_entry (x y : Entry) : Prop :=
  e_id y = e_id x /\ e_key y = e_key x /\ e_value y = e_value x
  /\ e_charge y = e_charge x /\ e_cb y = e_cb x.

Record step_shape (s s' : CacheShard) (released : option nat)
    (upd : Entry -> Entry) (freed added : list Entry) : Prop := {
  shape_same : forall x, same_entry x (upd x);
  shape_pins : forall x,
    e_pins x <= e_pins (upd x)
    \/ (released = Some (e_id x) /\ e_pins (upd x) = pred (e_pins x));
  shape_live : live s' ++ freed ≡ₚ map upd (live s) ++ added;
  shape_events : events s' = events s ++ flat_map free_events freed;
  shape_freed : Forall (fun x => unpinned x = true) freed;
  shape_added : Forall (fun x => e_id x = next_id s) added /\ length added <= 1;
  shape_next : next_id s' = length added + next_id s;
  shape_detached : Forall (fun x => pinned x = true) (detached s')
}.

(** The invariant of a shard: entries, alive or freed, have distinct ids
    below [next_id]; the history is that of the freed entries; detached
    entries are pinned. *)
Definition wf (s : CacheShard) : Prop :=
  exists gone : list Entry,
    events s = flat_map free_events gone
    /\ NoDup (ids (live s ++ gone))
    /\ Forall (fun x => e_id x < next_id s) (live s ++ gone)
    /\ Forall (fun x => pinned x = true) (detached s).

Lemma elem_of_ids (x : Entry) (l : list Entry) : x ∈ l -> e_id x ∈ ids l.
Proof. intros Hx%list_elem_of_In. by apply list_elem_of_In, in_map. Qed.

Lemma elem_of_ids_inv (i : nat) (l : list Entry) :
  i ∈ ids l -> exists x, x ∈ l /\ e_id x = i.
Proof.
  intros (x & Hx & Hin)%list_elem_of_In%in_map_iff.
  exists x. split; [by apply list_elem_of_In | done].
Qed.

Lemma same_entry_refl x : same_entry x x.
Proof. by repeat split. Qed.

Lemma same_entry_with_pins x n : same_entry x (with_pins x n).
Proof. by repeat split. Qed.

Lemma ids_map_upd (upd : Entry -> Entry) l :
  (forall x, same_entry x (upd x)) -> ids (map upd l) = ids l.
Proof.
  intros Hsame. unfold ids. rewrite map_map. apply map_ext.
  intros x. by destruct (Hsame x).
Qed.

Lemma partition_perm {A} (f : A -> bool) (l : list A) :
  l ≡ₚ List.filter f l ++ List.filter (fun x => negb (f x)) l.
Proof.
  induction l as [|x l IH]; [done|]. cbn [List.filter].
  destruct (f x); cbn [negb app].
  - by constructor.
  - rewrite <- Permutation_middle. by constructor.
Qed.

Lemma partition_pinned (l : list Entry) :
  l ≡ₚ List.filter pinned l ++ List.filter unpinned l.
Proof.
  rewrite (partition_perm pinned l) at 1. apply Permutation_app_head.
  erewrite filter_ext; [done|]. intros x. unfold pinned. by rewrite negb_involutive.
Qed.

Lemma filter_pinned_all (l : list Entry) :
  Forall (fun x => pinned x = true) (List.filter pinned l).
Proof. apply Forall_forall. intros x Hx%list_elem_of_In%filter_In. tauto. Qed.

Lemma filter_unpinned_all (l : list Entry) :
  Forall (fun x => unpinned x = true) (List.filter unpinned l).
Proof. apply Forall_forall. intros x Hx%list_elem_of_In%filter_In. tauto. Qed.

(** Retiring a part of the cache. *)
Lemma retire_shape (s : CacheShard) (removed kept : list Entry) :
  in_cache s ≡ₚ removed ++ kept ->
  Forall (fun x => pinned x = true) (detached s) ->
  step_shape s (retire removed kept s) None (fun x => x)
             (List.filter unpinned removed) [].
Proof.
  intros Hperm Hdet.
  split; unfold live, retire; cbn [in_cache detached events next_id].
  - apply same_entry_refl.
  - intros x. left. lia.
  - rewrite map_id, app_nil_r, Hperm.
    transitivity ((List.filter pinned removed ++ List.filter unpinned removed)
                  ++ kept ++ detached s); [solve_Permutation|].
    rewrite <- (partition_pinned removed). solve_Permutation.
  - reflexivity.
  - apply filter_unpinned_all.
  - split; [constructor | cbn; lia].
  - reflexivity.
  - apply Forall_app. split; [exact Hdet | apply filter_pinned_all].
Qed.

Lemma wf_NoDup_live s : wf s -> NoDup (ids (live s)).
Proof.
  intros (gone & _ & Hnd & _). unfold ids in *. rewrite map_app in Hnd.
  by apply NoDup_app in Hnd as [? _].
Qed.

Lemma wf_detached s : wf s -> Forall (fun x => pinned x = true) (detached s).
Proof. by intros (gone & _ & _ & _ & ?). Qed.

Lemma Erase_shape k s :
  wf s ->
  step_shape s (Erase k s) None (fun x => x)
    (List.filter unpinned (List.filter (has_key k) (in_cache s))) [].
Proof.
  intros Hwf. apply retire_shape; [apply partition_perm | by apply wf_detached].
Qed.

Lemma Invalidate_shape ctl s :
  wf s ->
  exists freed, step_shape s (snd (Invalidate ctl s)) None (fun x => x) freed [].
Proof.
  intros Hwf. unfold Invalidate.
  destruct (invalidate_walk_spec ctl (in_cache s) 0 0)
    as (vis & unvis & Hl & _ & _ & ->).
  eexists. cbn [snd]. apply retire_shape; [|by apply wf_detached].
  rewrite Hl, (partition_perm (valid ctl) vis) at 1.
  unfold invalid. solve_Permutation.
Qed.

(** Entries without the id are untouched by an update of that id. *)
Lemma no_id_match (h : nat) (f : Entry -> Entry) (l : list Entry) :
  h ∉ ids l ->
  map (fun x => if has_id h x then f x else x) l = l
  /\ List.filter (fun x => negb (has_id h x)) l = l.
Proof.
  induction l as [|x l IH]; [done|]. cbn [ids map List.filter].
  intros Hn. apply not_elem_of_cons in Hn as [Hx Hl].
  destruct (IH Hl) as [IH1 IH2].
  destruct (has_id h x) eqn:Hid.
  - apply Nat.eqb_eq in Hid. congruence.
  - cbn [negb]. by rewrite IH1, IH2.
Qed.

Lemma promote_perm (e : Entry) (f : Entry -> Entry) (l : list Entry) :
  NoDup (ids l) -> e ∈ l ->
  List.filter (fun x => negb (has_id (e_id e) x)) l ++ [f e]
  ≡ₚ map (fun x => if has_id (e_id e) x then f x else x) l.
Proof.
  induction l as [|x l IH]; intros Hnd Hin; [by apply elem_of_nil in Hin|].
  cbn [ids map] in Hnd. apply NoDup_cons in Hnd as [Hx Hnd].
  cbn [map List.filter].
  apply elem_of_cons in Hin as [->|Hin].
  - assert (Hid : has_id (e_id x) x = true) by apply Nat.eqb_refl.
    rewrite Hid. cbn [negb].
    destruct (no_id_match (e_id x) f l Hx) as [Hm Hf]. rewrite Hm, Hf.
    by rewrite Permutation_app_comm.
  - destruct (has_id (e_id e) x) eqn:Hid.
    + apply Nat.eqb_eq in Hid.
      exfalso. apply Hx. rewrite Hid. by apply elem_of_ids.
    + cbn [negb app]. constructor. by apply IH.
Qed.

Lemma find_elem_of {A} (f : A -> bool) (l : list A) (x : A) :
  List.find f l = Some x -> x ∈ l /\ f x = true.
Proof. intros [Hin Hf]%find_some. split; [by apply list_elem_of_In | done]. Qed.

Lemma Lookup_shape k s :
  wf s ->
  exists upd, step_shape s (snd (Lookup k s)) None upd [] [].
Proof.
  intros Hwf. pose proof (wf_NoDup_live s Hwf) as Hnd.
  pose proof (wf_detached s Hwf) as Hdet.
  unfold Lookup. destruct (List.find (has_key k) (in_cache s)) as [e|] eqn:Hfind.
  - apply find_elem_of in Hfind as [Hin _].
    set (pin := fun x => with_pins x (S (e_pins x))).
    exists (fun x => if has_id (e_id e) x then pin x else x).
    unfold live, ids in Hnd. rewrite map_app in Hnd.
    apply NoDup_app in Hnd as (Hndc & Hdisj & _).
    assert (Hnotdet : e_id e ∉ ids (detached s)).
    { apply Hdisj. by apply elem_of_ids. }
    destruct (no_id_match (e_id e) pin (detached s) Hnotdet) as [Hmapdet _].
    split; cbn [snd in_cache detached events next_id]; unfold live;
      cbn [in_cache detached].
    + intros x. destruct (has_id (e_id e) x);
        [apply same_entry_with_pins | apply same_entry_refl].
    + intros x. left. destruct (has_id (e_id e) x); cbn; lia.
    + rewrite !app_nil_r, map_app, Hmapdet.
      apply Permutation_app_tail.
      destruct (policy s); [done|]. by apply (promote_perm e pin).
    + by rewrite app_nil_r.
    + constructor.
    + split; [constructor | cbn; lia].
    + reflexivity.
    + exact Hdet.
  - exists (fun x => x). split; cbn [snd].
    + apply same_entry_refl.
    + intros x. left. lia.
    + by rewrite map_id.
    + by rewrite app_nil_r.
    + constructor.
    + split; [constructor | cbn; lia].
    + reflexivity.
    + exact Hdet.
Qed.

Lemma Release_shape h s :
  exists freed,
    step_shape s (Release h s) (Some h)
      (fun x => if has_id h x then with_pins x (pred (e_pins x)) else x) freed [].
Proof.
  exists (List.filter unpinned
            (map (fun x => if has_id h x then with_pins x (pred (e_pins x)) else x)
                 (detached s))).
  split; unfold Release, live; cbn [in_cache detached events next_id].
  - intros x. destruct (has_id h x);
      [apply same_entry_with_pins | apply same_entry_refl].
  - intros x. destruct (has_id h x) eqn:Hid.
    + apply Nat.eqb_eq in Hid. right. by rewrite Hid.
    + left. lia.
  - rewrite app_nil_r, map_app.
    etransitivity;
      [|apply Permutation_app_head; symmetry; apply partition_pinned].
    solve_Permutation.
  - reflexivity.
  - apply filter_unpinned_all.
  - split; [constructor | cbn; lia].
  - reflexivity.
  - apply filter_pinned_all.
Qed.

Lemma evict_perm cap use l victims kept :
  evict cap use l = (victims, kept) ->
  l ≡ₚ victims ++ kept /\ Forall (fun x => unpinned x = true) victims.
Proof.
  revert use victims kept. induction l as [|e l IH]; intros use victims kept.
  - intros [= <- <-]. by split.
  - cbn [evict]. destruct (use <=? cap).
    + intros [= <- <-]. by split.
    + destruct (unpinned e) eqn:He.
      * destruct (evict cap (use - e_charge e) l) as [vs ks] eqn:Hev.
        intros [= <- <-]. destruct (IH _ _ _ Hev) as [Hp Hall].
        split; [by constructor | by constructor].
      * destruct (evict cap use l) as [vs ks] eqn:Hev.
        intros [= <- <-]. destruct (IH _ _ _ Hev) as [Hp Hall].
        split; [|done]. rewrite <- Permutation_middle. by constructor.
Qed.

Lemma Insert_shape k v charge cb s :
  wf s ->
  exists freed,
    step_shape s (snd (Insert k v charge cb s)) None (fun x => x) freed
      [{| e_id := next_id s; e_key := k; e_value := v; e_charge := charge;
          e_pins := 1; e_cb := cb |}].
Proof.
  intros Hwf. pose proof (Erase_shape k s Hwf) as He.
  unfold Insert.
  set (e := {| e_id := next_id s; e_key := k; e_value := v;
               e_charge := charge; e_pins := 1; e_cb := cb |}).
  destruct (evict (capacity s) (usage (in_cache (Erase k s) ++ [e]))
                  (in_cache (Erase k s) ++ [e])) as [victims kept] eqn:Hev.
  destruct (evict_perm _ _ _ _ _ Hev) as [Hperm Hunp].
  exists (List.filter unpinned (List.filter (has_key k) (in_cache s)) ++ victims).
  split; cbn [snd in_cache detached events next_id]; unfold live;
    cbn [in_cache detached].
  - apply same_entry_refl.
  - intros x. left. lia.
  - rewrite map_id. pose proof (shape_live _ _ _ _ _ _ He) as Hl.
    rewrite map_id, app_nil_r in Hl. unfold live in Hl. rewrite <- Hl.
    transitivity ((victims ++ kept) ++ detached (Erase k s)
                  ++ List.filter unpinned (List.filter (has_key k) (in_cache s)));
      [solve_Permutation|].
    rewrite <- Hperm. solve_Permutation.
  - rewrite (shape_events _ _ _ _ _ _ He), flat_map_app. by rewrite app_assoc.
  - apply Forall_app. split; [apply filter_unpinned_all | exact Hunp].
  - split; [by repeat constructor | cbn; lia].
  - reflexivity.
  - apply (shape_detached _ _ _ _ _ _ He).
Qed.

Lemma step_has_shape s op :
  wf s ->
  exists released upd freed added,
    step_shape s (step s op) released upd freed added
    /\ (forall h, released = Some h -> op = OpRelease h).
Proof.
  intros Hwf. destruct op as [k v charge cb|k|h|k|ctl]; cbn [step].
  - destruct (Insert_shape k v charge cb s Hwf) as [freed Hs].
    do 4 eexists. split; [exact Hs | done].
  - destruct (Lookup_shape k s Hwf) as [upd Hs].
    do 4 eexists. split; [exact Hs | done].
  - destruct (Release_shape h s) as [freed Hs].
    do 4 eexists. split; [exact Hs | by intros ? [= <-]].
  - do 4 eexists. split; [by apply Erase_shape | done].
  - destruct (Invalidate_shape ctl s Hwf) as [freed Hs].
    do 4 eexists. split; [exact Hs | done].
Qed.

(** *** The invariant is kept by every step *)

Lemma ids_app l1 l2 : ids (l1 ++ l2) = ids l1 ++ ids l2.
Proof. apply map_app. Qed.

Lemma ids_perm l1 l2 : l1 ≡ₚ l2 -> ids l1 ≡ₚ ids l2.
Proof. intros Hp. unfold ids. by apply Permutation_map. Qed.

Lemma NoDup_ids_inj (l : list Entry) (x y : Entry) :
  NoDup (ids l) -> x ∈ l -> y ∈ l -> e_id x = e_id y -> x = y.
Proof.
  induction l as [|z l IH]; intros Hnd Hx Hy Heq; [by apply elem_of_nil in Hx|].
  cbn [ids map] in Hnd. apply NoDup_cons in Hnd as [Hz Hnd].
  apply elem_of_cons in Hx as [->|Hx]; apply elem_of_cons in Hy as [->|Hy].
  - done.
  - exfalso. apply Hz. rewrite Heq. by apply elem_of_ids.
  - exfalso. apply Hz. rewrite <- Heq. by apply elem_of_ids.
  - by apply IH.
Qed.

Lemma event_id_free (ev : Event) (l : list Entry) :
  ev ∈ flat_map free_events l -> event_id ev ∈ ids l.
Proof.
  intros (x & Hx & Hev)%list_elem_of_In%in_flat_map.
  assert (event_id ev = e_id x) as ->.
  { unfold free_events in Hev. apply in_app_or in Hev as [Hev|Hev].
    - destruct (e_cb x); [|done]. by destruct Hev as [<-|[]].
    - by destruct Hev as [<-|[]]. }
  by apply elem_of_ids, list_elem_of_In.
Qed.

Lemma wf_new pol cap : wf (new_shard pol cap).
Proof. exists []. repeat split; cbn; constructor. Qed.

Lemma shape_wf s s' released upd freed added :
  wf s -> step_shape s s' released upd freed added -> wf s'.
Proof.
  intros (gone & Hev & Hnd & Hlt & Hdet) Hs.
  destruct Hs as [Hsame _ Hlive Hevents _ [Hadded Hlen] Hnext Hdet'].
  exists (gone ++ freed). split; [|split; [|split]].
  - by rewrite Hevents, Hev, flat_map_app.
  - assert (Hp : ids (live s' ++ gone ++ freed)
                 ≡ₚ ids added ++ ids (live s ++ gone)).
    { rewrite !ids_app.
      transitivity ((ids (live s') ++ ids freed) ++ ids gone); [solve_Permutation|].
      rewrite <- ids_app, (ids_perm _ _ Hlive), ids_app, (ids_map_upd upd _ Hsame).
      solve_Permutation. }
    rewrite Hp. apply NoDup_app. split; [|split; [|exact Hnd]].
    + destruct added as [|a [|b added]]; cbn in *; try lia;
        [constructor | apply NoDup_singleton].
    + intros i (a & Ha & <-)%elem_of_ids_inv (x & Hx & Hix)%elem_of_ids_inv.
      rewrite Forall_forall in Hadded, Hlt.
      specialize (Hadded a Ha). specialize (Hlt x Hx). lia.
  - assert (Hp : live s' ++ gone ++ freed ≡ₚ map upd (live s) ++ added ++ gone).
    { transitivity ((live s' ++ freed) ++ gone); [solve_Permutation|].
      rewrite Hlive. solve_Permutation. }
    rewrite Hp, Hnext. rewrite !Forall_app in *. destruct Hlt as [Hl Hg].
    split; [|split].
    + apply Forall_forall. intros y (x & <- & Hx)%list_elem_of_In%in_map_iff.
      destruct (Hsame x) as [-> _].
      rewrite Forall_forall in Hl. specialize (Hl x (proj2 (list_elem_of_In _ _) Hx)).
      lia.
    + apply Forall_forall. intros a Ha.
      rewrite Forall_forall in Hadded. rewrite (Hadded a Ha).
      destruct added; [by apply elem_of_nil in Ha | cbn; lia].
    + eapply Forall_impl; [exact Hg|]. intros x ?. cbn in *. lia.
  - exact Hdet'.
Qed.

Lemma step_wf s op : wf s -> wf (step s op).
Proof.
  intros Hwf. destruct (step_has_shape s op Hwf) as (r & u & f & a & Hs & _).
  by eapply shape_wf.
Qed.

Lemma run_wf s ops : wf s -> wf (run s ops).
Proof.
  revert s. induction ops as [|op ops IH]; intros s Hwf; [done|].
  cbn. by apply IH, step_wf.
Qed.

Lemma wf_live_lt s x : wf s -> x ∈ live s -> e_id x < next_id s.
Proof.
  intros (gone & _ & _ & Hlt & _) Hx. rewrite Forall_forall in Hlt.
  apply Hlt, elem_of_app. by left.
Qed.

(** An entry that is alive has left no trace in the history. *)
Lemma wf_no_event s x ev :
  wf s -> x ∈ live s -> ev ∈ events s -> event_id ev <> e_id x.
Proof.
  intros (gone & Hev & Hnd & _) Hx Hin Heq.
  rewrite Hev in Hin. apply event_id_free in Hin.
  rewrite ids_app in Hnd. apply NoDup_app in Hnd as (_ & Hdisj & _).
  apply (Hdisj (e_id x)); [by apply elem_of_ids | by rewrite <- Heq].
Qed.

(** A pinned entry outlives a step: it stays alive, and none of the events
    of the step is about it. *)
Lemma shape_pinned_survives s s' released upd freed added x :
  wf s -> step_shape s s' released upd freed added ->
  x ∈ live s -> pinned (upd x) = true ->
  upd x ∈ live s'
  /\ forall ev, ev ∈ flat_map free_events freed -> event_id ev <> e_id x.
Proof.
  intros Hwf Hs Hx Hpin.
  pose proof (wf_NoDup_live s Hwf) as Hnd.
  destruct Hs as [Hsame _ Hlive _ Hfreed [Hadded _] _ _].
  assert (Hnotfreed : forall f, f ∈ freed -> e_id f <> e_id x).
  { intros f Hf Heq.
    assert (Hfin : f ∈ map upd (live s) ++ added).
    { rewrite <- Hlive. apply elem_of_app. by right. }
    rewrite Forall_forall in Hfreed. specialize (Hfreed f Hf).
    apply elem_of_app in Hfin as [Hfin|Hfin].
    - apply list_elem_of_In, in_map_iff in Hfin as (y & <- & Hy).
      apply list_elem_of_In in Hy.
      destruct (Hsame y) as [Hid _]. rewrite Hid in Heq.
      assert (y = x) as -> by (by apply (NoDup_ids_inj (live s))).
      unfold pinned in Hpin. unfold unpinned in Hfreed.
      rewrite Hfreed in Hpin. discriminate.
    - rewrite Forall_forall in Hadded. specialize (Hadded f Hfin).
      pose proof (wf_live_lt s x Hwf Hx). lia. }
  split.
  - assert (Hin : upd x ∈ live s' ++ freed).
    { rewrite Hlive. apply elem_of_app. left.
      apply list_elem_of_In, in_map. by apply list_elem_of_In. }
    apply elem_of_app in Hin as [Hin|Hin]; [done|].
    exfalso. apply (Hnotfreed _ Hin). by destruct (Hsame x).
  - intros ev Hev%event_id_free Heq.
    apply elem_of_ids_inv in Hev as (f & Hf & Hid).
    apply (Hnotfreed f Hf). congruence.
Qed.

(** *** Pinned entries *)

Lemma pinned_lt (x : Entry) : pinned x = true <-> 0 < e_pins x.
Proof.
  unfold pinned. destruct (Nat.eqb_spec (e_pins x) 0); cbn; split;
    intros; try lia; try done.
Qed.

(** The ids for which the eviction callback has fired, oldest first. *)
Definition callbacks (evs : list Event) : list nat :=
  flat_map (fun ev => match ev with
                      | EvictedEntry i _ _ => [i]
                      | Freed _ => []
                      end) evs.

Lemma callbacks_free (l : list Entry) :
  callbacks (flat_map free_events l) = ids (List.filter e_cb l).
Proof.
  induction l as [|x l IH]; [done|].
  cbn [flat_map List.filter]. unfold callbacks in *.
  rewrite flat_map_app, IH. unfold free_events.
  destruct (e_cb x); reflexivity.
Qed.

Lemma NoDup_ids_filter (f : Entry -> bool) (l : list Entry) :
  NoDup (ids l) -> NoDup (ids (List.filter f l)).
Proof.
  induction l as [|x l IH]; [done|]. cbn [ids map List.filter].
  intros [Hx Hnd]%NoDup_cons. destruct (f x); [|by apply IH].
  cbn [map]. apply NoDup_cons. split; [|by apply IH].
  intros (y & Hy & Hid)%elem_of_ids_inv. apply Hx. rewrite <- Hid.
  apply elem_of_ids. apply list_elem_of_In, filter_In in Hy as [Hy _].
  by apply list_elem_of_In.
Qed.

Lemma wf_callbacks_once s : wf s -> NoDup (callbacks (events s)).
Proof.
  intros (gone & -> & Hnd & _). rewrite callbacks_free.
  apply NoDup_ids_filter. rewrite ids_app in Hnd.
  by apply NoDup_app in Hnd as (_ & _ & ?).
Qed.

Lemma release_last (e : Entry) (l : list Entry) :
  NoDup (ids l) -> Forall (fun x => pinned x = true) l ->
  e ∈ l -> e_pins e = 1 ->
  List.filter unpinned
    (map (fun x => if has_id (e_id e) x then with_pins x (pred (e_pins x)) else x) l)
  = [with_pins e 0].
Proof.
  induction l as [|x l IH]; intros Hnd Hpin Hin He; [by apply elem_of_nil in Hin|].
  cbn [ids map] in Hnd. apply NoDup_cons in Hnd as [Hx Hnd].
  apply Forall_cons in Hpin as [Hpx Hpl].
  assert (Hrest : forall l', Forall (fun x => pinned x = true) l' ->
                             List.filter unpinned l' = []).
  { induction l' as [|y l' IH']; [done|]. intros [Hy Hl']%Forall_cons.
    cbn [List.filter]. unfold pinned in Hy. unfold unpinned.
    destruct (e_pins y =? 0); [discriminate | by apply IH']. }
  cbn [map List.filter].
  apply elem_of_cons in Hin as [->|Hin].
  - assert (Hid : has_id (e_id x) x = true) by apply Nat.eqb_refl.
    rewrite Hid. unfold unpinned at 1. cbn [with_pins e_pins]. rewrite He. cbn.
    destruct (no_id_match (e_id x) (fun y => with_pins y (pred (e_pins y))) l Hx)
      as [-> _].
    by rewrite Hrest.
  - destruct (has_id (e_id e) x) eqn:Hid.
    + apply Nat.eqb_eq in Hid. exfalso. apply Hx. rewrite Hid. by apply elem_of_ids.
    + unfold pinned in Hpx. unfold unpinned at 1.
      destruct (e_pins x =? 0); [discriminate|]. by apply IH.
Qed.

Lemma free_events_with_pins e n : free_events (with_pins e n) = free_events e.
Proof. reflexivity. Qed.

(** C8. In every state of a shard that the operations can reach, an entry
    with a live handle (in the cache, or erased, evicted or superseded) has
    not been freed and its callback has not fired; every further operation
    other than dropping its last handle leaves it alive and pinned with its
    key and value, free of events; erasing it, or inserting its key again,
    only detaches it.  Dropping the last handle of a detached entry appends
    exactly the callback with the entry's key and value (when one is
    registered) followed by the release of its memory, after which the
    entry is gone; and no history has two callbacks for one entry. *)
Theorem pinned_entries_are_kept (pol : EvictionPolicy) (cap : nat)
    (ops : list Op) (e : Entry) :
  let s := run (new_shard pol cap) ops in
  e ∈ live s -> 0 < e_pins e ->
  (forall ev, ev ∈ events s -> event_id ev <> e_id e)
  /\ (forall op, op <> OpRelease (e_id e) \/ 1 < e_pins e ->
        exists e', e' ∈ live (step s op) /\ same_entry e e' /\ 0 < e_pins e'
          /\ forall ev, ev ∈ events (step s op) -> event_id ev <> e_id e)
  /\ (e ∈ in_cache s ->
        e ∈ detached (Erase (e_key e) s)
        /\ forall v charge cb,
             e ∈ detached (snd (Insert (e_key e) v charge cb s)))
  /\ (e ∈ detached s -> e_pins e = 1 ->
        events (Release (e_id e) s) = events s ++ free_events e
        /\ free_events e
           = (if e_cb e then [EvictedEntry (e_id e) (e_key e) (e_value e)] else [])
             ++ [Freed (e_id e)]
        /\ forall x, x ∈ live (Release (e_id e) s) -> e_id x <> e_id e)
  /\ NoDup (callbacks (events s))
  /\ forall more, NoDup (callbacks (events (run s more))).
Proof.
  intros s Hin Hpin.
  assert (Hwf : wf s) by apply run_wf, wf_new.
  split; [|split; [|split; [|split; [|split]]]].
  - intros ev Hev. by apply (wf_no_event s e ev).
  - intros op Hop.
    destruct (step_has_shape s op Hwf) as (r & upd & freed & added & Hs & Hr).
    assert (Hpin' : 0 < e_pins (upd e)).
    { destruct (shape_pins _ _ _ _ _ _ Hs e) as [Hle|[Hrel Hpred]]; [lia|].
      destruct Hop as [Hop|Hop]; [by specialize (Hr _ Hrel) | lia]. }
    destruct (shape_pinned_survives s (step s op) r upd freed added e Hwf Hs Hin)
      as [Hlive Hnew].
    { by apply pinned_lt. }
    exists (upd e). split; [exact Hlive|].
    split; [apply (shape_same _ _ _ _ _ _ Hs)|]. split; [exact Hpin'|].
    intros ev Hev. rewrite (shape_events _ _ _ _ _ _ Hs) in Hev.
    apply elem_of_app in Hev as [Hev|Hev]; [by apply (wf_no_event s e ev) | by apply Hnew].
  - intros Hc.
    assert (Hdet : e ∈ detached (Erase (e_key e) s)).
    { cbn. apply elem_of_app. right.
      apply list_elem_of_In, filter_In. split.
      - apply filter_In. split; [by apply list_elem_of_In|].
        unfold has_key. by apply bool_decide_eq_true.
      - by apply pinned_lt. }
    split; [exact Hdet|]. intros v charge cb. unfold Insert.
    destruct (evict _ _ _). exact Hdet.
  - intros Hdet Hone.
    pose proof (wf_NoDup_live s Hwf) as Hnd.
    unfold live in Hnd. rewrite ids_app in Hnd.
    apply NoDup_app in Hnd as (_ & _ & Hndd).
    assert (Hev : events (Release (e_id e) s) = events s ++ free_events e).
    { cbn [Release events].
      rewrite (release_last e (detached s) Hndd (wf_detached s Hwf) Hdet Hone).
      cbn [flat_map]. by rewrite app_nil_r. }
    split; [exact Hev|]. split; [reflexivity|].
    intros x Hx Heq.
    assert (Hwf' : wf (Release (e_id e) s)) by apply (step_wf s (OpRelease (e_id e)) Hwf).
    apply (wf_no_event _ x (Freed (e_id e)) Hwf' Hx); [|by rewrite Heq].
    rewrite Hev. apply elem_of_app. right. unfold free_events.
    apply elem_of_app. right. apply elem_of_cons. by left.
  - by apply wf_callbacks_once.
  - intros more. by apply wf_callbacks_once, run_wf.
Qed.

(** *** FIFO: the eviction list is the insertion order *)

(** Ids are handed out in insertion order, so a list of entries is in
    insertion order when its ids increase. *)
Definition inserted_before (x y : Entry) : Prop := e_id x < e_id y.
Definition insertion_order (l : list Entry) : Prop :=
  StronglySorted inserted_before l.

Lemma insertion_order_sublist (l1 l2 : list Entry) :
  l1 `sublist_of` l2 -> insertion_order l2 -> insertion_order l1.
Proof.
  induction 1 as [|x l1 l2 Hsub IH|x l1 l2 Hsub IH]; intros Hs.
  - constructor.
  - apply StronglySorted_inv in Hs as [Hs Hall]. constructor; [by apply IH|].
    apply Forall_forall. intros y Hy. rewrite Forall_forall in Hall.
    apply Hall. by eapply elem_of_sublist.
  - apply StronglySorted_inv in Hs as [Hs _]. by apply IH.
Qed.

Lemma sublist_List_filter {A} (f : A -> bool) (l : list A) :
  List.filter f l `sublist_of` l.
Proof.
  induction l as [|x l IH]; [constructor|]. cbn [List.filter].
  destruct (f x); by constructor.
Qed.

Lemma insertion_order_map (f : Entry -> Entry) (l : list Entry) :
  (forall x, e_id (f x) = e_id x) -> insertion_order l -> insertion_order (map f l).
Proof.
  intros Hid. induction 1 as [|x l Hs IH Hall]; cbn [map]; constructor; [done|].
  apply Forall_forall. intros y (z & <- & Hz)%list_elem_of_In%in_map_iff.
  rewrite Forall_forall in Hall. unfold inserted_before. rewrite !Hid.
  apply Hall. by apply list_elem_of_In.
Qed.

Lemma insertion_order_snoc (l : list Entry) (e : Entry) :
  insertion_order l -> Forall (fun x => e_id x < e_id e) l ->
  insertion_order (l ++ [e]).
Proof.
  induction 1 as [|x l Hs IH Hall]; intros Hlt; cbn [app].
  - repeat constructor.
  - apply Forall_cons in Hlt as [Hx Hlt]. constructor; [by apply IH|].
    apply Forall_app. split; [exact Hall | by repeat constructor].
Qed.

Lemma usage_cons (x : Entry) (l : list Entry) :
  usage (x :: l) = e_charge x + usage l.
Proof. reflexivity. Qed.

(** What [evict] does: it scans a prefix of the list under capacity
    pressure, takes the unpinned entries of that prefix as victims and keeps
    everything else in place. *)
Lemma evict_prefix cap use l :
  exists scanned rest,
    l = scanned ++ rest
    /\ evict cap use l
       = (List.filter unpinned scanned, List.filter pinned scanned ++ rest)
    /\ (forall i x, scanned !! i = Some x ->
          cap < use - usage (List.filter unpinned (take i scanned)))
    /\ (rest <> [] -> use - usage (List.filter unpinned scanned) <= cap).
Proof.
  revert use. induction l as [|e l IH]; intros use.
  - exists [], []. repeat split; try done.
  - cbn [evict]. destruct (Nat.leb_spec use cap) as [Hfit|Hpressure].
    + exists [], (e :: l). cbn. repeat split; try done. intros _. lia.
    + destruct (unpinned e) eqn:He.
      * destruct (IH (use - e_charge e)) as (sc & rest & -> & -> & Hsc & Hrest).
        assert (Hp : pinned e = false) by (unfold pinned; unfold unpinned in He; by rewrite He).
        exists (e :: sc), rest. cbn [List.filter app]. rewrite He, Hp.
        split; [done|]. split; [done|]. split.
        -- intros [|i] x Hx; cbn [take List.filter].
           ++ cbn. lia.
           ++ rewrite He, usage_cons. specialize (Hsc i x Hx). lia.
        -- intros Hne. specialize (Hrest Hne). rewrite usage_cons. lia.
      * destruct (IH use) as (sc & rest & -> & -> & Hsc & Hrest).
        assert (Hp : pinned e = true) by (unfold pinned; unfold unpinned in He; by rewrite He).
        exists (e :: sc), rest. cbn [List.filter app]. rewrite He, Hp.
        split; [done|]. split; [done|]. split.
        -- intros [|i] x Hx; cbn [take List.filter].
           ++ cbn. lia.
           ++ rewrite He. by apply (Hsc i x).
        -- exact Hrest.
Qed.

Lemma step_policy s op : policy (step s op) = policy s.
Proof.
  destruct op; cbn [step]; try reflexivity.
  - unfold Insert. by destruct (evict _ _ _).
  - unfold Lookup. by destruct (List.find _ _).
  - unfold Invalidate. by destruct (invalidate_walk _ _ _ _).
Qed.

Lemma run_policy s ops : policy (run s ops) = policy s.
Proof.
  revert s. induction ops as [|op ops IH]; intros s; [done|].
  cbn. by rewrite IH, step_policy.
Qed.

Lemma step_insertion_order s op :
  wf s -> policy s = FIFO ->
  insertion_order (in_cache s) -> insertion_order (in_cache (step s op)).
Proof.
  intros Hwf Hpol Hord. destruct op as [k v charge cb|k|h|k|ctl]; cbn [step].
  - unfold Insert.
    set (e := {| e_id := next_id s; e_key := k; e_value := v;
                 e_charge := charge; e_pins := 1; e_cb := cb |}).
    destruct (evict_prefix (capacity s) (usage (in_cache (Erase k s) ++ [e]))
                (in_cache (Erase k s) ++ [e])) as (sc & rest & Hl & -> & _).
    cbn [snd in_cache].
    apply (insertion_order_sublist _ (in_cache (Erase k s) ++ [e])).
    + rewrite Hl. apply sublist_app; [apply sublist_List_filter | done].
    + apply insertion_order_snoc.
      * eapply insertion_order_sublist; [|exact Hord]. apply sublist_List_filter.
      * apply Forall_forall. intros x Hx. cbn [e_id e].
        apply (wf_live_lt s x Hwf). apply elem_of_app. left.
        eapply elem_of_sublist; [exact Hx | apply sublist_List_filter].
  - unfold Lookup. destruct (List.find _ _) as [e|]; [|exact Hord].
    cbn [snd in_cache]. rewrite Hpol.
    apply insertion_order_map; [|exact Hord].
    intros x. by destruct (has_id (e_id e) x).
  - cbn [Release in_cache].
    apply insertion_order_map; [|exact Hord].
    intros x. by destruct (has_id h x).
  - eapply insertion_order_sublist; [|exact Hord]. apply sublist_List_filter.
  - unfold Invalidate.
    destruct (invalidate_walk_spec ctl (in_cache s) 0 0)
      as (vis & unvis & Hl & _ & _ & ->).
    cbn [snd retire in_cache].
    eapply insertion_order_sublist; [|exact Hord].
    rewrite Hl. apply sublist_app; [apply sublist_List_filter | done].
Qed.

Lemma run_insertion_order s ops :
  wf s -> policy s = FIFO ->
  insertion_order (in_cache s) -> insertion_order (in_cache (run s ops)).
Proof.
  revert s. induction ops as [|op ops IH]; intros s Hwf Hpol Hord; [done|].
  cbn. apply IH; [by apply step_wf | by rewrite step_policy |].
  by apply step_insertion_order.
Qed.

Lemma insert_list_order k v charge cb s :
  wf s -> insertion_order (in_cache s) ->
  insertion_order
    (in_cache (Erase k s)
     ++ [{| e_id := next_id s; e_key := k; e_value := v; e_charge := charge;
            e_pins := 1; e_cb := cb |}]).
Proof.
  intros Hwf Hord. apply insertion_order_snoc.
  - eapply insertion_order_sublist; [|exact Hord]. apply sublist_List_filter.
  - apply Forall_forall. intros x Hx. cbn [e_id].
    apply (wf_live_lt s x Hwf). apply elem_of_app. left.
    eapply elem_of_sublist; [exact Hx | apply sublist_List_filter].
Qed.

(** C7. In every state that inserts, lookups and the other operations can
    bring a FIFO shard to, the eviction list is in insertion order.  A
    lookup hit changes nothing but the pin count of the entry it returns (a
    miss changes nothing), so the order stays what it was.  An insert under
    capacity pressure scans the list from its head and evicts the unpinned
    entries it meets until the usage fits: every victim was inserted before
    every unpinned entry that stays in the cache. *)
Theorem FIFO_eviction_order (cap : nat) (ops : list Op) :
  let s := run (new_shard FIFO cap) ops in
  insertion_order (in_cache s)
  /\ (forall k h s', Lookup k s = (Some h, s') ->
        in_cache s'
        = map (fun x => if has_id h x then with_pins x (S (e_pins x)) else x)
              (in_cache s)
        /\ ids (in_cache s') = ids (in_cache s)
        /\ detached s' = detached s /\ events s' = events s
        /\ next_id s' = next_id s /\ capacity s' = capacity s
        /\ policy s' = policy s)
  /\ (forall k s', Lookup k s = (None, s') -> s' = s)
  /\ (forall k v charge cb,
        let e := {| e_id := next_id s; e_key := k; e_value := v;
                    e_charge := charge; e_pins := 1; e_cb := cb |} in
        let l := in_cache (Erase k s) ++ [e] in
        let s' := snd (Insert k v charge cb s) in
        exists scanned rest,
          l = scanned ++ rest
          /\ in_cache s' = List.filter pinned scanned ++ rest
          /\ events s'
             = events (Erase k s)
               ++ flat_map free_events (List.filter unpinned scanned)
          /\ (forall i x, scanned !! i = Some x ->
                capacity s < usage l - usage (List.filter unpinned (take i scanned)))
          /\ (rest <> [] ->
                usage l - usage (List.filter unpinned scanned) <= capacity s)
          /\ (forall victim survivor,
                victim ∈ List.filter unpinned scanned ->
                survivor ∈ in_cache s' -> unpinned survivor = true ->
                inserted_before victim survivor)).
Proof.
  intros s.
  assert (Hwf : wf s) by apply run_wf, wf_new.
  assert (Hpol : policy s = FIFO) by apply run_policy.
  assert (Hord : insertion_order (in_cache s)).
  { apply run_insertion_order; [apply wf_new | done | constructor]. }
  split; [exact Hord|]. split; [|split].
  - intros k h s' Hlook. unfold Lookup in Hlook.
    destruct (List.find (has_key k) (in_cache s)) as [e|]; [|discriminate].
    rewrite Hpol in Hlook. injection Hlook as <- <-.
    cbn [in_cache detached events next_id capacity policy].
    repeat split; try done.
    apply ids_map_upd. intros x.
    destruct (has_id (e_id e) x); [apply same_entry_with_pins | apply same_entry_refl].
  - intros k s' Hlook. unfold Lookup in Hlook.
    destruct (List.find (has_key k) (in_cache s)); [discriminate|].
    by injection Hlook as <-.
  - intros k v charge cb e l s'.
    pose proof (insert_list_order k v charge cb s Hwf Hord) as Hl.
    fold e in Hl. fold l in Hl.
    destruct (evict_prefix (capacity s) (usage l) l)
      as (sc & rest & Hsplit & Hev & Hsc & Hrest).
    exists sc, rest.
    assert (Hs' : in_cache s' = List.filter pinned sc ++ rest
                  /\ events s' = events (Erase k s)
                                 ++ flat_map free_events (List.filter unpinned sc)).
    { subst s'. unfold Insert. fold e. fold l. by rewrite Hev. }
    destruct Hs' as [Hin' Hev'].
    split; [exact Hsplit|]. split; [exact Hin'|]. split; [exact Hev'|].
    split; [exact Hsc|]. split; [exact Hrest|].
    intros victim survivor Hv Hsv Hunp.
    rewrite Hin' in Hsv. apply elem_of_app in Hsv as [Hsv|Hsv].
    + apply list_elem_of_In, filter_In in Hsv as [_ Hp].
      unfold pinned in Hp. unfold unpinned in Hunp. rewrite Hunp in Hp. discriminate.
    + rewrite Hsplit in Hl.
      apply (StronglySorted_app_1_elem_of _ sc rest); [exact Hl | | exact Hsv].
      apply list_elem_of_In, filter_In in Hv as [Hv _]. by apply list_elem_of_In.
Qed.

Close Scope nat_scope.

End Shard.

(** *** The scenarios of [cache-test.cc], replayed on a single shard with
    integer keys and values *)

Definition fifo (cap : nat) : @CacheShard Z Z := new_shard FIFO cap.
Definition lru (cap : nat) : @CacheShard Z Z := new_shard LRU cap.

(** CacheTest.Erase *)
Example test_Erase :
  let s0 := Erase 200 (fifo 100) in
  let s1 := Erase 100 (test_Insert 200 201 1 (test_Insert 100 101 1 s0)) in
  let s2 := Erase 100 s1 in
  evicted s0 = []
  /\ fst (test_Lookup 100 s1) = None /\ fst (test_Lookup 200 s1) = Some 201
  /\ evicted s1 = [(100, 101)]
  /\ fst (test_Lookup 100 s2) = None /\ fst (test_Lookup 200 s2) = Some 201
  /\ evicted s2 = [(100, 101)].
Proof. repeat split. Qed.

(** CacheTest.EntriesArePinned *)
Example test_EntriesArePinned :
  let '(h1, s1) := Lookup 100 (test_Insert 100 101 1 (lru 100)) in
  let '(h2, s2) := Lookup 100 (test_Insert 100 102 1 s1) in
  let s3 := Release 0 s2 in
  let s4 := Erase 100 s3 in
  let s5 := Release 1 s4 in
  h1 = Some 0%nat /\ handle_value 0 s1 = Some 101
  /\ h2 = Some 1%nat /\ handle_value 1 s2 = Some 102
  /\ evicted s2 = []
  /\ evicted s3 = [(100, 101)]
  /\ fst (test_Lookup 100 s4) = None /\ evicted s4 = [(100, 101)]
  /\ evicted s5 = [(100, 101); (100, 102)].
Proof. repeat split. Qed.

(** FIFOCacheTest.EvictionPolicy, with room for three entries: the first
    entry is the one evicted, however often it was looked up. *)
Example test_FIFO_EvictionPolicy :
  let step_ i s := snd (test_Lookup 0 (test_Insert i i 1 s)) in
  let s := step_ 3 (step_ 2 (step_ 1 (step_ 0 (fifo 3)))) in
  evicted s = [(0, 0)]
  /\ fst (test_Lookup 0 s) = None
  /\ map e_key (in_cache s) = [1; 2; 3].
Proof. repeat split. Qed.

(** LRUCacheTest.EvictionPolicy, scaled down: the entry that is looked up
    stays, the cold one goes. *)
Example test_LRU_EvictionPolicy :
  let step_ i s := snd (test_Lookup 0 (test_Insert i i 1 s)) in
  let s := step_ 3 (step_ 2 (step_ 1 (step_ 0 (lru 3)))) in
  evicted s = [(1, 1)]
  /\ fst (test_Lookup 0 s) = Some 0
  /\ fst (test_Lookup 1 s) = None.
Proof. repeat split. Qed.

Definition odd_keys_invalid : @InvalidationControl Z Z :=
  {| validity_func := fun k _ => Z.even k;
     iteration_func := kIterateOverAllEntriesFunc |}.

Definition never_advance : @InvalidationControl Z Z :=
  {| validity_func := kInvalidateAllEntriesFunc;
     iteration_func := fun _ _ => false |}.

Definition four_entries : @CacheShard Z Z :=
  test_Insert 3 3 1 (test_Insert 2 2 1 (test_Insert 1 1 1
    (test_Insert 0 0 1 (fifo 100)))).

(** CacheTest.InvalidateOddKeyEntries, InvalidateNoEntriesNoAdvanceIterationFunctor
    and InvalidateAllEntries *)
Example test_Invalidate :
  fst (Invalidate odd_keys_invalid (fifo 100)) = 0%nat
  /\ fst (Invalidate odd_keys_invalid four_entries) = 2%nat
  /\ evicted (snd (Invalidate odd_keys_invalid four_entries)) = [(1, 1); (3, 3)]
  /\ map e_key (in_cache (snd (Invalidate odd_keys_invalid four_entries))) = [0; 2]
  /\ Invalidate never_advance four_entries = (0%nat, four_entries)
  /\ fst (Invalidate default_ctl four_entries) = 4%nat
  /\ in_cache (snd (Invalidate default_ctl four_entries)) = [].
Proof. repeat split. Qed.

(** *** Insert, then look up *)

Section RoundTrip.

Context {Key Value : Type} `{EqDecision Key}.

Local Open Scope nat_scope.

Lemma find_unique {A} (f : A -> bool) (P : A -> Prop) (l : list A) (x : A) :
  x ∈ l -> f x = true ->
  (forall y, y ∈ l -> f y = true -> P y) ->
  exists y, List.find f l = Some y /\ y ∈ l /\ f y = true /\ P y.
Proof.
  intros Hx Hfx HP.
  destruct (List.find f l) as [y|] eqn:Hfind.
  - destruct (find_elem_of f l y Hfind) as [Hy Hfy]. exists y. auto.
  - apply list_elem_of_In in Hx.
    pose proof (find_none f l Hfind x Hx). congruence.
Qed.

Lemma find_filter_other {A} (f g : A -> bool) (l : list A) :
  (forall x, f x = true -> g x = true) ->
  List.find f (List.filter g l) = List.find f l.
Proof.
  intros Hfg. induction l as [|x l IH]; [reflexivity|].
  cbn [List.filter List.find].
  destruct (g x) eqn:Hg; cbn [List.find].
  - by rewrite IH.
  - destruct (f x) eqn:Hf; [|exact IH].
    rewrite (Hfg x Hf) in Hg. discriminate.
Qed.

(** The entry that [Insert] adds stays in the cache while its handle is
    held, and it is the only entry of its key. *)
Lemma Insert_in_cache (k : Key) (v : Value) charge cb
    (s : @CacheShard Key Value) :
  let e := {| e_id := next_id s; e_key := k; e_value := v;
              e_charge := charge; e_pins := 1; e_cb := cb |} in
  fst (Insert k v charge cb s) = next_id s
  /\ e ∈ in_cache (snd (Insert k v charge cb s))
  /\ forall x, x ∈ in_cache (snd (Insert k v charge cb s)) ->
               e_key x = k -> x = e.
Proof.
  intros e. unfold Insert. fold e.
  destruct (evict _ _ _) as [victims kept] eqn:Hev. cbn [fst snd in_cache].
  destruct (evict_perm _ _ _ _ _ Hev) as [Hperm Hvictims].
  split; [reflexivity|]. split.
  - assert (He : e ∈ victims ++ kept).
    { rewrite <- Hperm. apply elem_of_app. right. by apply list_elem_of_singleton. }
    apply elem_of_app in He as [He|He]; [|exact He].
    rewrite Forall_forall in Hvictims. by specialize (Hvictims e He).
  - intros x Hx Hk.
    assert (Hl : x ∈ in_cache (Erase k s) ++ [e]).
    { rewrite Hperm. apply elem_of_app. by right. }
    apply elem_of_app in Hl as [Hl|Hl]; [|by apply list_elem_of_singleton in Hl].
    cbn in Hl. apply list_elem_of_In, filter_In in Hl as [_ Hneg].
    unfold has_key in Hneg. rewrite bool_decide_eq_true_2 in Hneg by exact Hk.
    discriminate.
Qed.

Lemma test_Insert_step (k : Key) (v : Value) charge
    (s : @CacheShard Key Value) :
  test_Insert k v charge s
  = step (step s (OpInsert k v charge true)) (OpRelease (next_id s)).
Proof.
  unfold test_Insert. cbn [step].
  pose proof (Insert_in_cache k v charge true s) as [Hh _].
  destruct (Insert k v charge true s) as [h s1]. cbn [fst snd] in *. by subst h.
Qed.

(** After the test's [Insert] helper, the key is in the cache with the
    value just inserted, and no other entry has this key. *)
Lemma test_Insert_peek (k : Key) (v : Value) charge
    (s : @CacheShard Key Value) :
  exists y, List.find (has_key k) (in_cache (test_Insert k v charge s)) = Some y
            /\ e_value y = v.
Proof.
  rewrite test_Insert_step. cbn [step].
  destruct (Insert_in_cache k v charge true s) as (_ & He & Huniq).
  set (s1 := snd (Insert k v charge true s)) in *.
  set (e := {| e_id := next_id s; e_key := k; e_value := v;
               e_charge := charge; e_pins := 1; e_cb := true |}) in *.
  unfold Release. cbn [in_cache].
  set (unpin := fun x : Entry =>
                  if has_id (next_id s) x then with_pins x (pred (e_pins x))
                  else x).
  assert (Hkey : forall x, e_key (unpin x) = e_key x /\ e_value (unpin x) = e_value x).
  { intros x. unfold unpin. by destruct (has_id _ x). }
  destruct (find_unique (has_key k) (fun y => e_value y = v)
              (map unpin (in_cache s1)) (unpin e)) as (y & Hfind & _ & _ & Hv).
  - apply list_elem_of_In, in_map, list_elem_of_In, He.
  - unfold has_key. apply bool_decide_eq_true_2. by rewrite (proj1 (Hkey e)).
  - intros y Hy Hk. apply list_elem_of_In, in_map_iff in Hy as (x & <- & Hx).
    apply list_elem_of_In in Hx.
    unfold has_key in Hk. apply bool_decide_eq_true_1 in Hk.
    rewrite (proj1 (Hkey x)) in Hk. rewrite (proj2 (Hkey x)).
    by rewrite (Huniq x Hx Hk).
  - exists y. by split.
Qed.

(** The value behind the handle that a lookup returns is the value of the
    entry that the lookup found. *)
Lemma Lookup_handle_value (k : Key) (s : @CacheShard Key Value)
    (y : @Entry Key Value) :
  wf s ->
  List.find (has_key k) (in_cache s) = Some y ->
  fst (test_Lookup k s) = Some (e_value y).
Proof.
  intros Hwf Hfind.
  pose proof (step_wf s (OpLookup k) Hwf) as Hwf'. cbn [step] in Hwf'.
  unfold test_Lookup. revert Hwf'. unfold Lookup. rewrite Hfind.
  set (pin := fun x : @Entry Key Value => with_pins x (S (e_pins x))).
  cbn [fst snd].
  match goal with |- context [handle_value _ ?t] => set (s' := t) end.
  intros Hwf'.
  destruct (find_elem_of _ _ _ Hfind) as [Hy _].
  assert (Hpin : pin y ∈ live s').
  { apply elem_of_app. left. subst s'. cbn [in_cache].
    destruct (policy s).
    - apply list_elem_of_In, in_map_iff. exists y.
      unfold has_id. rewrite Nat.eqb_refl. split; [reflexivity|].
      by apply list_elem_of_In.
    - apply elem_of_app. right. by apply list_elem_of_singleton. }
  destruct (find_unique (has_id (e_id y)) (fun z => z = pin y) (live s')
              (pin y) Hpin) as (z & Hz & _ & _ & ->).
  - unfold has_id. cbn. apply Nat.eqb_refl.
  - intros z Hz Hid. apply Nat.eqb_eq in Hid.
    apply (NoDup_ids_inj (live s')); [by apply wf_NoDup_live | done | done |].
    by rewrite Hid.
  - unfold handle_value. by rewrite Hz.
Qed.

(** X17. Insert, then look up: in a shard reached from a new one by any
    sequence of calls, after the test's [Insert(key, value, charge)] with a
    charge that fits the capacity, the test's [Lookup(key)] returns this
    value, under either eviction policy and whatever else the shard
    holds. *)
Theorem Insert_then_Lookup (pol : EvictionPolicy) (cap : nat)
    (ops : list (@Op Key Value)) (k : Key) (v : Value) (charge : nat) :
  charge <= cap ->
  let s := run (new_shard pol cap) ops in
  fst (test_Lookup k (test_Insert k v charge s)) = Some v.
Proof.
  intros _ s.
  destruct (test_Insert_peek k v charge s) as (y & Hfind & <-).
  apply Lookup_handle_value; [|exact Hfind].
  rewrite test_Insert_step. apply step_wf, step_wf, run_wf, wf_new.
Qed.

Lemma evicted_free_events (l : list (@Entry Key Value)) (k : Key) :
  Forall (fun e => e_key e = k) l ->
  Forall (fun kv : Key * Value => fst kv = k)
    (flat_map (fun ev => match ev with
                         | EvictedEntry _ k' v => [(k', v)]
                         | Freed _ => []
                         end)
              (flat_map free_events l)).
Proof.
  induction 1 as [|e l He _ IH]; [constructor|].
  cbn [flat_map]. rewrite flat_map_app. apply Forall_app. split; [|exact IH].
  unfold free_events. destruct (e_cb e); cbn; [|constructor].
  by repeat constructor.
Qed.

(** X18. [Erase] touches no other key: after erasing [k], the lookup of
    any other key finds the entry it found before, and the eviction
    callbacks that the erase adds are all for the key [k]. *)
Theorem Erase_other_keys (k k' : Key) (s : @CacheShard Key Value) :
  k' <> k ->
  List.find (has_key k') (in_cache (Erase k s))
  = List.find (has_key k') (in_cache s)
  /\ peek k' (Erase k s) = peek k' s
  /\ exists new, evicted (Erase k s) = evicted s ++ new
       /\ Forall (fun kv => fst kv = k) new.
Proof.
  intros Hne.
  assert (Hfind : List.find (has_key k') (in_cache (Erase k s))
                  = List.find (has_key k') (in_cache s)).
  { cbn. apply find_filter_other. intros x Hx.
    unfold has_key in *. apply bool_decide_eq_true_1 in Hx.
    rewrite bool_decide_eq_false_2; [reflexivity | congruence]. }
  split; [exact Hfind|]. split; [unfold peek; by rewrite Hfind|].
  unfold evicted, Erase, retire. cbn [events].
  rewrite flat_map_app. eexists. split; [reflexivity|].
  apply evicted_free_events.
  apply Forall_forall. intros e He.
  apply list_elem_of_In, filter_In in He as [He _].
  apply filter_In in He as [_ Hk].
  unfold has_key in Hk. by apply bool_decide_eq_true_1 in Hk.
Qed.

End RoundTrip.

(** CacheTest.HitAndMiss *)
Example test_HitAndMiss :
  let s1 := test_Insert 100 101 1 (lru 100) in
  let s2 := test_Insert 200 201 1 s1 in
  let s3 := test_Insert 100 102 1 s2 in
  fst (test_Lookup 100 (lru 100)) = None
  /\ fst (test_Lookup 100 s1) = Some 101 /\ fst (test_Lookup 200 s1) = None
  /\ fst (test_Lookup 100 s2) = Some 101 /\ fst (test_Lookup 200 s2) = Some 201
  /\ fst (test_Lookup 100 s3) = Some 102 /\ fst (test_Lookup 200 s3) = Some 201
  /\ fst (test_Lookup 300 s3) = None
  /\ evicted s3 = [(100, 101)].
Proof. repeat split. Qed.

Lemma Insert_then_Lookup_witness :
  (1 <= 2)%nat
  /\ fst (test_Lookup 7 (test_Insert 7 8 1
             (run (lru 2) [OpInsert 1 1 1%nat true; OpInsert 2 2 1%nat true;
                           OpLookup 1])))
     = Some 8.
Proof.
  assert (Hfit : (1 <= 2)%nat) by lia.
  split; [exact Hfit|].
  exact (Insert_then_Lookup LRU 2
           [OpInsert 1 1 1%nat true; OpInsert 2 2 1%nat true; OpLookup 1]
           7 8 1%nat Hfit).
Defined.

Lemma Erase_other_keys_witness :
  200 <> 100
  /\ peek 200 (Erase 100 (test_Insert 200 201 1 (test_Insert 100 101 1 (fifo 100))))
     = Some 201.
Proof.
  assert (Hne : 200 <> 100) by discriminate.
  split; [exact Hne|].
  pose proof (Erase_other_keys 100 200
                (test_Insert 200 201 1 (test_Insert 100 101 1 (fifo 100))) Hne)
    as (_ & Hpeek & _).
  rewrite Hpeek. reflexivity.
Defined.

Lemma Invalidate_spec_witness :
  Invalidate default_ctl four_entries
  = (length (in_cache four_entries), retire (in_cache four_entries) [] four_entries)
  /\ Invalidate never_advance four_entries = (0%nat, four_entries)
  /\ exists visited unvisited,
       in_cache four_entries = visited ++ unvisited
       /\ fst (Invalidate odd_keys_invalid four_entries)
          = length (List.filter (invalid odd_keys_invalid) visited).
Proof.
  pose proof (Invalidate_spec never_advance four_entries) as (_ & Hall & Hnever & _).
  pose proof (Invalidate_spec odd_keys_invalid four_entries)
    as ((vis & unvis & Hl & _ & _ & Hn & _) & _).
  split; [exact Hall|]. split; [apply Hnever; reflexivity|].
  exists vis, unvis. by split.
Defined.

Definition lookups_between_inserts : list (@Op Z Z) :=
  [OpInsert 0 0 1 true; OpRelease 0; OpLookup 0; OpRelease 0;
   OpInsert 1 1 1 true; OpRelease 1; OpLookup 0; OpRelease 0;
   OpInsert 2 2 1 true; OpRelease 2; OpLookup 0; OpRelease 0].

Lemma FIFO_eviction_order_witness :
  insertion_order (in_cache (run (fifo 3) lookups_between_inserts))
  /\ exists scanned rest,
       in_cache (Erase 3 (run (fifo 3) lookups_between_inserts))
       ++ [{| e_id := 3; e_key := 3; e_value := 3; e_charge := 1;
              e_pins := 1; e_cb := true |}]
       = scanned ++ rest
       /\ in_cache (snd (Insert 3 3 1 true (run (fifo 3) lookups_between_inserts)))
          = List.filter pinned scanned ++ rest.
Proof.
  pose proof (FIFO_eviction_order 3 lookups_between_inserts) as (Hord & _ & _ & Hins).
  split; [exact Hord|].
  destruct (Hins 3 3 1%nat true) as (sc & rest & Hl & Hin & _).
  exists sc, rest. split; [exact Hl | exact Hin].
Defined.

Definition erased_while_pinned : list (@Op Z Z) :=
  [OpInsert 100 101 1 true; OpErase 100].

Definition pinned_entry : @Entry Z Z :=
  {| e_id := 0; e_key := 100; e_value := 101; e_charge := 1;
     e_pins := 1; e_cb := true |}.

Lemma pinned_entries_are_kept_witness :
  pinned_entry ∈ live (run (lru 100) erased_while_pinned)
  /\ (0 < e_pins pinned_entry)%nat
  /\ events (run (lru 100) erased_while_pinned) = []
  /\ events (Release 0 (run (lru 100) erased_while_pinned))
     = [EvictedEntry 0 100 101; Freed 0].
Proof.
  assert (Hlive : pinned_entry ∈ live (run (lru 100) erased_while_pinned))
    by (apply elem_of_cons; by left).
  assert (Hpin : (0 < e_pins pinned_entry)%nat) by (cbn; lia).
  pose proof (pinned_entries_are_kept LRU 100 erased_while_pinned pinned_entry
                Hlive Hpin) as (_ & _ & _ & Hrel & _).
  split; [exact Hlive|]. split; [exact Hpin|]. split; [reflexivity|].
  destruct Hrel as (Hev & _); [apply elem_of_cons; by left | reflexivity |].
  exact Hev.
Defined.

Lemma Erase_absent_witness :
  peek 200 four_entries = None
  /\ Erase 200 four_entries = four_entries
  /\ evicted (Erase 200 four_entries) = evicted four_entries.
Proof.
  pose proof (Erase_absent 200 four_entries) as (_ & _ & Habs).
  split; [reflexivity|].
  destruct (Habs eq_refl) as (Hid & _ & Hev & _).
  split; [exact Hid | exact Hev].
Defined.

End Cache.

(** * SentryAction ([src/kudu/sentry/sentry_action.cc]) *)

(** [boost::iequals] on ASCII strings: equal lengths and equal characters
    once both are converted to upper case. *)
Definition to_upper (c : Ascii.ascii) : Ascii.ascii :=
  let n := Ascii.nat_of_ascii c in
  if ((97 <=? n) && (n <=? 122))%nat then Ascii.ascii_of_nat (n - 32) else c.

Fixpoint iequals (a b : string) : bool :=
  match a, b with
  | EmptyString, EmptyString => true
  | String x a', String y b' =>
      Ascii.eqb (to_upper x) (to_upper y) && iequals a' b'
  | _, _ => false
  end.

Fixpoint upper (s : string) : string :=
  match s with
  | EmptyString => EmptyString
  | String c s' => String (to_upper c) (upper s')
  end.

Lemma iequals_upper a b : iequals a b = true <-> upper a = upper b.
Proof.
  revert b. induction a as [|x a IH]; intros [|y b]; cbn [iequals upper];
    try (split; [discriminate | discriminate]); [done|].
  rewrite andb_true_iff, Ascii.eqb_eq, IH. split.
  - intros [-> ->]. reflexivity.
  - intros [= -> ->]. by split.
Qed.

Lemma iequals_refl a : iequals a a = true.
Proof. by apply iequals_upper. Qed.

Lemma iequals_upper_eq a a' b :
  upper a = upper a' -> iequals a b = iequals a' b.
Proof.
  intros Ha. destruct (iequals a b) eqn:H1, (iequals a' b) eqn:H2; try done.
  - apply iequals_upper in H1. rewrite Ha in H1.
    apply iequals_upper in H1. congruence.
  - apply iequals_upper in H2. rewrite <- Ha in H2.
    apply iequals_upper in H2. congruence.
Qed.

Lemma upper_star s : upper s = "*"%string -> s = "*"%string.
Proof.
  destruct s as [|c [|d s]]; cbn [upper]; try discriminate.
  destruct c as [[] [] [] [] [] [] [] []]; vm_compute; congruence.
Qed.

Module Sentry.

(** [SentryAction::Action] ([sentry_action.h] is not among the sources; the
    enumerators are those of the switch in [ActionToString]). *)
Inductive Action :=
| UNINITIALIZED | ALL | METADATA | SELECT | INSERT | UPDATE | DELETE
| ALTER | CREATE | DROP | OWNER.

#[export] Instance Action_eq_dec : EqDecision Action.
Proof. solve_decision. Defined.

(** class SentryAction *)
Record SentryAction := { action_ : Action }.

(** SentryAction::SentryAction() and SentryAction::SentryAction(Action) *)
Definition new_SentryAction : SentryAction := {| action_ := UNINITIALIZED |}.
Definition SentryAction_of (action : Action) : SentryAction :=
  {| action_ := action |}.

(** SentryAction::Implies; [None] is a failed [CHECK_NE], which aborts. *)
Definition Implies (this other : SentryAction) : option bool :=
  if decide (action_ this = UNINITIALIZED) then None
  else if decide (action_ other = UNINITIALIZED) then None
  else if bool_decide (action_ this = ALL) || bool_decide (action_ this = OWNER)
  then Some true
  else if bool_decide (action_ other = METADATA) then Some true
  else Some (bool_decide (action_ this = action_ other)).

Section Names.

(** The action names are declared in a header that is not among the
    sources. *)
Variables kActionAll kActionMetadata kActionSelect kActionInsert
  kActionUpdate kActionDelete kActionAlter kActionCreate kActionDrop
  kActionOwner : string.

(** SentryAction::kWildCard *)
Definition kWildCard : string := "*".

(** ActionToString *)
Definition ActionToString (action : Action) : string :=
  match action with
  | UNINITIALIZED => "UNINITIALIZED"
  | ALL => kActionAll
  | METADATA => kActionMetadata
  | SELECT => kActionSelect
  | INSERT => kActionInsert
  | UPDATE => kActionUpdate
  | DELETE => kActionDelete
  | ALTER => kActionAlter
  | CREATE => kActionCreate
  | DROP => kActionDrop
  | OWNER => kActionOwner
  end.

(** SentryAction::FromString; the second component is [*action] after the
    call. *)
Definition FromString (str : string) (action : SentryAction)
  : Status * SentryAction :=
  if iequals str kActionAll || String.eqb str kWildCard
  then (OK, {| action_ := ALL |})
  else if iequals str kActionMetadata then (OK, {| action_ := METADATA |})
  else if iequals str kActionSelect then (OK, {| action_ := SELECT |})
  else if iequals str kActionInsert then (OK, {| action_ := INSERT |})
  else if iequals str kActionUpdate then (OK, {| action_ := UPDATE |})
  else if iequals str kActionDelete then (OK, {| action_ := DELETE |})
  else if iequals str kActionAlter then (OK, {| action_ := ALTER |})
  else if iequals str kActionCreate then (OK, {| action_ := CREATE |})
  else if iequals str kActionDrop then (OK, {| action_ := DROP |})
  else if iequals str kActionOwner then (OK, {| action_ := OWNER |})
  else (InvalidArgument, action).

(** X9. [FromString] reads back what [ActionToString] writes: when no two
    of the eleven names are equal up to case and only the name of ALL may
    be the wild card, parsing the name of an initialized action gives OK
    and that action, and parsing the name of UNINITIALIZED gives
    InvalidArgument and leaves [*action] as it was. *)
Theorem FromString_ActionToString (a : Action) (old : SentryAction) :
  (forall x y, iequals (ActionToString x) (ActionToString y) = true -> x = y) ->
  (forall x, ActionToString x = kWildCard -> x = ALL) ->
  FromString (ActionToString a) old
  = if decide (a = UNINITIALIZED) then (InvalidArgument, old)
    else (OK, {| action_ := a |}).
Proof.
  intros Hinj Hwild.
  assert (Hne : forall y, a <> y ->
                          iequals (ActionToString a) (ActionToString y) = false).
  { intros y Hay. destruct (iequals _ _) eqn:E; [|reflexivity].
    by apply Hinj in E. }
  assert (Hw : a <> ALL -> String.eqb (ActionToString a) kWildCard = false).
  { intros Ha. apply String.eqb_neq. intros E. by apply Hwild in E. }
  unfold FromString.
  change kActionAll with (ActionToString ALL).
  change kActionMetadata with (ActionToString METADATA).
  change kActionSelect with (ActionToString SELECT).
  change kActionInsert with (ActionToString INSERT).
  change kActionUpdate with (ActionToString UPDATE).
  change kActionDelete with (ActionToString DELETE).
  change kActionAlter with (ActionToString ALTER).
  change kActionCreate with (ActionToString CREATE).
  change kActionDrop with (ActionToString DROP).
  change kActionOwner with (ActionToString OWNER).
  destruct a;
    rewrite ?Hw by discriminate;
    repeat (first [ rewrite iequals_refl; reflexivity
                  | rewrite Hne by discriminate; cbn [orb] ]);
    reflexivity.
Qed.

(** X10. [FromString] does not look at the case of its argument: two
    strings that are equal once converted to upper case give the same
    status and the same action. *)
Theorem FromString_ignores_case (s s' : string) (old : SentryAction) :
  upper s = upper s' -> FromString s old = FromString s' old.
Proof.
  intros Hs. unfold FromString.
  rewrite !(iequals_upper_eq s s' _ Hs).
  replace (String.eqb s kWildCard) with (String.eqb s' kWildCard);
    [reflexivity|].
  unfold kWildCard.
  destruct (String.eqb_spec s' "*") as [->|Hn'], (String.eqb_spec s "*") as [->|Hn];
    try reflexivity.
  - destruct Hn. by apply upper_star.
  - destruct Hn'. by apply upper_star.
Qed.

End Names.

(** X11. [Implies] is a preorder on the initialized actions: it is defined
    exactly when neither action is UNINITIALIZED (otherwise a CHECK fails),
    every initialized action implies itself, and implication is
    transitive. *)
Theorem Implies_preorder (a b c : SentryAction) :
  (Implies a b = None
   <-> action_ a = UNINITIALIZED \/ action_ b = UNINITIALIZED)
  /\ (action_ a <> UNINITIALIZED -> Implies a a = Some true)
  /\ (Implies a b = Some true -> Implies b c = Some true ->
      Implies a c = Some true).
Proof.
  split; [|split].
  - destruct a as [[]], b as [[]]; cbn; split; intros H;
      try discriminate H; auto; destruct H as [H|H]; discriminate H.
  - intros Ha. destruct a as [[]]; cbn in *; try reflexivity. by destruct Ha.
  - destruct a as [[]], b as [[]], c as [[]]; cbn; intros H1 H2;
      try discriminate H1; try discriminate H2; reflexivity.
Qed.

(** X12. ALL and OWNER are the top of the order and METADATA its bottom:
    each of ALL and OWNER implies every initialized action, every
    initialized action implies METADATA, and two different actions imply
    each other only when they are ALL and OWNER. *)
Theorem Implies_top_bottom (a b : SentryAction) :
  action_ a <> UNINITIALIZED -> action_ b <> UNINITIALIZED ->
  (action_ a = ALL \/ action_ a = OWNER -> Implies a b = Some true)
  /\ (action_ b = METADATA -> Implies a b = Some true)
  /\ (Implies a b = Some true -> Implies b a = Some true ->
      action_ a = action_ b
      \/ (action_ a = ALL /\ action_ b = OWNER)
      \/ (action_ a = OWNER /\ action_ b = ALL)).
Proof.
  intros Ha Hb. split; [|split].
  - destruct a as [[]], b as [[]]; cbn in *; intros [H|H];
      try discriminate H; try reflexivity; by destruct Hb.
  - destruct a as [[]], b as [[]]; cbn in *; intros H;
      try discriminate H; try reflexivity; by destruct Ha.
  - destruct a as [[]], b as [[]]; cbn; intros H1 H2;
      try discriminate H1; try discriminate H2; auto.
Qed.

(** The names as they are spelled in Sentry. *)
Definition example_ActionToString : Action -> string :=
  ActionToString "ALL" "METADATA" "SELECT" "INSERT" "UPDATE" "DELETE"
                 "ALTER" "CREATE" "DROP" "OWNER".

Definition example_FromString : string -> SentryAction -> Status * SentryAction :=
  FromString "ALL" "METADATA" "SELECT" "INSERT" "UPDATE" "DELETE"
             "ALTER" "CREATE" "DROP" "OWNER".

Example from_string_cases :
  example_FromString "select" new_SentryAction = (OK, SentryAction_of SELECT)
  /\ example_FromString "*" new_SentryAction = (OK, SentryAction_of ALL)
  /\ example_FromString "grant" (SentryAction_of DROP)
     = (InvalidArgument, SentryAction_of DROP).
Proof. repeat split. Qed.

Lemma FromString_ActionToString_witness :
  example_FromString (example_ActionToString CREATE) new_SentryAction
  = (OK, SentryAction_of CREATE).
Proof.
  refine (FromString_ActionToString "ALL" "METADATA" "SELECT" "INSERT"
            "UPDATE" "DELETE" "ALTER" "CREATE" "DROP" "OWNER"
            CREATE new_SentryAction _ _).
  - intros [] []; vm_compute; congruence.
  - intros []; vm_compute; congruence.
Defined.

Lemma FromString_ignores_case_witness :
  example_FromString "Insert" new_SentryAction
  = example_FromString "INSERT" new_SentryAction.
Proof.
  exact (FromString_ignores_case "ALL" "METADATA" "SELECT" "INSERT"
           "UPDATE" "DELETE" "ALTER" "CREATE" "DROP" "OWNER"
           "Insert" "INSERT" new_SentryAction eq_refl).
Defined.

Lemma Implies_preorder_witness :
  Implies (SentryAction_of OWNER) (SentryAction_of ALTER) = Some true
  /\ Implies (SentryAction_of ALTER) (SentryAction_of METADATA) = Some true
  /\ Implies (SentryAction_of OWNER) (SentryAction_of METADATA) = Some true.
Proof.
  assert (H1 : Implies (SentryAction_of OWNER) (SentryAction_of ALTER)
               = Some true) by reflexivity.
  assert (H2 : Implies (SentryAction_of ALTER) (SentryAction_of METADATA)
               = Some true) by reflexivity.
  split; [exact H1|]. split; [exact H2|].
  exact (proj2 (proj2 (Implies_preorder (SentryAction_of OWNER)
                         (SentryAction_of ALTER) (SentryAction_of METADATA)))
           H1 H2).
Defined.

Lemma Implies_top_bottom_witness :
  action_ (SentryAction_of ALL) <> UNINITIALIZED
  /\ action_ (SentryAction_of SELECT) <> UNINITIALIZED
  /\ Implies (SentryAction_of ALL) (SentryAction_of SELECT) = Some true.
Proof.
  assert (Ha : action_ (SentryAction_of ALL) <> UNINITIALIZED)
    by discriminate.
  assert (Hb : action_ (SentryAction_of SELECT) <> UNINITIALIZED)
    by discriminate.
  split; [exact Ha|]. split; [exact Hb|].
  exact (proj1 (Implies_top_bottom (SentryAction_of ALL)
                  (SentryAction_of SELECT) Ha Hb) (or_introl eq_refl)).
Defined.

End Sentry.

(** * DataTable ([src/kudu/tools/tool_action_common.cc]) *)

Module Tools.

Local Open Scope nat_scope.

(** A [std::string] is a run of characters; [out] is the text written to
    the stream. *)
Abbreviation str := (list Ascii.ascii).

Definition endl : str := [Ascii.ascii_of_nat 10].

(** class DataTable ([tool_action_common.h]) *)
Record DataTable := {
  column_names_ : list str;
  columns_ : list (list str)
}.

(** DataTable::DataTable *)
Definition new_DataTable (col_names : list str) : DataTable :=
  {| column_names_ := col_names;
     columns_ := replicate (length col_names) [] |}.

(** The loop of [AddRow]: [columns_[i++].emplace_back(v)] for each [v]. *)
Fixpoint AddRow_loop (i : nat) (row : list str) (columns : list (list str))
  : list (list str) :=
  match row with
  | [] => columns
  | v :: rest => AddRow_loop (S i) rest (alter (fun c => c ++ [v]) i columns)
  end.

(** DataTable::AddRow; [None] is a failed [CHECK_EQ], which aborts. *)
Definition AddRow (row : list str) (t : DataTable) : option DataTable :=
  if decide (length row = length (columns_ t)) then
    Some {| column_names_ := column_names_ t;
            columns_ := AddRow_loop 0 row (columns_ t) |}
  else None.

(** DataTable::AddColumn *)
Definition AddColumn (name : str) (column : list str) (t : DataTable)
  : option DataTable :=
  match columns_ t with
  | c0 :: _ =>
      if decide (length column = length c0) then
        Some {| column_names_ := column_names_ t ++ [name];
                columns_ := columns_ t ++ [column] |}
      else None
  | [] =>
      Some {| column_names_ := column_names_ t ++ [name];
              columns_ := columns_ t ++ [column] |}
  end.

(** [columns.empty() ? 0 : columns[0].size()] *)
Definition num_rows (columns : list (list str)) : nat :=
  match columns with
  | [] => 0
  | c0 :: _ => length c0
  end.

(** The inner loop of [PrintTable] over the columns still to be printed;
    [None] is an access outside a column (undefined in the source). *)
Fixpoint PrintTable_row (columns : list (list str)) (separator : str)
    (row : nat) (cols : list nat) : option str :=
  match cols with
  | [] => Some []
  | col :: rest =>
      column ← columns !! col;
      value ← column !! row;
      out ← PrintTable_row columns separator row rest;
      Some (value
            ++ (if decide (col = length columns - 1) then [] else separator)
            ++ out)
  end.

Fixpoint PrintTable_rows (columns : list (list str)) (separator : str)
    (rows : list nat) : option str :=
  match rows with
  | [] => Some []
  | row :: rest =>
      line ← PrintTable_row columns separator row (seq 0 (length columns));
      out ← PrintTable_rows columns separator rest;
      Some (line ++ endl ++ out)
  end.

(** PrintTable *)
Definition PrintTable (columns : list (list str)) (separator : str)
  : option str :=
  PrintTable_rows columns separator (seq 0 (num_rows columns)).

(** [out << setw(n) << ""] with fill character [fill]. *)
Definition setw_empty (fill : Ascii.ascii) (n : nat) : str := replicate n fill.

Definition space : Ascii.ascii := Ascii.ascii_of_nat 32.
Definition bar : Ascii.ascii := Ascii.ascii_of_nat 124.
Definition dash : Ascii.ascii := Ascii.ascii_of_nat 45.
Definition plus : Ascii.ascii := Ascii.ascii_of_nat 43.

(** The [std::accumulate] of [PrettyPrintTable]: the longest of the header
    and the cells of a column. *)
Definition column_width (header : str) (column : list str) : nat :=
  foldl (fun acc cell => Nat.max acc (length cell)) (length header) column.

(** What [PrettyPrintTable] writes for column [col] of the header row, of
    the separator row and of a data row, given the last column.  The
    header row is padded with [fill], the fill character of the stream
    when the function is called: [setfill] is called only before the
    separator row and before the data rows. *)
Definition header_cell (fill : Ascii.ascii) (last : nat) (col width : nat)
    (header : str) : str :=
  let padding := width - length header in
  setw_empty fill (padding / 2) ++ [space] ++ header
  ++ (if decide (col = last) then []
      else setw_empty fill ((padding + 1) / 2) ++ [space; bar]).

Definition separator_cell (last : nat) (col width : nat) : str :=
  setw_empty dash (width + 2)
  ++ (if decide (col = last) then [] else [plus]).

Definition data_cell (last : nat) (col width : nat) (value : str) : str :=
  [space] ++ value
  ++ (if decide (col = last) then []
      else setw_empty space (width - length value) ++ [space; bar]).

(** The cells of row [row], column by column. *)
Fixpoint row_values (columns : list (list str)) (row : nat) (cols : list nat)
  : option (list str) :=
  match cols with
  | [] => Some []
  | col :: rest =>
      column ← columns !! col;
      value ← column !! row;
      values ← row_values columns row rest;
      Some (value :: values)
  end.

Fixpoint data_lines (columns : list (list str)) (widths : list nat)
    (num_columns : nat) (rows : list nat) : option (list str) :=
  match rows with
  | [] => Some []
  | row :: rest =>
      values ← row_values columns row (seq 0 num_columns);
      lines ← data_lines columns widths num_columns rest;
      Some (concat (imap (fun col '(w, v) =>
                            data_cell (num_columns - 1) col w v)
                         (zip widths values)) :: lines)
  end.

(** The lines of [PrettyPrintTable], each written before an [endl]. *)
Definition pretty_lines (fill : Ascii.ascii) (headers : list str)
    (columns : list (list str)) : option (list str) :=
  let num_columns := length headers in
  let widths := zip_with column_width headers columns in
  lines ← data_lines columns widths num_columns (seq 0 (num_rows columns));
  Some (concat (imap (fun col '(w, h) =>
                        header_cell fill (num_columns - 1) col w h)
                     (zip widths headers))
        :: concat (imap (fun col w => separator_cell (num_columns - 1) col w)
                        widths)
        :: lines).

(** PrettyPrintTable on a stream whose fill character is [fill]; [None] is
    a failed [CHECK_EQ] or an access outside a column. *)
Definition PrettyPrintTable (fill : Ascii.ascii) (headers : list str)
    (columns : list (list str)) : option str :=
  if decide (length headers = length columns) then
    match headers with
    | [] => Some []
    | _ =>
        lines ← pretty_lines fill headers columns;
        Some (concat (map (fun line => line ++ endl) lines))
    end
  else None.

(** The table has as many names as columns, and its columns have the same
    number of cells. *)
Definition rectangular (t : DataTable) : Prop :=
  length (column_names_ t) = length (columns_ t)
  /\ Forall (fun c => length c = num_rows (columns_ t)) (columns_ t).

(** The cells of a row joined by the separator. *)
Fixpoint join (separator : str) (row : list str) : str :=
  match row with
  | [] => []
  | [v] => v
  | v :: rest => v ++ separator ++ join separator rest
  end.

(** A sequence of [AddRow] calls. *)
Fixpoint AddRows (rows : list (list str)) (t : DataTable) : option DataTable :=
  match rows with
  | [] => Some t
  | row :: rest => t' ← AddRow row t; AddRows rest t'
  end.

(** The calls that fill a table. *)
Inductive Call :=
| CallAddRow (row : list str)
| CallAddColumn (name : str) (column : list str).

Fixpoint calls (cs : list Call) (t : DataTable) : option DataTable :=
  match cs with
  | [] => Some t
  | CallAddRow row :: rest => t' ← AddRow row t; calls rest t'
  | CallAddColumn name column :: rest =>
      t' ← AddColumn name column t; calls rest t'
  end.

(** Where column [col] starts in a line of [PrettyPrintTable]: each column
    before it takes its width and three more characters. *)
Definition column_start (widths : list nat) (col : nat) : nat :=
  sum_list_with (fun w => w + 3) (take col widths).

(** ** Rows and columns *)

Lemma AddRow_loop_zip row pre columns :
  length row = length columns ->
  AddRow_loop (length pre) row (pre ++ columns)
  = pre ++ zip_with (fun c v => c ++ [v]) columns row.
Proof.
  revert pre columns. induction row as [|v rest IH]; intros pre [|c cols] Hlen;
    try discriminate Hlen; [reflexivity|].
  cbn [AddRow_loop zip_with].
  replace (alter (fun c0 => c0 ++ [v]) (length pre) (pre ++ c :: cols))
    with ((pre ++ [c ++ [v]]) ++ cols).
  - replace (S (length pre)) with (length (pre ++ [c ++ [v]]))
      by (rewrite length_app; cbn; lia).
    rewrite IH by (by injection Hlen). by rewrite <- app_assoc.
  - pose proof (alter_app_r (fun c0 => c0 ++ [v]) pre (c :: cols) 0) as Ha.
    rewrite Nat.add_0_r in Ha. rewrite Ha. cbn. by rewrite <- app_assoc.
Qed.

Lemma AddRow_columns row t t' :
  AddRow row t = Some t' ->
  length row = length (columns_ t)
  /\ column_names_ t' = column_names_ t
  /\ columns_ t' = zip_with (fun c v => c ++ [v]) (columns_ t) row.
Proof.
  unfold AddRow. destruct (decide _) as [Hlen|]; [|discriminate].
  intros [= <-]. split; [exact Hlen|]. split; [reflexivity|].
  apply (AddRow_loop_zip row [] (columns_ t) Hlen).
Qed.

Lemma num_rows_lookup columns col c :
  Forall (fun c => length c = num_rows columns) columns ->
  columns !! col = Some c -> length c = num_rows columns.
Proof. intros Hall Hc. by apply (Forall_lookup_1 _ _ _ _ Hall Hc). Qed.

Lemma AddRow_rectangular row t t' :
  rectangular t -> AddRow row t = Some t' -> rectangular t'.
Proof.
  intros [Hn Hall] Hadd.
  destruct (AddRow_columns row t t' Hadd) as (Hlen & Hnames & Hcols).
  unfold rectangular. rewrite Hnames, Hcols.
  split.
  - rewrite length_zip_with. lia.
  - destruct (columns_ t) as [|c0 cols] eqn:Hc; [by destruct row|].
    destruct row as [|v row]; [discriminate Hlen|].
    cbn [zip_with num_rows]. cbn [num_rows] in Hall.
    apply Forall_cons in Hall as [_ Hall].
    apply Forall_cons. split; [reflexivity|].
    rewrite length_app. cbn [length].
    apply Forall_lookup_2. intros i x Hx.
    apply lookup_zip_with_Some in Hx as (c & w & -> & Hc' & _).
    rewrite length_app. cbn [length].
    by rewrite (Forall_lookup_1 _ _ _ _ Hall Hc').
Qed.

Lemma AddColumn_rectangular name column t t' :
  rectangular t -> AddColumn name column t = Some t' -> rectangular t'.
Proof.
  intros [Hn Hall]. unfold AddColumn, rectangular.
  destruct (columns_ t) as [|c0 cols] eqn:Hc.
  - intros [= <-]. cbn [column_names_ columns_].
    rewrite length_app, Hn. split; [reflexivity|].
    cbn. by apply Forall_singleton.
  - destruct (decide _) as [Hlen|]; [|discriminate].
    intros [= <-]. cbn [column_names_ columns_].
    split; [rewrite length_app, Hn; cbn [app length];
            rewrite length_app; cbn [length]; lia|].
    cbn [app num_rows]. cbn [num_rows] in Hall.
    apply Forall_cons in Hall as [_ Hall].
    apply Forall_cons. split; [reflexivity|].
    apply Forall_app. split; [exact Hall|]. by apply Forall_singleton.
Qed.

Lemma new_DataTable_rectangular names : rectangular (new_DataTable names).
Proof.
  unfold rectangular, new_DataTable. cbn [column_names_ columns_].
  rewrite length_replicate. split; [reflexivity|].
  apply Forall_forall. intros c Hc. apply elem_of_replicate in Hc as [-> _].
  destruct names; reflexivity.
Qed.

Lemma join_cons separator v w rest :
  join separator (v :: w :: rest)
  = v ++ separator ++ join separator (w :: rest).
Proof. reflexivity. Qed.

(** One line of [PrintTable], when row [row] of the table holds [r]. *)
Lemma PrintTable_row_join columns separator row r b :
  length r = length columns ->
  (forall col v, r !! col = Some v ->
                 exists column, columns !! col = Some column
                                /\ column !! row = Some v) ->
  b <= length columns ->
  PrintTable_row columns separator row (seq b (length columns - b))
  = Some (join separator (drop b r)).
Proof.
  intros Hlen Hcells.
  remember (length columns - b) as m eqn:Hm. revert b Hm.
  induction m as [|m IH]; intros b Hm Hb.
  - rewrite drop_ge by lia. reflexivity.
  - cbn [seq PrintTable_row].
    assert (Hbl : b < length r) by lia.
    destruct (lookup_lt_is_Some_2 r b Hbl) as [v Hv].
    destruct (Hcells b v Hv) as (column & Hcol & Hval).
    rewrite Hcol. cbn [mbind option_bind]. rewrite Hval.
    cbn [mbind option_bind].
    rewrite (IH (S b)) by lia. cbn [mbind option_bind]. f_equal.
    rewrite (drop_S r v b Hv).
    destruct (decide (b = length columns - 1)) as [Hlast|Hmid].
    + rewrite drop_ge by lia. cbn [join app]. by rewrite app_nil_r.
    + assert (Hsl : S b < length r) by lia.
      destruct (lookup_lt_is_Some_2 r (S b) Hsl) as [w Hw].
      rewrite (drop_S r w (S b) Hw). by rewrite join_cons.
Qed.

(** The columns after a sequence of [AddRow] calls. *)
Lemma AddRows_columns rows t :
  Forall (fun r => length r = length (columns_ t)) rows ->
  exists t', AddRows rows t = Some t'
    /\ column_names_ t' = column_names_ t
    /\ length (columns_ t') = length (columns_ t)
    /\ forall col c, columns_ t !! col = Some c ->
         columns_ t' !! col = Some (c ++ map (fun r => nth col r []) rows).
Proof.
  revert t. induction rows as [|row rest IH]; intros t Hall.
  - exists t. repeat split; try done.
    intros col c Hc. by rewrite app_nil_r.
  - apply Forall_cons in Hall as [Hrow Hall].
    cbn [AddRows].
    destruct (AddRow row t) as [t1|] eqn:Hadd.
    2:{ unfold AddRow in Hadd. by destruct (decide _). }
    destruct (AddRow_columns row t t1 Hadd) as (_ & Hn1 & Hc1).
    cbn [mbind option_bind].
    assert (Hlen1 : length (columns_ t1) = length (columns_ t)).
    { rewrite Hc1, length_zip_with. lia. }
    destruct (IH t1) as (t' & Hrest & Hnames & Hlen & Hcols).
    { rewrite Hlen1. exact Hall. }
    exists t'. split; [exact Hrest|]. split; [congruence|].
    split; [lia|].
    intros col c Hc.
    assert (Hcl : col < length row).
    { rewrite Hrow. by apply lookup_lt_Some in Hc. }
    destruct (lookup_lt_is_Some_2 row col Hcl) as [v Hv].
    rewrite (Hcols col (c ++ [v])).
    + cbn [map]. rewrite <- app_assoc. cbn [app].
      by rewrite (nth_lookup_Some _ _ [] _ Hv).
    + rewrite Hc1, lookup_zip_with, Hc.
      cbn [mbind option_bind]. by rewrite Hv.
Qed.

Lemma PrintTable_rows_join columns separator (pre rows : list (list str)) :
  Forall (fun r => length r = length columns) rows ->
  (forall col, col < length columns ->
     columns !! col = Some (map (fun r => nth col r []) (pre ++ rows))) ->
  PrintTable_rows columns separator (seq (length pre) (length rows))
  = Some (concat (map (fun r => join separator r ++ endl) rows)).
Proof.
  revert pre. induction rows as [|r rest IH]; intros pre Hall Hcols;
    [reflexivity|].
  apply Forall_cons in Hall as [Hr Hall].
  cbn [length seq PrintTable_rows map concat].
  rewrite <- (Nat.sub_0_r (length columns)).
  rewrite (PrintTable_row_join columns separator (length pre) r 0 Hr);
    [|intros col v Hv|lia].
  - cbn [mbind option_bind drop].
    replace (S (length pre)) with (length (pre ++ [r]))
      by (rewrite length_app; cbn; lia).
    rewrite (IH (pre ++ [r]) Hall).
    + cbn [mbind option_bind]. by rewrite <- app_assoc.
    + intros col Hcol. rewrite <- app_assoc. by apply Hcols.
  - assert (Hcol : col < length columns).
    { rewrite <- Hr. by apply lookup_lt_Some in Hv. }
    eexists. split; [by apply Hcols|].
    rewrite list_lookup_fmap, lookup_app_r by lia.
    rewrite Nat.sub_diag. cbn. by rewrite (nth_lookup_Some _ _ [] _ Hv).
Qed.

(** X13. Whatever the sequence of [AddRow] and [AddColumn] calls on a new
    table, if none of them fails its CHECK the table is rectangular: it has
    as many column names as columns, and all columns hold the same number
    of cells. *)
Theorem DataTable_rectangular (names : list str) (cs : list Call)
    (t : DataTable) :
  calls cs (new_DataTable names) = Some t -> rectangular t.
Proof.
  generalize (new_DataTable_rectangular names).
  generalize (new_DataTable names). intros t0 Hrect Hcalls.
  revert t0 Hrect Hcalls. induction cs as [|[row|name column] rest IH];
    intros t0 Hrect Hcalls; cbn [calls] in Hcalls.
  - by injection Hcalls as <-.
  - destruct (AddRow row t0) as [t1|] eqn:Hadd; [|discriminate].
    apply (IH t1); [by apply (AddRow_rectangular row t0)|exact Hcalls].
  - destruct (AddColumn name column t0) as [t1|] eqn:Hadd; [|discriminate].
    apply (IH t1); [by apply (AddColumn_rectangular name column t0)|exact Hcalls].
Qed.

(** X14. Rows come out as they went in: after [AddRow] calls with rows of
    as many cells as the table has columns (at least one), [PrintTable]
    writes the rows in the order they were added, each row as its cells
    joined by the separator and followed by a line end. *)
Theorem PrintTable_AddRows (names : list str) (rows : list (list str))
    (separator : str) :
  names <> [] ->
  Forall (fun r => length r = length names) rows ->
  exists t, AddRows rows (new_DataTable names) = Some t
    /\ PrintTable (columns_ t) separator
       = Some (concat (map (fun r => join separator r ++ endl) rows)).
Proof.
  intros Hne Hall.
  assert (Hlen0 : length (columns_ (new_DataTable names)) = length names)
    by apply length_replicate.
  destruct (AddRows_columns rows (new_DataTable names))
    as (t & Hadd & _ & Hlen & Hcols); [by rewrite Hlen0|].
  exists t. split; [exact Hadd|].
  rewrite Hlen0 in Hlen.
  assert (Hcol : forall col, col < length (columns_ t) ->
            columns_ t !! col = Some (map (fun r => nth col r []) rows)).
  { intros col Hlt. rewrite (Hcols col []); [reflexivity|].
    apply lookup_replicate_2. lia. }
  unfold PrintTable.
  assert (Hrows : num_rows (columns_ t) = length rows).
  { destruct names as [|n0 names]; [by destruct Hne|].
    specialize (Hcol 0). rewrite Hlen in Hcol. cbn [length] in Hcol.
    destruct (columns_ t) as [|c0 cols]; [discriminate Hlen|].
    cbn in Hcol. specialize (Hcol ltac:(lia)). injection Hcol as ->.
    cbn [num_rows]. by rewrite length_map. }
  rewrite Hrows.
  apply (PrintTable_rows_join (columns_ t) separator [] rows).
  - by rewrite Hlen.
  - exact Hcol.
Qed.

(** ** The layout of PrettyPrintTable *)

Lemma halves n : n / 2 + (n + 1) / 2 = n.
Proof.
  pose proof (Nat.div_mod_eq n 2). pose proof (Nat.div_mod_eq (n + 1) 2).
  pose proof (Nat.mod_upper_bound n 2).
  assert ((n + 1) mod 2 = 1 - n mod 2).
  { rewrite Nat.Div0.add_mod by lia.
    destruct (n mod 2) as [|[|k]] eqn:E; try lia; reflexivity. }
  lia.
Qed.

Lemma column_width_ge header column :
  length header <= column_width header column
  /\ forall cell, cell ∈ column -> length cell <= column_width header column.
Proof.
  unfold column_width. generalize (length header) as acc.
  induction column as [|c column IH]; intros acc; cbn [foldl].
  - split; [lia|]. intros cell Hc. by apply elem_of_nil in Hc.
  - destruct (IH (Nat.max acc (length c))) as [Hacc Hcells].
    split; [lia|]. intros cell Hc.
    apply elem_of_cons in Hc as [->|Hc]; [lia | by apply Hcells].
Qed.

Lemma length_header_cell fill last col w h :
  col <> last -> length h <= w ->
  length (header_cell fill last col w h) = w + 3.
Proof.
  intros Hcol Hw. unfold header_cell, setw_empty.
  destruct (decide (col = last)) as [|_]; [done|].
  rewrite !length_app, !length_replicate. cbn [length].
  pose proof (halves (w - length h)). lia.
Qed.

Lemma length_separator_cell last col w :
  col <> last -> length (separator_cell last col w) = w + 3.
Proof.
  intros Hcol. unfold separator_cell, setw_empty.
  destruct (decide (col = last)) as [|_]; [done|].
  rewrite !length_app, !length_replicate. cbn [length]. lia.
Qed.

Lemma length_data_cell last col w v :
  col <> last -> length v <= w -> length (data_cell last col w v) = w + 3.
Proof.
  intros Hcol Hw. unfold data_cell, setw_empty.
  destruct (decide (col = last)) as [|_]; [done|].
  rewrite !length_app, !length_replicate. cbn [length]. lia.
Qed.

Lemma lookup_snoc2 (l : str) (a b : Ascii.ascii) :
  (l ++ [a; b]) !! (length l + 1) = Some b.
Proof. rewrite lookup_app_r by lia. by replace (length l + 1 - length l) with 1 by lia. Qed.

Lemma header_cell_bar fill last col w h :
  col <> last -> length h <= w ->
  header_cell fill last col w h !! (w + 2) = Some bar.
Proof.
  intros Hcol Hw. unfold header_cell, setw_empty.
  destruct (decide (col = last)) as [|_]; [done|].
  rewrite !app_assoc.
  match goal with |- (?l ++ _) !! _ = _ =>
    replace (w + 2) with (length l + 1); [apply lookup_snoc2|] end.
  rewrite !length_app, !length_replicate. cbn [length].
  pose proof (halves (w - length h)). lia.
Qed.

Lemma separator_cell_plus last col w :
  col <> last -> separator_cell last col w !! (w + 2) = Some plus.
Proof.
  intros Hcol. unfold separator_cell, setw_empty.
  destruct (decide (col = last)) as [|_]; [done|].
  rewrite lookup_app_r by (rewrite length_replicate; lia).
  rewrite length_replicate. by replace (w + 2 - (w + 2)) with 0 by lia.
Qed.

Lemma data_cell_bar last col w v :
  col <> last -> length v <= w ->
  data_cell last col w v !! (w + 2) = Some bar.
Proof.
  intros Hcol Hw. unfold data_cell, setw_empty.
  destruct (decide (col = last)) as [|_]; [done|].
  rewrite !app_assoc.
  match goal with |- (?l ++ _) !! _ = _ =>
    replace (w + 2) with (length l + 1); [apply lookup_snoc2|] end.
  rewrite !length_app, !length_replicate. cbn [length]. lia.
Qed.

(** A line made of one cell per column, where the cells before [col] take
    their width and three more characters: what is left of the line from
    the start of column [col]. *)
Lemma drop_column_start (cells : list str) (widths : list nat) col cell :
  (forall j w c, j < col -> widths !! j = Some w -> cells !! j = Some c ->
                 length c = w + 3) ->
  length cells = length widths ->
  cells !! col = Some cell ->
  drop (column_start widths col) (concat cells)
  = cell ++ concat (drop (S col) cells).
Proof.
  intros Hlens Hlen Hcell.
  rewrite <- (take_drop_middle cells col cell Hcell) at 1.
  rewrite concat_app. cbn [concat].
  apply drop_app_length'.
  assert (Hcol : col <= length cells)
    by (apply lookup_lt_Some in Hcell; lia).
  clear Hcell. unfold column_start.
  induction col as [|col IH]; [reflexivity|].
  destruct (lookup_lt_is_Some_2 cells col ltac:(lia)) as [c Hc].
  destruct (lookup_lt_is_Some_2 widths col ltac:(lia)) as [w Hw].
  rewrite (take_S_r _ _ _ Hc), (take_S_r _ _ _ Hw).
  rewrite concat_app, length_app, sum_list_with_app.
  rewrite <- IH by (intros; eauto with lia || lia).
  cbn [concat sum_list_with]. rewrite app_nil_r.
  rewrite (Hlens col w c); [lia | lia | exact Hw | exact Hc].
Qed.

Lemma lookup_column_start (cells : list str) (widths : list nat) col cell i x :
  (forall j w c, j < col -> widths !! j = Some w -> cells !! j = Some c ->
                 length c = w + 3) ->
  length cells = length widths ->
  cells !! col = Some cell ->
  cell !! i = Some x ->
  concat cells !! (column_start widths col + i) = Some x.
Proof.
  intros Hlens Hlen Hcell Hx.
  rewrite <- lookup_drop, (drop_column_start cells widths col cell) by done.
  by apply lookup_app_l_Some.
Qed.

Lemma row_values_spec columns row cols values :
  row_values columns row cols = Some values ->
  length values = length cols
  /\ forall i col v, cols !! i = Some col -> values !! i = Some v ->
       exists column, columns !! col = Some column /\ column !! row = Some v.
Proof.
  revert values. induction cols as [|col rest IH]; intros values Hv;
    cbn [row_values] in Hv.
  - injection Hv as <-. split; [reflexivity|]. intros i ? ? Hi. done.
  - destruct (columns !! col) as [column|] eqn:Hcol; [|discriminate].
    cbn [mbind option_bind] in Hv.
    destruct (column !! row) as [value|] eqn:Hval; [|discriminate].
    cbn [mbind option_bind] in Hv.
    destruct (row_values columns row rest) as [vs|]; [|discriminate].
    injection Hv as <-. destruct (IH vs eq_refl) as [Hlen Hvs].
    split; [cbn; lia|].
    intros [|i] c v Hc Hv; cbn in Hc, Hv.
    + injection Hc as <-. injection Hv as <-. eauto.
    + eauto.
Qed.

Lemma data_lines_spec columns widths num_columns rows lines :
  data_lines columns widths num_columns rows = Some lines ->
  length lines = length rows
  /\ forall j row line, rows !! j = Some row -> lines !! j = Some line ->
       exists values,
         row_values columns row (seq 0 num_columns) = Some values
         /\ line = concat (imap (fun col '(w, v) =>
                                   data_cell (num_columns - 1) col w v)
                                (zip widths values)).
Proof.
  revert lines. induction rows as [|row rest IH]; intros lines Hl;
    cbn [data_lines] in Hl.
  - injection Hl as <-. split; [reflexivity|]. intros j ? ? Hj. done.
  - destruct (row_values columns row _) as [values|] eqn:Hv; [|discriminate].
    cbn [mbind option_bind] in Hl.
    destruct (data_lines columns widths num_columns rest) as [ls|];
      [|discriminate].
    injection Hl as <-. destruct (IH ls eq_refl) as [Hlen Hls].
    split; [cbn; lia|].
    intros [|j] r line Hr Hline; cbn in Hr, Hline.
    + injection Hr as <-. injection Hline as <-. eauto.
    + eauto.
Qed.

Lemma imap_zip_lookup {B} (f : nat -> nat -> B -> str) (widths : list nat)
    (xs : list B) j c :
  imap (fun col '(w, x) => f col w x) (zip widths xs) !! j = Some c ->
  exists w x, widths !! j = Some w /\ xs !! j = Some x /\ c = f j w x.
Proof.
  rewrite list_lookup_imap.
  destruct (zip widths xs !! j) as [[w x]|] eqn:Hz; [|discriminate].
  intros [= <-]. apply lookup_zip_with_Some in Hz as (w' & x' & [= -> ->] & Hw & Hx).
  eauto.
Qed.

Lemma length_imap_zip {B} (f : nat -> nat -> B -> str) (widths : list nat)
    (xs : list B) :
  length xs = length widths ->
  length (imap (fun col '(w, x) => f col w x) (zip widths xs)) = length widths.
Proof. intros Hlen. rewrite length_imap, length_zip_with. lia. Qed.

Lemma widths_lookup headers columns j w :
  zip_with column_width headers columns !! j = Some w ->
  exists h column, headers !! j = Some h /\ columns !! j = Some column
                   /\ w = column_width h column.
Proof.
  intros Hw. apply lookup_zip_with_Some in Hw as (h & column & -> & Hh & Hc).
  eauto.
Qed.

(** In a line of cells, the last character of every column but the last
    one is at the same place. *)
Lemma cells_lookup (cells : list str) (widths : list nat) last c col w :
  length cells = length widths ->
  (forall j wj cj, j < last -> widths !! j = Some wj -> cells !! j = Some cj ->
                   length cj = wj + 3 /\ cj !! (wj + 2) = Some c) ->
  col < last -> widths !! col = Some w ->
  concat cells !! (column_start widths col + w + 2) = Some c.
Proof.
  intros Hlen Hcells Hcol Hw.
  assert (Hlt : col < length cells)
    by (rewrite Hlen; by apply lookup_lt_Some in Hw).
  destruct (lookup_lt_is_Some_2 cells col Hlt) as [cell Hcell].
  rewrite <- Nat.add_assoc.
  apply (lookup_column_start cells widths col cell); try done.
  - intros j wj cj Hj Hwj Hcj. apply (Hcells j wj cj); [lia | done | done].
  - by apply (Hcells col w cell).
Qed.

Lemma PrettyPrintTable_lines fill headers columns out :
  headers <> [] ->
  PrettyPrintTable fill headers columns = Some out ->
  length headers = length columns
  /\ exists data,
      data_lines columns (zip_with column_width headers columns)
                 (length headers) (seq 0 (num_rows columns)) = Some data
      /\ out
         = concat
             (map (fun line => line ++ endl)
                (concat (imap (fun col '(w, h) =>
                                 header_cell fill (length headers - 1) col w h)
                              (zip (zip_with column_width headers columns)
                                   headers))
                 :: concat (imap (fun col w =>
                                    separator_cell (length headers - 1) col w)
                                 (zip_with column_width headers columns))
                 :: data)).
Proof.
  intros Hne. unfold PrettyPrintTable.
  destruct (decide _) as [Hlen|]; [|discriminate].
  destruct headers as [|h0 headers]; [by destruct Hne|].
  unfold pretty_lines.
  destruct (data_lines _ _ _) as [data|]; [|discriminate].
  cbn [mbind option_bind]. intros [= <-]. split; [exact Hlen|].
  by exists data.
Qed.

(** The data line of row [row]. *)
Lemma data_line headers columns data row line :
  length headers = length columns ->
  data_lines columns (zip_with column_width headers columns)
             (length headers) (seq 0 (num_rows columns)) = Some data ->
  data !! row = Some line ->
  exists values,
    length values = length headers
    /\ (forall col v, values !! col = Some v ->
          exists h column,
            headers !! col = Some h /\ columns !! col = Some column
            /\ column !! row = Some v
            /\ length v <= column_width h column)
    /\ line = concat (imap (fun col '(w, v) =>
                              data_cell (length headers - 1) col w v)
                           (zip (zip_with column_width headers columns)
                                values)).
Proof.
  intros Hlen Hdata Hline.
  destruct (data_lines_spec _ _ _ _ _ Hdata) as [Hdl Hrows].
  rewrite length_seq in Hdl.
  assert (Hrow : row < num_rows columns)
    by (rewrite <- Hdl; by apply lookup_lt_Some in Hline).
  destruct (Hrows row row line) as (values & Hvalues & ->);
    [by apply lookup_seq_lt | exact Hline |].
  destruct (row_values_spec _ _ _ _ Hvalues) as [Hvl Hcells].
  rewrite length_seq in Hvl.
  exists values. split; [exact Hvl|]. split; [|reflexivity].
  intros col v Hv.
  assert (Hcol : col < length headers)
    by (rewrite <- Hvl; by apply lookup_lt_Some in Hv).
  destruct (Hcells col col v) as (column & Hc & Hcv);
    [by apply lookup_seq_lt | exact Hv |].
  destruct (lookup_lt_is_Some_2 headers col Hcol) as [h Hh].
  exists h, column. repeat split; try done.
  apply column_width_ge. by apply list_elem_of_lookup_2 in Hcv.
Qed.

(** X15. The column separators of [PrettyPrintTable] line up, whatever
    fill character the stream has when the function is called: the output
    is a header line, a separator line and one line per row, each followed
    by a line end, and for every column but the last one the character at
    the column's start plus its width plus 2 is ["+"] in the separator
    line and ["|"] in every other line, where a column starts after the
    widths of the columns before it and three more characters for each,
    and the width of a column is the longest of its header and cells. *)
Theorem PrettyPrintTable_separators (fill : Ascii.ascii)
    (headers : list str) (columns : list (list str)) (out : str) :
  headers <> [] ->
  PrettyPrintTable fill headers columns = Some out ->
  let widths := zip_with column_width headers columns in
  exists lines,
    out = concat (map (fun line => line ++ endl) lines)
    /\ length lines = 2 + num_rows columns
    /\ forall k line col w,
         lines !! k = Some line -> widths !! col = Some w ->
         col < length headers - 1 ->
         line !! (column_start widths col + w + 2)
         = Some (if decide (k = 1) then plus else bar).
Proof.
  intros Hne Hout widths.
  destruct (PrettyPrintTable_lines fill headers columns out Hne Hout)
    as (Hlen & data & Hdata & ->).
  fold widths in Hdata |- *.
  assert (Hwl : length widths = length headers).
  { unfold widths. rewrite length_zip_with. lia. }
  eexists. split; [reflexivity|]. split.
  { cbn [length]. destruct (data_lines_spec _ _ _ _ _ Hdata) as [-> _].
    by rewrite length_seq. }
  intros k line col w Hline Hw Hcol.
  destruct k as [|[|row]]; cbn in Hline.
  - injection Hline as <-. cbn [decide_rel].
    destruct (decide (0 = 1)) as [|_]; [done|].
    apply (cells_lookup _ widths (length headers - 1)); try done.
    + apply length_imap_zip. lia.
    + intros j wj cj Hj Hwj Hcj.
      apply imap_zip_lookup in Hcj as (w' & h & Hw' & Hh & ->).
      assert (w' = wj) as -> by (unfold widths in *; congruence).
      destruct (widths_lookup _ _ _ _ Hwj) as (h' & column & Hh' & _ & ->).
      assert (h' = h) as -> by congruence.
      pose proof (proj1 (column_width_ge h column)).
      split; [apply length_header_cell | apply header_cell_bar]; lia.
  - injection Hline as <-.
    destruct (decide (1 = 1)) as [_|]; [|done].
    apply (cells_lookup _ widths (length headers - 1)); try done.
    + by rewrite length_imap.
    + intros j wj cj Hj Hwj Hcj.
      rewrite list_lookup_imap, Hwj in Hcj. injection Hcj as <-.
      split; [apply length_separator_cell | apply separator_cell_plus]; lia.
  - destruct (decide (S (S row) = 1)) as [|_]; [done|].
    destruct (data_line headers columns data row line Hlen Hdata Hline)
      as (values & Hvl & Hvalues & ->).
    apply (cells_lookup _ widths (length headers - 1)); try done.
    + apply length_imap_zip. lia.
    + intros j wj cj Hj Hwj Hcj.
      apply imap_zip_lookup in Hcj as (w' & v & Hw' & Hv & ->).
      assert (w' = wj) as -> by (unfold widths in *; congruence).
      destruct (Hvalues j v Hv) as (h & column & Hh & Hc & _ & Hle).
      destruct (widths_lookup _ _ _ _ Hwj) as (h' & column' & Hh' & Hc' & ->).
      assert (h' = h) as -> by congruence.
      assert (column' = column) as -> by congruence.
      split; [apply length_data_cell | apply data_cell_bar]; lia.
Qed.

(** X16. The cells of [PrettyPrintTable] stand at the start of their
    column: the output is a header line, a separator line and one line per
    row, each followed by a line end, and in the line of row [row] (line
    [2 + row]) the cell of column [col] is written in full one character
    after the start of the column, and it is not longer than the column is
    wide. *)
Theorem PrettyPrintTable_cells (fill : Ascii.ascii) (headers : list str)
    (columns : list (list str)) (out : str) :
  headers <> [] ->
  PrettyPrintTable fill headers columns = Some out ->
  let widths := zip_with column_width headers columns in
  exists lines,
    out = concat (map (fun line => line ++ endl) lines)
    /\ length lines = 2 + num_rows columns
    /\ forall row col column value,
         columns !! col = Some column -> column !! row = Some value ->
         row < num_rows columns ->
         exists line w,
           lines !! (2 + row) = Some line
           /\ widths !! col = Some w /\ length value <= w
           /\ take (length value) (drop (column_start widths col + 1) line)
              = value.
Proof.
  intros Hne Hout widths.
  destruct (PrettyPrintTable_lines fill headers columns out Hne Hout)
    as (Hlen & data & Hdata & ->).
  fold widths in Hdata |- *.
  assert (Hdl : length data = num_rows columns).
  { destruct (data_lines_spec _ _ _ _ _ Hdata) as [-> _]. apply length_seq. }
  eexists. split; [reflexivity|]. split; [cbn [length]; by rewrite Hdl|].
  intros row col column value Hcolumn Hvalue Hrow.
  destruct (lookup_lt_is_Some_2 data row ltac:(lia)) as [line Hline].
  exists line.
  destruct (data_line headers columns data row line Hlen Hdata Hline)
    as (values & Hvl & Hvalues & ->).
  fold widths.
  assert (Hcol : col < length columns) by (by apply lookup_lt_Some in Hcolumn).
  destruct (lookup_lt_is_Some_2 values col ltac:(lia)) as [v Hv].
  destruct (Hvalues col v Hv) as (h & column' & Hh & Hc & Hcv & Hle).
  assert (column' = column) as -> by congruence.
  assert (v = value) as -> by congruence.
  assert (Hw : widths !! col = Some (column_width h column)).
  { unfold widths. rewrite lookup_zip_with, Hh. cbn [mbind option_bind].
    by rewrite Hcolumn. }
  exists (column_width h column).
  split; [exact Hline|]. split; [exact Hw|]. split; [exact Hle|].
  rewrite <- drop_drop.
  rewrite (drop_column_start _ widths col
             (data_cell (length headers - 1) col (column_width h column) value)).
  - unfold data_cell. exact (take_app3_length value _ _).
  - intros j wj cj Hj Hwj Hcj.
    apply imap_zip_lookup in Hcj as (w' & vj & Hw' & Hvj & ->).
    assert (w' = wj) as -> by (unfold widths in *; congruence).
    destruct (Hvalues j vj Hvj) as (hj & columnj & Hhj & Hcj & _ & Hlej).
    destruct (widths_lookup _ _ _ _ Hwj) as (h' & column'' & Hh' & Hc' & ->).
    assert (h' = hj) as -> by congruence.
    assert (column'' = columnj) as -> by congruence.
    apply length_data_cell; lia.
  - apply length_imap_zip. unfold widths. rewrite length_zip_with. lia.
  - rewrite list_lookup_imap.
    assert (Hz : zip widths values !! col
                 = Some (column_width h column, value)).
    { apply lookup_zip_with_Some. by eexists _, _. }
    by rewrite Hz.
Qed.

(** ** The table of the header's example *)

Definition chars (s : string) : str := list_ascii_of_string s.

Definition example_names : list str := [chars "person"; chars "favorite color"].

Definition example_rows : list (list str) :=
  [[chars "joe"; chars "red"]; [chars "bob"; chars "green"];
   [chars "alice"; chars "yellow"]].

Definition example_table : option DataTable :=
  AddRows example_rows (new_DataTable example_names).

Example example_table_columns :
  example_table
  = Some {| column_names_ := example_names;
            columns_ := [[chars "joe"; chars "bob"; chars "alice"];
                         [chars "red"; chars "green"; chars "yellow"]] |}.
Proof. reflexivity. Qed.

Example example_pretty :
  (t ← example_table; pretty_lines space (column_names_ t) (columns_ t))
  = Some [chars " person | favorite color";
          chars "--------+----------------";
          chars " joe    | red";
          chars " bob    | green";
          chars " alice  | yellow"].
Proof. reflexivity. Qed.

Example example_centred_header :
  pretty_lines space [chars "id"; chars "n"] [[chars "abcdefg"]; [chars "1"]]
  = Some [chars "   id    | n";
          chars "---------+---";
          chars " abcdefg | 1"].
Proof. reflexivity. Qed.

(** The header row is padded with the fill character the stream had. *)
Example example_header_fill :
  pretty_lines dash [chars "id"; chars "n"] [[chars "abcdefg"]; [chars "1"]]
  = Some [chars "-- id--- | n";
          chars "---------+---";
          chars " abcdefg | 1"].
Proof. reflexivity. Qed.

Example example_csv :
  (t ← example_table; PrintTable (columns_ t) (chars ","))
  = Some (chars "joe,red" ++ endl ++ chars "bob,green" ++ endl
          ++ chars "alice,yellow" ++ endl).
Proof. reflexivity. Qed.

(** A row of the wrong size fails the CHECK of [AddRow]; a table without
    columns takes empty rows and keeps none of them. *)
Example example_bad_row :
  AddRow [chars "joe"] (new_DataTable example_names) = None
  /\ AddRows [[]; []] (new_DataTable []) = Some (new_DataTable []).
Proof. split; reflexivity. Qed.

Lemma DataTable_rectangular_witness :
  exists t,
    calls [CallAddRow [chars "joe"; chars "red"];
           CallAddColumn (chars "age") [chars "7"];
           CallAddRow [chars "bob"; chars "green"; chars "8"]]
          (new_DataTable example_names) = Some t
    /\ rectangular t.
Proof.
  eexists. split; [reflexivity|].
  apply (DataTable_rectangular example_names
           [CallAddRow [chars "joe"; chars "red"];
            CallAddColumn (chars "age") [chars "7"];
            CallAddRow [chars "bob"; chars "green"; chars "8"]]).
  reflexivity.
Defined.

Lemma PrintTable_AddRows_witness :
  example_names <> []
  /\ Forall (fun r => length r = length example_names) example_rows
  /\ exists t, AddRows example_rows (new_DataTable example_names) = Some t
       /\ PrintTable (columns_ t) (chars ",")
          = Some (concat (map (fun r => join (chars ",") r ++ endl)
                              example_rows)).
Proof.
  assert (Hne : example_names <> []) by discriminate.
  assert (Hall : Forall (fun r => length r = length example_names)
                        example_rows)
    by (repeat constructor).
  split; [exact Hne|]. split; [exact Hall|].
  exact (PrintTable_AddRows example_names example_rows (chars ",") Hne Hall).
Defined.

Lemma PrettyPrintTable_separators_witness :
  example_names <> []
  /\ exists out lines,
      PrettyPrintTable space example_names
        [[chars "joe"; chars "bob"; chars "alice"];
         [chars "red"; chars "green"; chars "yellow"]] = Some out
      /\ out = concat (map (fun line => line ++ endl) lines)
      /\ length lines = 5.
Proof.
  assert (Hne : example_names <> []) by discriminate.
  split; [exact Hne|].
  eexists.
  destruct (PrettyPrintTable_separators space example_names
              [[chars "joe"; chars "bob"; chars "alice"];
               [chars "red"; chars "green"; chars "yellow"]] _ Hne eq_refl)
    as (lines & Hout & Hlen & _).
  exists lines. split; [reflexivity|]. split; [exact Hout | exact Hlen].
Defined.

Lemma PrettyPrintTable_cells_witness :
  example_names <> []
  /\ exists out lines,
      PrettyPrintTable space example_names
        [[chars "joe"; chars "bob"; chars "alice"];
         [chars "red"; chars "green"; chars "yellow"]] = Some out
      /\ out = concat (map (fun line => line ++ endl) lines).
Proof.
  assert (Hne : example_names <> []) by discriminate.
  split; [exact Hne|].
  eexists.
  destruct (PrettyPrintTable_cells space example_names
              [[chars "joe"; chars "bob"; chars "alice"];
               [chars "red"; chars "green"; chars "yellow"]] _ Hne eq_refl)
    as (lines & Hout & _ & _).
  exists lines. split; [reflexivity | exact Hout].
Defined.

End Tools.
